(** * Prompt template registry: version comparison, merge, fetch, get and search

    A shallow embedding of the synchronisation and read paths of the registry
    library (the module that defines [compareVersions], [isTrustedDomain],
    [fetchRemoteRegistry], [validateRemoteSchema], [mergeRegistries],
    [saveLocalRegistry], [sync], [get] and [search]) and of
    [getPromptVariant] from the multi-LLM variants module.

    Conventions of the embedding:
    - a JavaScript object used as a map is an association list of its own
      properties in [Object.entries] order (module [Obj]); what a read finds
      through the prototype chain is not in it, and the statements that
      depend on such a read exclude the names of the members of
      [Object.prototype] by a hypothesis ([inherited_name], [plain_names]);
    - a JavaScript number is a value of [Num]; a finite value is the
      rational it denotes, and [Number] rounds to binary64
      ([JsNumber.binary64]);
    - module-level mutable state ([registry], [registryMetadata]) and the
      observable effects (network calls, timers, file writes, console output)
      are threaded through a [World];
    - whatever the platform decides (URL parsing, the network, the cache
      directory, the disk, the clock) is read from a [Platform] record. *)

From Stdlib Require Import List String Ascii Bool Arith ZArith QArith Lia DecimalString.
Import ListNotations.
Open Scope string_scope.
Open Scope Z_scope.

(* ================================================================== *)
(** ** Strings *)

Module Str.

(** [s.split(c)] for a one-character separator: never empty. *)
Fixpoint split (c : ascii) (s : string) : list string :=
  match s with
  | EmptyString => [EmptyString]
  | String a s' =>
      if Ascii.eqb a c then EmptyString :: split c s'
      else match split c s' with
           | x :: r => String a x :: r
           | [] => [String a EmptyString]
           end
  end.

(** [s.startsWith(p)] *)
Definition startsWith (p s : string) : bool := String.prefix p s.

Fixpoint drop (n : nat) (s : string) : string :=
  match n, s with
  | O, _ => s
  | S _, EmptyString => EmptyString
  | S k, String _ s' => drop k s'
  end.

(** [s.endsWith(p)] *)
Definition endsWith (p s : string) : bool :=
  (String.length p <=? String.length s)%nat
  && String.eqb (drop (String.length s - String.length p) s) p.

(** [s.includes(p)] *)
Fixpoint includes (p s : string) : bool :=
  String.prefix p s
  || match s with
     | EmptyString => false
     | String _ s' => includes p s'
     end.

(** [l.join(sep)] *)
Fixpoint join (sep : string) (l : list string) : string :=
  match l with
  | [] => ""
  | [x] => x
  | x :: r => x ++ sep ++ join sep r
  end.

Definition lower_ascii (c : ascii) : ascii :=
  let n := nat_of_ascii c in
  if ((65 <=? n) && (n <=? 90))%nat then ascii_of_nat (n + 32) else c.

(** [s.toLowerCase()] on ASCII text. *)
Fixpoint toLowerCase (s : string) : string :=
  match s with
  | EmptyString => EmptyString
  | String c s' => String (lower_ascii c) (toLowerCase s')
  end.

Definition contains_char (c : ascii) (s : string) : bool :=
  existsb (Ascii.eqb c) (list_ascii_of_string s).

End Str.

(* ================================================================== *)
(** ** JavaScript numbers and [Number(string)] *)

Inductive Num : Type :=
| NaN
| NegInf
| Fin (q : Q)
| PosInf.

Module JsNumber.

Definition code (c : ascii) : Z := Z.of_nat (nat_of_ascii c).

Definition is_digit (c : ascii) : bool := (48 <=? code c) && (code c <=? 57).

(** Value of a digit in base 16 (also used for bases 2, 8 and 10). *)
Definition hex_val (c : ascii) : option Z :=
  let n := code c in
  if (48 <=? n) && (n <=? 57) then Some (n - 48)
  else if (97 <=? n) && (n <=? 102) then Some (n - 87)
  else if (65 <=? n) && (n <=? 70) then Some (n - 55)
  else None.

Definition is_white (c : ascii) : bool :=
  let n := code c in ((9 <=? n) && (n <=? 13)) || (n =? 32).

Fixpoint span (p : ascii -> bool) (l : list ascii) : list ascii * list ascii :=
  match l with
  | [] => ([], [])
  | c :: r => if p c then let '(a, b) := span p r in (c :: a, b) else ([], l)
  end.

Fixpoint drop_white (l : list ascii) : list ascii :=
  match l with
  | c :: r => if is_white c then drop_white r else l
  | [] => []
  end.

Definition trim (l : list ascii) : list ascii :=
  rev (drop_white (rev (drop_white l))).

(** Digits of [l] read in base [b]; [None] when [l] is empty or holds a
    character that is not a digit of that base. *)
Definition radix_value (b : Z) (l : list ascii) : option Z :=
  match l with
  | [] => None
  | _ =>
      fold_left
        (fun acc c =>
           match acc, hex_val c with
           | Some a, Some d => if d <? b then Some (b * a + d) else None
           | _, _ => None
           end) l (Some 0)
  end.

Definition digits_value (l : list ascii) : Z :=
  fold_left (fun a c => 10 * a + (code c - 48)) l 0.

(** [m * 10^e] *)
Definition scale10 (m e : Z) : Q :=
  if 0 <=? e then inject_Z (m * 10 ^ e) else Qmake m (Z.to_pos (10 ^ (- e))).

Definition is_e (c : ascii) : bool := (code c =? 101) || (code c =? 69).

(** ExponentPart, up to the end of the input. *)
Definition parse_exponent (l : list ascii) : option Z :=
  match l with
  | [] => Some 0
  | c :: r =>
      if is_e c then
        let '(sgn, r') :=
          match r with
          | "+"%char :: r' => (1, r')
          | "-"%char :: r' => (-1, r')
          | _ => (1, r)
          end in
        let '(ds, rest) := span is_digit r' in
        match ds, rest with
        | _ :: _, [] => Some (sgn * digits_value ds)
        | _, _ => None
        end
      else None
  end.

Definition infinity_lit : list ascii := list_ascii_of_string "Infinity".

Definition ascii_list_eqb (a b : list ascii) : bool :=
  String.eqb (string_of_list_ascii a) (string_of_list_ascii b).

(** StrUnsignedDecimalLiteral *)
Definition parse_unsigned_decimal (l : list ascii) : Num :=
  if ascii_list_eqb l infinity_lit then PosInf
  else
    let '(ip, r1) := span is_digit l in
    let '(fp, r2) :=
      match r1 with
      | "."%char :: r => span is_digit r
      | _ => ([], r1)
      end in
    match (ip ++ fp)%list with
    | [] => NaN
    | ds =>
        match parse_exponent r2 with
        | Some e => Fin (scale10 (digits_value ds) (e - Z.of_nat (List.length fp)))
        | None => NaN
        end
    end.

Definition negate (x : Num) : Num :=
  match x with
  | NaN => NaN
  | NegInf => PosInf
  | PosInf => NegInf
  | Fin q => Fin (- q)
  end.

Definition of_radix (b : Z) (l : list ascii) : Num :=
  match radix_value b l with
  | Some v => Fin (inject_Z v)
  | None => NaN
  end.

(** The mathematical value of a string as a numeric literal, on ASCII
    text: white space is trimmed, the empty string is 0, then a binary,
    octal or hexadecimal integer, or a signed decimal literal; anything
    else is [NaN]. *)
Definition mathematical_value (s : string) : Num :=
  match trim (list_ascii_of_string s) with
  | [] => Fin 0
  | "0"%char :: "x"%char :: r | "0"%char :: "X"%char :: r => of_radix 16 r
  | "0"%char :: "o"%char :: r | "0"%char :: "O"%char :: r => of_radix 8 r
  | "0"%char :: "b"%char :: r | "0"%char :: "B"%char :: r => of_radix 2 r
  | "+"%char :: r => parse_unsigned_decimal r
  | "-"%char :: r => negate (parse_unsigned_decimal r)
  | l => parse_unsigned_decimal l
  end.

(** The integer nearest to a rational that is not negative, the even one
    of the two when it lies half way. *)
Definition round_nearest_even (q : Q) : Z :=
  let n := Qnum q in
  let d := Z.pos (Qden q) in
  let f := n / d in
  let r := n mod d in
  if 2 * r <? d then f
  else if d <? 2 * r then f + 1
  else if Z.even f then f else f + 1.

(** [2^e] *)
Definition pow2 (e : Z) : Q :=
  if 0 <=? e then inject_Z (2 ^ e) else 1 # Z.to_pos (2 ^ (- e)).

(** The Number value of a rational: the binary64 value nearest to it, ties
    to the even significand. [k] is the exponent of the leading bit; the
    significand has 53 bits down to the exponent -1074 (below, fewer: the
    subnormal numbers); from 2^1024 on the value is infinite. The sign of a
    zero is not kept. *)
Definition binary64 (q : Q) : Num :=
  if Qeq_bool q 0 then Fin 0
  else
    let a := if Qle_bool 0 q then q else (- q)%Q in
    let l := Z.log2 (Qnum a) - Z.log2 (Z.pos (Qden a)) in
    let k := if Qle_bool (pow2 l) a then l else l - 1 in
    let e := Z.max (k - 52) (-1074) in
    let m := round_nearest_even (a / pow2 e)%Q in
    let v := (inject_Z m * pow2 e)%Q in
    if Qle_bool (pow2 1024) v then (if Qle_bool 0 q then PosInf else NegInf)
    else Fin (Qred (if Qle_bool 0 q then v else (- v)%Q)).

Definition round64 (x : Num) : Num :=
  match x with
  | Fin q => binary64 q
  | _ => x
  end.

(** [Number(s)]: StringToNumber, the mathematical value rounded to a
    Number value. *)
Definition Number (s : string) : Num := round64 (mathematical_value s).

(** [x < y] on numbers: false as soon as one side is [NaN]. *)
Definition lt (x y : Num) : bool :=
  match x, y with
  | NaN, _ | _, NaN => false
  | NegInf, NegInf => false
  | NegInf, _ => true
  | _, NegInf => false
  | PosInf, _ => false
  | Fin _, PosInf => true
  | Fin p, Fin q => match (p ?= q)%Q with Lt => true | _ => false end
  end.

(** [x > y] *)
Definition gt (x y : Num) : bool := lt y x.

(** ToBoolean on a number. *)
Definition truthy (x : Num) : bool :=
  match x with
  | NaN => false
  | Fin q => negb (Qeq_bool q 0)
  | _ => true
  end.

(** [v || 0] where [v] is an array element, [None] when the index is out
    of range ([undefined]). *)
Definition or_zero (v : option Num) : Num :=
  match v with
  | Some x => if truthy x then x else Fin 0
  | None => Fin 0
  end.

End JsNumber.

(* ================================================================== *)
(** ** compareVersions *)

(** The [for] loop of [compareVersions]: [i] is the loop index and [fuel]
    the number of iterations left, [Math.max(aParts.length, bParts.length) - i]. *)
Fixpoint compare_loop (aParts bParts : list Num) (i fuel : nat) : Z :=
  match fuel with
  | O => 0
  | S fuel' =>
      let aPart := JsNumber.or_zero (nth_error aParts i) in
      let bPart := JsNumber.or_zero (nth_error bParts i) in
      if JsNumber.gt aPart bPart then 1
      else if JsNumber.lt aPart bPart then -1
      else compare_loop aParts bParts (S i) fuel'
  end.

Definition version_parts (v : string) : list Num :=
  map JsNumber.Number (Str.split "."%char v).

Definition compareVersions (a b : string) : Z :=
  let aParts := version_parts a in
  let bParts := version_parts b in
  compare_loop aParts bParts 0 (Nat.max (List.length aParts) (List.length bParts)).

(* ================================================================== *)
(** ** JavaScript objects used as maps *)

Module Obj.

(** The own enumerable string-keyed properties, in [Object.entries] order. *)
Definition t (V : Type) : Type := list (string * V).

Definition keys {V} (o : t V) : list string := map fst o.

(** [o[k]], [None] for [undefined]. *)
Fixpoint get {V} (k : string) (o : t V) : option V :=
  match o with
  | [] => None
  | (k', v) :: r => if String.eqb k k' then Some v else get k r
  end.

Definition has {V} (k : string) (o : t V) : bool :=
  match get k o with Some _ => true | None => false end.

(** Assignment to a property that exists keeps its place in the order. *)
Fixpoint replace {V} (k : string) (v : V) (o : t V) : t V :=
  match o with
  | [] => []
  | (k', v') :: r =>
      if String.eqb k k' then (k', v) :: r else (k', v') :: replace k v r
  end.

(** A property name that is an array index (a canonical numeric string
    below 2^32 - 1) is enumerated before the other names, in numeric
    order. *)
Definition array_index (k : string) : option Z :=
  let l := list_ascii_of_string k in
  let canonical :=
    match l with
    | [] => false
    | ["0"%char] => true
    | "0"%char :: _ => false
    | _ => forallb JsNumber.is_digit l
    end in
  if canonical && (JsNumber.digits_value l <? 4294967295)
  then Some (JsNumber.digits_value l) else None.

Fixpoint insert_index {V} (n : Z) (k : string) (v : V) (o : t V) : t V :=
  match o with
  | [] => [(k, v)]
  | (k', v') :: r =>
      match array_index k' with
      | Some m => if n <? m then (k, v) :: o else (k', v') :: insert_index n k v r
      | None => (k, v) :: o
      end
  end.

(** [o[k] = v] *)
Definition set {V} (k : string) (v : V) (o : t V) : t V :=
  if has k o then replace k v o
  else match array_index k with
       | Some n => insert_index n k v o
       | None => (o ++ [(k, v)])%list
       end.

(** An object has each property name once. *)
Definition wf {V} (o : t V) : Prop := NoDup (keys o).

Fixpoint wfb {V} (o : t V) : bool :=
  match o with
  | [] => true
  | (k, _) :: r => negb (has k r) && wfb r
  end.

End Obj.

(** The maps above hold the own properties of an object. A read [o[k]]
    in JavaScript also finds what the object inherits from
    [Object.prototype], and an assignment to ["__proto__"] reaches a setter
    instead of creating a property. These are the names concerned; a
    statement that depends on a read or a write of a name that may be one
    of them says so by a hypothesis. *)
Definition object_prototype_names : list string :=
  ["constructor"; "__defineGetter__"; "__defineSetter__"; "hasOwnProperty";
   "__lookupGetter__"; "__lookupSetter__"; "isPrototypeOf"; "propertyIsEnumerable";
   "toString"; "valueOf"; "__proto__"; "toLocaleString"].

Definition inherited_name (k : string) : bool :=
  existsb (String.eqb k) object_prototype_names.

(** No property of [o] is named like a member of [Object.prototype]. *)
Definition plain_names {V} (o : Obj.t V) : bool :=
  forallb (fun kv => negb (inherited_name (fst kv))) o.

(* ================================================================== *)
(** ** Data model *)

(** A version record. A field is [None] when the property is missing. *)
Record VersionRecord : Type := {
  description : option string;
  prompt : option string;
  category : option string;
  tags : option (list string);
  version : option string;
  variants : option (Obj.t string)
}.

Record PromptEntry : Type := {
  latest : string;
  versions : Obj.t VersionRecord
}.

(** The module-level [registry]: prompt id to entry. *)
Definition Registry : Type := Obj.t PromptEntry.

(** The module-level [registryMetadata]; dates are milliseconds. *)
Record RegistryMetadata : Type := {
  localVersion : string;
  lastSync : option Z;
  lastModified : Z;
  syncUrl : option string;
  schemaVersion : string
}.

(** A remote registry document once its shape has been checked. *)
Record RemoteRegistry : Type := {
  prompts : Obj.t PromptEntry;
  remoteSchemaVersion : option string
}.

(** The [remoteMetadata] argument of [mergeRegistries]. *)
Record RemoteMetadata : Type := {
  metaSchemaVersion : option string
}.

Inductive MergeStrategy : Type := PreferLocal | PreferRemote | Interactive.

Inductive ErrorPolicy : Type := PolicyThrow | PolicySilent | PolicyWarn.

(** ToBoolean on a string. *)
Definition truthy_string (s : string) : bool := negb (String.eqb s "").

(** [s || d] for an optional string. *)
Definition or_string (s : option string) (d : string) : string :=
  match s with
  | Some x => if truthy_string x then x else d
  | None => d
  end.

(* ================================================================== *)
(** ** mergeRegistries *)

Module MergeResult.
Record t : Type := {
  newPrompts : nat;
  updatedPrompts : nat;
  conflicts : list string;
  warnings : list string
}.
Definition empty : t :=
  {| newPrompts := 0; updatedPrompts := 0; conflicts := []; warnings := [] |}.
End MergeResult.

(** Loop "add remote versions if they don't exist". *)
Definition add_missing_versions (remoteVersions localVersions : Obj.t VersionRecord)
  : Obj.t VersionRecord :=
  fold_left
    (fun lv '(ver, versionData) =>
       if Obj.has ver lv then lv else Obj.set ver versionData lv)
    remoteVersions localVersions.

(** Loop "add all remote versions". *)
Definition add_all_versions (remoteVersions localVersions : Obj.t VersionRecord)
  : Obj.t VersionRecord :=
  fold_left (fun lv '(ver, versionData) => Obj.set ver versionData lv)
    remoteVersions localVersions.

Definition newer_version_warning (ver promptId : string) : string :=
  "Added newer version " ++ ver ++ " to local prompt " ++ promptId.

(** Loop of the prefer-local / interactive branch. *)
Definition add_newer_versions (promptId localLatest : string)
  (remoteVersions : Obj.t VersionRecord)
  (acc : Obj.t VersionRecord * list string) : Obj.t VersionRecord * list string :=
  fold_left
    (fun '(lv, ws) '(ver, versionData) =>
       if negb (Obj.has ver lv) && (compareVersions ver localLatest =? 1)
       then (Obj.set ver versionData lv, (ws ++ [newer_version_warning ver promptId])%list)
       else (lv, ws))
    remoteVersions acc.

(** What one iteration does to an entry that exists locally, and to the
    result. *)
Definition merge_existing (strategy : MergeStrategy) (promptId : string)
  (localEntry remoteEntry : PromptEntry) (result : MergeResult.t)
  : PromptEntry * MergeResult.t :=
  let versionComparison := compareVersions (latest localEntry) (latest remoteEntry) in
  let localNewer := versionComparison >? 0 in
  let remoteNewer := versionComparison <? 0 in
  if localNewer then
    ({| latest := latest localEntry;
        versions := add_missing_versions (versions remoteEntry) (versions localEntry) |},
     result)
  else if remoteNewer then
    match strategy with
    | PreferRemote =>
        ({| latest := latest remoteEntry;
            versions := add_all_versions (versions remoteEntry) (versions localEntry) |},
         {| MergeResult.newPrompts := MergeResult.newPrompts result;
            MergeResult.updatedPrompts := S (MergeResult.updatedPrompts result);
            MergeResult.conflicts := MergeResult.conflicts result;
            MergeResult.warnings := MergeResult.warnings result |})
    | _ =>
        let '(lv, ws) :=
          add_newer_versions promptId (latest localEntry) (versions remoteEntry)
            (versions localEntry, MergeResult.warnings result) in
        ({| latest := latest localEntry; versions := lv |},
         {| MergeResult.newPrompts := MergeResult.newPrompts result;
            MergeResult.updatedPrompts := MergeResult.updatedPrompts result;
            MergeResult.conflicts := MergeResult.conflicts result;
            MergeResult.warnings := ws |})
    end
  else
    ({| latest := latest localEntry;
        versions := add_missing_versions (versions remoteEntry) (versions localEntry) |},
     result).

(** "Update schema version if remote is newer", as written at the end of
    the loop body. *)
Definition update_schema_version (remoteMetadata : RemoteMetadata)
  (registryMetadata : RegistryMetadata) : RegistryMetadata :=
  match metaSchemaVersion remoteMetadata with
  | Some s =>
      if truthy_string s && (compareVersions s (schemaVersion registryMetadata) >? 0)
      then {| localVersion := localVersion registryMetadata;
              lastSync := lastSync registryMetadata;
              lastModified := lastModified registryMetadata;
              syncUrl := syncUrl registryMetadata;
              schemaVersion := s |}
      else registryMetadata
  | None => registryMetadata
  end.

(** The state the merge loop works on: [registry], [registryMetadata] and
    the local [result]. *)
Definition MergeState : Type := (Registry * RegistryMetadata * MergeResult.t)%type.

(** One iteration of the loop over [Object.entries(remoteRegistry.prompts)].
    A new prompt ends the iteration at [continue], before the schema-version
    update. *)
Definition merge_step (remoteMetadata : RemoteMetadata) (strategy : MergeStrategy)
  (st : MergeState) (kv : string * PromptEntry) : MergeState :=
  let '(registry, registryMetadata, result) := st in
  let '(promptId, remoteEntry) := kv in
  match Obj.get promptId registry with
  | None =>
      (Obj.set promptId remoteEntry registry, registryMetadata,
       {| MergeResult.newPrompts := S (MergeResult.newPrompts result);
          MergeResult.updatedPrompts := MergeResult.updatedPrompts result;
          MergeResult.conflicts := MergeResult.conflicts result;
          MergeResult.warnings := MergeResult.warnings result |})
  | Some localEntry =>
      let '(localEntry', result') :=
        merge_existing strategy promptId localEntry remoteEntry result in
      (Obj.set promptId localEntry' registry,
       update_schema_version remoteMetadata registryMetadata,
       result')
  end.

Definition mergeRegistries (remoteRegistry : RemoteRegistry)
  (remoteMetadata : RemoteMetadata) (strategy : MergeStrategy)
  (registry : Registry) (registryMetadata : RegistryMetadata) : MergeState :=
  fold_left (merge_step remoteMetadata strategy) (prompts remoteRegistry)
    (registry, registryMetadata, MergeResult.empty).

(* ================================================================== *)
(** ** Errors, configuration, platform and world *)

Inductive SyncErrorCode : Type :=
| CERTIFICATE_ERROR
| NETWORK_ERROR
| TIMEOUT
| INVALID_SCHEMA
| QUOTA_EXCEEDED
| UNKNOWN.

(** A thrown value: a [SyncError] with its code and message, or any other
    error object ([TypeError], [SyntaxError], [AbortError], plain [Error])
    with its name and message. *)
Inductive Exn : Type :=
| SyncError (code : SyncErrorCode) (message : string)
| JsError (name : string) (message : string).

(** [error.message] *)
Definition message_of (e : Exn) : string :=
  match e with
  | SyncError _ m => m
  | JsError _ m => m
  end.

Inductive Completion (A : Type) : Type :=
| Return (a : A)
| Throw (e : Exn).
Arguments Return {A} a.
Arguments Throw {A} e.

(** The double quote character, for messages that quote a name. *)
Definition dq : string := String (ascii_of_nat 34) EmptyString.

(** Decimal text of an integer, as in a template literal. *)
Definition Z_to_string (z : Z) : string :=
  DecimalString.NilZero.string_of_int (Z.to_int z).

Module Config.
Record Urls : Type := { development : string; production : string }.
Record Policies : Type := { timeout : Z; retryAttempts : nat }.
Record Security : Type := {
  trustedDomains : list string;
  requireHttps : bool;
  maxPayloadSize : Z
}.
Record Cache : Type := { ttl : Z }.
Record t : Type := {
  urls : Urls;
  policies : Policies;
  security : Security;
  cache : Cache
}.
End Config.

Definition DEFAULT_CONFIG : Config.t :=
  {| Config.urls :=
       {| Config.development :=
            "https://raw.githubusercontent.com/prompt-registry/core/develop/registry.json";
          Config.production :=
            "https://cdn.jsdelivr.net/gh/prompt-registry/core@main/registry.json" |};
     Config.policies := {| Config.timeout := 30000; Config.retryAttempts := 3 |};
     Config.security :=
       {| Config.trustedDomains :=
            ["githubusercontent.com"; "github.com"; "cdn.jsdelivr.net";
             "raw.githubusercontent.com"; "unpkg.com"; "jsdelivr.net"];
          Config.requireHttps := true;
          Config.maxPayloadSize := 104857600 |};
     Config.cache := {| Config.ttl := 3600000 |} |}.

(** What [new URL(s)] exposes to this code. *)
Record Url : Type := { protocol : string; hostname : string }.

(** A remote payload as [response.json()] delivers it, before
    [validateRemoteSchema] has looked at it. An entry of the [prompts]
    object is [null], or a value of which the code reads the properties
    [latest] (kept when it is a string) and [versions] (kept when it is an
    object). *)
Inductive RemoteEntry : Type :=
| EntryNull
| EntryObject (entryLatest : option string) (entryVersions : option (Obj.t VersionRecord)).

Definition entryLatest (entry : RemoteEntry) : option string :=
  match entry with
  | EntryNull => None
  | EntryObject l _ => l
  end.

Definition entryVersions (entry : RemoteEntry) : option (Obj.t VersionRecord) :=
  match entry with
  | EntryNull => None
  | EntryObject _ vs => vs
  end.

Inductive RemoteData : Type :=
| DataNotObject
| DataObject (dataPrompts : option (Obj.t RemoteEntry)) (dataSchemaVersion : option string).

Inductive JsonBody : Type :=
| BodyInvalid (message : string)
| BodyJson (data : RemoteData) (stringifiedLength : Z).

Record Response : Type := {
  ok : bool;
  status : Z;
  statusText : string;
  contentType : option string;
  body : JsonBody
}.

Inductive FetchOutcome : Type :=
| FetchRejected (name message : string)
| FetchResponse (r : Response).

(** Everything the environment decides.
    - [URL s]: [new URL(s)], [None] when the constructor throws;
    - [production]: [process.env.NODE_ENV === 'production'];
    - [fetch url n]: how the [n]-th call of [fetch] made by one
      [fetchRemoteRegistry] settles (an abort by the timer is a rejection);
    - [loadFromCache n url]: what the [n]-th cache read of one [sync] returns
      (counting from 0), [None] for [null];
    - [writeRegistryFile]: [Some m] when writing the registry file throws an
      error with message [m];
    - [now]: the clock. *)
Record Platform : Type := {
  URL : string -> option Url;
  production : bool;
  fetch : string -> nat -> FetchOutcome;
  loadFromCache : nat -> string -> option RemoteRegistry;
  writeRegistryFile : option string;
  now : Z
}.

Inductive Event : Type :=
| Progress (stage : string) (percent : Z)
| HttpFetch (url : string) (attempt : nat)
| Sleep (ms : Z)
| CacheWrite (url : string)
| RegistryWrite
| ConsoleWarn (text : string).

(** The mutable module state and the trace of effects, oldest first. *)
Record World : Type := {
  registry : Registry;
  registryMetadata : RegistryMetadata;
  events : list Event
}.

Definition emit (e : Event) (w : World) : World :=
  {| registry := registry w;
     registryMetadata := registryMetadata w;
     events := (events w ++ [e])%list |}.

Module SyncOptions.
Record t : Type := {
  url : option string;
  force : bool;
  timeout : option Z;
  progressCallback : bool;
  errorPolicy : option ErrorPolicy;
  mergeStrategy : option MergeStrategy;
  silent : bool;
  background : bool
}.
Definition default : t :=
  {| url := None; force := false; timeout := None; progressCallback := false;
     errorPolicy := None; mergeStrategy := None; silent := false;
     background := false |}.
End SyncOptions.

(** [reportProgress]: the callback, when one is supplied, observes the
    stage and the percentage. *)
Definition reportProgress (options : SyncOptions.t) (stage : string) (percent : Z)
  (w : World) : World :=
  if SyncOptions.progressCallback options then emit (Progress stage percent) w else w.

(* ================================================================== *)
(** ** isTrustedDomain and fetchRemoteRegistry *)

Definition isTrustedDomain (P : Platform) (config : Config.t) (url : string) : bool :=
  match URL P url with
  | None => false
  | Some parsedUrl =>
      if Config.requireHttps (Config.security config)
         && negb (String.eqb (protocol parsedUrl) "https:")
      then false
      else
        existsb
          (fun domain =>
             String.eqb (hostname parsedUrl) domain
             || Str.endsWith ("." ++ domain) (hostname parsedUrl))
          (Config.trustedDomains (Config.security config))
  end.

(** The body of the [try] block of one attempt, from the call of [fetch] on:
    the data it returns, or the error it throws. *)
Definition attempt_outcome (P : Platform) (config : Config.t) (url : string)
  (attempt : nat) : RemoteData + Exn :=
  match fetch P url attempt with
  | FetchRejected name message => inr (JsError name message)
  | FetchResponse response =>
      if negb (ok response) then
        inr (SyncError NETWORK_ERROR
               ("HTTP " ++ Z_to_string (status response) ++ ": " ++ statusText response))
      else
        let contentType := or_string (contentType response) "" in
        if negb (Str.includes "application/json" contentType) then
          inr (SyncError INVALID_SCHEMA ("Invalid content type: " ++ contentType))
        else
          match body response with
          | BodyInvalid message => inr (JsError "SyntaxError" message)
          | BodyJson data dataSize =>
              if dataSize >? Config.maxPayloadSize (Config.security config) then
                inr (SyncError QUOTA_EXCEEDED
                       ("Payload too large: " ++ Z_to_string dataSize ++ " bytes"))
              else inl data
          end
  end.

(** [Math.round((attempt - 1) / retryAttempts * 20)] *)
Definition fetch_percent (attempt retryAttempts : nat) : Z :=
  (2 * 20 * (Z.of_nat attempt - 1) + Z.of_nat retryAttempts) / (2 * Z.of_nat retryAttempts).

(** [Math.min(1000 * Math.pow(2, attempt - 1), 30000)] *)
Definition backoff_delay (attempt : nat) : Z :=
  Z.min (1000 * 2 ^ (Z.of_nat attempt - 1)) 30000.

(** The retry loop, entered at [attempt] with [remaining] iterations to go
    ([retryAttempts - attempt + 1]). It ends with the data of an attempt
    that went through, or, when the attempts are used up, with [lastError]. *)
Fixpoint fetch_loop (P : Platform) (config : Config.t) (url : string)
  (options : SyncOptions.t) (remaining attempt : nat) (lastError : option Exn)
  (w : World) : (RemoteData + option Exn) * World :=
  match remaining with
  | O => (inr lastError, w)
  | S remaining' =>
      let retryAttempts := Config.retryAttempts (Config.policies config) in
      let w1 := reportProgress options "fetching" (fetch_percent attempt retryAttempts) w in
      let w2 := emit (HttpFetch url attempt) w1 in
      match attempt_outcome P config url attempt with
      | inl data => (inl data, w2)
      | inr error =>
          let w3 :=
            if (attempt <? retryAttempts)%nat then emit (Sleep (backoff_delay attempt)) w2
            else w2 in
          fetch_loop P config url options remaining' (S attempt) (Some error) w3
      end
  end.

Definition fetchRemoteRegistry (P : Platform) (config : Config.t) (url : string)
  (options : SyncOptions.t) (w : World) : Completion RemoteData * World :=
  if negb (isTrustedDomain P config url) then
    (* the message is built from [new URL(url).hostname] *)
    match URL P url with
    | None => (Throw (JsError "TypeError" "Invalid URL"), w)
    | Some u => (Throw (SyncError CERTIFICATE_ERROR ("Untrusted domain: " ++ hostname u)), w)
    end
  else
    let retryAttempts := Config.retryAttempts (Config.policies config) in
    match fetch_loop P config url options retryAttempts 1 None w with
    | (inl data, w') => (Return data, w')
    | (inr (Some (SyncError code message)), w') => (Throw (SyncError code message), w')
    | (inr (Some (JsError _ message)), w') =>
        (Throw (SyncError NETWORK_ERROR (or_string (Some message) "Network request failed")), w')
    | (inr None, w') =>
        (* [lastError] is still [undefined]: reading [lastError.message] throws *)
        (Throw (JsError "TypeError" "Cannot read properties of undefined (reading 'message')"), w')
    end.

(** The fetch calls recorded in a trace. *)
Definition fetch_calls (evs : list Event) : list nat :=
  flat_map (fun e => match e with HttpFetch _ n => [n] | _ => [] end) evs.

(* ================================================================== *)
(** ** validateRemoteSchema *)

(** The first required field the version record lacks, in the order of
    [requiredFields]. *)
Definition missing_required_field (r : VersionRecord) : option string :=
  match description r, prompt r, category r, tags r, version r with
  | None, _, _, _, _ => Some "description"
  | _, None, _, _, _ => Some "prompt"
  | _, _, None, _, _ => Some "category"
  | _, _, _, None, _ => Some "tags"
  | _, _, _, _, None => Some "version"
  | _, _, _, _, _ => None
  end.

(** The checks made on one entry; a checked entry has its [latest] string
    and its [versions] object. Reading [entry.latest] of [null] throws a
    [TypeError]. The read [entry.versions[entry.latest]] goes through the
    prototype chain: for a [latest] that is no own property of [versions],
    the name ["__proto__"] finds [Object.prototype], an object without the
    required fields; every other inherited name finds a function, which
    fails the [typeof] test like a missing version. *)
Definition validate_entry (promptId : string) (entry : RemoteEntry)
  : Completion PromptEntry :=
  match entry with
  | EntryNull =>
      Throw (JsError "TypeError" "Cannot read properties of null (reading 'latest')")
  | EntryObject None _ =>
      Throw (SyncError INVALID_SCHEMA
               ("Prompt " ++ promptId ++ " missing valid " ++ dq ++ "latest" ++ dq ++ " version"))
  | EntryObject (Some l) _ =>
      if negb (truthy_string l) then
        Throw (SyncError INVALID_SCHEMA
                 ("Prompt " ++ promptId ++ " missing valid " ++ dq ++ "latest" ++ dq ++ " version"))
      else
        match entryVersions entry with
        | None =>
            Throw (SyncError INVALID_SCHEMA
                     ("Prompt " ++ promptId ++ " missing " ++ dq ++ "versions" ++ dq ++ " object"))
        | Some vs =>
            match Obj.get l vs with
            | None =>
                if String.eqb l "__proto__" then
                  Throw (SyncError INVALID_SCHEMA
                           ("Prompt " ++ promptId ++ "@" ++ l
                            ++ " missing required field: description"))
                else
                  Throw (SyncError INVALID_SCHEMA
                           ("Prompt " ++ promptId ++ " latest version " ++ dq ++ l ++ dq
                            ++ " not found"))
            | Some latestVersionData =>
                match missing_required_field latestVersionData with
                | Some field =>
                    Throw (SyncError INVALID_SCHEMA
                             ("Prompt " ++ promptId ++ "@" ++ l
                              ++ " missing required field: " ++ field))
                | None => Return {| latest := l; versions := vs |}
                end
            end
        end
  end.

(** The loop over [Object.entries(data.prompts)]: it stops at the first
    entry that fails. *)
Fixpoint validate_entries (entries : Obj.t RemoteEntry) : Completion (Obj.t PromptEntry) :=
  match entries with
  | [] => Return []
  | (promptId, entry) :: rest =>
      match validate_entry promptId entry with
      | Throw e => Throw e
      | Return checked =>
          match validate_entries rest with
          | Throw e => Throw e
          | Return r => Return ((promptId, checked) :: r)
          end
      end
  end.

(** [validateRemoteSchema]: throws, or returns [true]; the document it has
    accepted is returned here in its checked form. *)
Definition validateRemoteSchema (data : RemoteData) : Completion RemoteRegistry :=
  match data with
  | DataNotObject => Throw (SyncError INVALID_SCHEMA "Registry must be an object")
  | DataObject None _ =>
      Throw (SyncError INVALID_SCHEMA
               ("Registry must contain " ++ dq ++ "prompts" ++ dq ++ " object"))
  | DataObject (Some entries) sv =>
      match validate_entries entries with
      | Throw e => Throw e
      | Return ps => Return {| prompts := ps; remoteSchemaVersion := sv |}
      end
  end.

(* ================================================================== *)
(** ** saveToCache, saveLocalRegistry and sync *)

(** [saveToCache]: a failed write is swallowed. *)
Definition saveToCache (url : string) (w : World) : World := emit (CacheWrite url) w.

Definition set_lastModified (d : Z) (m : RegistryMetadata) : RegistryMetadata :=
  {| localVersion := localVersion m; lastSync := lastSync m; lastModified := d;
     syncUrl := syncUrl m; schemaVersion := schemaVersion m |}.

(** [saveLocalRegistry]: whatever the write throws is rethrown as a
    [SyncError] with code [QUOTA_EXCEEDED]. *)
Definition saveLocalRegistry (P : Platform) (w : World) : Completion unit * World :=
  let w1 := emit RegistryWrite w in
  match writeRegistryFile P with
  | Some message =>
      (Throw (SyncError QUOTA_EXCEEDED ("Failed to save registry: " ++ message)), w1)
  | None =>
      (Return tt,
       {| registry := registry w1;
          registryMetadata := set_lastModified (now P) (registryMetadata w1);
          events := events w1 |})
  end.

Module SyncResult.
Record t : Type := {
  success : bool;
  localVersion : string;
  remoteVersion : option string;
  newPrompts : nat;
  updatedPrompts : nat;
  errors : list Exn;
  warnings : list string;
  lastSync : option Z
}.
End SyncResult.

(** The defaults [sync] fills in. *)
Definition sync_url (P : Platform) (config : Config.t) (options : SyncOptions.t) : string :=
  match SyncOptions.url options with
  | Some u =>
      if truthy_string u then u
      else if production P then Config.production (Config.urls config)
           else Config.development (Config.urls config)
  | None =>
      if production P then Config.production (Config.urls config)
      else Config.development (Config.urls config)
  end.

Definition sync_strategy (options : SyncOptions.t) : MergeStrategy :=
  match SyncOptions.mergeStrategy options with
  | Some s => s
  | None => PreferLocal
  end.

Definition sync_policy (options : SyncOptions.t) : ErrorPolicy :=
  match SyncOptions.errorPolicy options with
  | Some p => p
  | None => PolicyThrow
  end.

(** [mergeRegistries] run on the world, its counters and warnings stored
    in [result]. *)
Definition merge_into (remote : RemoteRegistry) (remoteMetadata : RemoteMetadata)
  (options : SyncOptions.t) (result : SyncResult.t) (w : World) : SyncResult.t * World :=
  let '(reg, meta, mergeResult) :=
    mergeRegistries remote remoteMetadata (sync_strategy options)
      (registry w) (registryMetadata w) in
  ({| SyncResult.success := SyncResult.success result;
      SyncResult.localVersion := SyncResult.localVersion result;
      SyncResult.remoteVersion := SyncResult.remoteVersion result;
      SyncResult.newPrompts := MergeResult.newPrompts mergeResult;
      SyncResult.updatedPrompts := MergeResult.updatedPrompts mergeResult;
      SyncResult.errors := SyncResult.errors result;
      SyncResult.warnings := MergeResult.warnings mergeResult;
      SyncResult.lastSync := SyncResult.lastSync result |},
   {| registry := reg; registryMetadata := meta; events := events w |}).

Definition set_remoteVersion (v : string) (result : SyncResult.t) : SyncResult.t :=
  {| SyncResult.success := SyncResult.success result;
     SyncResult.localVersion := SyncResult.localVersion result;
     SyncResult.remoteVersion := Some v;
     SyncResult.newPrompts := SyncResult.newPrompts result;
     SyncResult.updatedPrompts := SyncResult.updatedPrompts result;
     SyncResult.errors := SyncResult.errors result;
     SyncResult.warnings := SyncResult.warnings result;
     SyncResult.lastSync := SyncResult.lastSync result |}.

(** The network branch of the [try] block: fetch, validate, cache, merge
    and persist. [inl e] is a throw; the result and the world are those
    reached at that point. *)
Definition sync_network (P : Platform) (config : Config.t) (url : string)
  (options : SyncOptions.t) (result : SyncResult.t) (w : World)
  : (Exn + unit) * SyncResult.t * World :=
  let w1 := reportProgress options "fetching" 25 w in
  match fetchRemoteRegistry P config url options w1 with
  | (Throw e, w2) => (inl e, result, w2)
  | (Return remoteData, w2) =>
      let w3 := reportProgress options "validating" 50 w2 in
      match validateRemoteSchema remoteData with
      | Throw e => (inl e, result, w3)
      | Return remote =>
          let w4 := reportProgress options "comparing" 60 w3 in
          let w5 := saveToCache url w4 in
          let remoteVersion := or_string (remoteSchemaVersion remote) "2.0" in
          let result1 := set_remoteVersion remoteVersion result in
          let w6 := reportProgress options "merging" 75 w5 in
          let '(result2, w7) :=
            merge_into remote {| metaSchemaVersion := Some remoteVersion |} options result1 w6 in
          let w8 := reportProgress options "updating" 90 w7 in
          if ((0 <? SyncResult.newPrompts result2) || (0 <? SyncResult.updatedPrompts result2))%nat
          then
            match saveLocalRegistry P w8 with
            | (Throw e, w9) => (inl e, result2, w9)
            | (Return _, w9) => (inr tt, result2, w9)
            end
          else (inr tt, result2, w8)
      end
  end.

(** "Check if we need to sync (unless forced)": the cached document, when
    one is found, is merged. The number is that of the cache reads made. *)
Definition sync_cached (P : Platform) (url : string) (options : SyncOptions.t)
  (result : SyncResult.t) (w : World) : SyncResult.t * World * nat :=
  if negb (SyncOptions.force options) then
    match loadFromCache P 0 url with
    | Some cached =>
        let w' := reportProgress options "fetching" 100 w in
        let '(r, w'') :=
          merge_into cached {| metaSchemaVersion := Some "2.0" |} options result w' in
        (r, w'', 1%nat)
    | None => (result, w, 1%nat)
    end
  else (result, w, 0%nat).

(** The end of the [try] block, reached when nothing was thrown. *)
Definition sync_finalize (P : Platform) (options : SyncOptions.t)
  (t : (Exn + unit) * SyncResult.t * World) : (Exn + unit) * SyncResult.t * World :=
  let '(outcome, result, w) := t in
  match outcome with
  | inl e => (inl e, result, w)
  | inr _ =>
      let w' := reportProgress options "finalizing" 100 w in
      let meta := registryMetadata w' in
      (inr tt,
       {| SyncResult.success := true;
          SyncResult.localVersion := SyncResult.localVersion result;
          SyncResult.remoteVersion := SyncResult.remoteVersion result;
          SyncResult.newPrompts := SyncResult.newPrompts result;
          SyncResult.updatedPrompts := SyncResult.updatedPrompts result;
          SyncResult.errors := SyncResult.errors result;
          SyncResult.warnings := SyncResult.warnings result;
          SyncResult.lastSync := Some (now P) |},
       {| registry := registry w';
          registryMetadata :=
            {| localVersion :=
                 or_string (SyncResult.remoteVersion result) (localVersion meta);
               lastSync := Some (now P);
               lastModified := lastModified meta;
               syncUrl := syncUrl meta;
               schemaVersion := schemaVersion meta |};
          events := events w' |})
  end.

(** The [try] block of [sync]. *)
Definition sync_try (P : Platform) (config : Config.t) (url : string)
  (options : SyncOptions.t) (result : SyncResult.t) (w : World)
  : (Exn + unit) * SyncResult.t * World :=
  let w1 := reportProgress options "initializing" 0 w in
  let '(result1, w2, reads) := sync_cached P url options result w1 in
  sync_finalize P options
    (* [if (!loadFromCache(syncOptions.url) || syncOptions.force)] *)
    match loadFromCache P reads url with
    | Some _ =>
        if SyncOptions.force options
        then sync_network P config url options result1 w2
        else (inr tt, result1, w2)
    | None => sync_network P config url options result1 w2
    end.

(** [sync]: the outcome is the returned result or the thrown error. *)
Definition sync (P : Platform) (config : Config.t) (options : SyncOptions.t) (w : World)
  : Completion SyncResult.t * World :=
  let result :=
    {| SyncResult.success := false;
       SyncResult.localVersion := localVersion (registryMetadata w);
       SyncResult.remoteVersion := None;
       SyncResult.newPrompts := 0;
       SyncResult.updatedPrompts := 0;
       SyncResult.errors := [];
       SyncResult.warnings := [];
       SyncResult.lastSync := None |} in
  let url := sync_url P config options in
  let meta := registryMetadata w in
  let w0 :=
    {| registry := registry w;
       registryMetadata :=
         {| localVersion := localVersion meta; lastSync := lastSync meta;
            lastModified := lastModified meta; syncUrl := Some url;
            schemaVersion := schemaVersion meta |};
       events := events w |} in
  match sync_try P config url options result w0 with
  | (inr _, result', w') => (Return result', w')
  | (inl error, result', w') =>
      let syncError :=
        match error with
        | SyncError _ _ => error
        | JsError _ m => SyncError UNKNOWN (or_string (Some m) "Unknown error occurred")
        end in
      let result'' :=
        {| SyncResult.success := SyncResult.success result';
           SyncResult.localVersion := SyncResult.localVersion result';
           SyncResult.remoteVersion := SyncResult.remoteVersion result';
           SyncResult.newPrompts := SyncResult.newPrompts result';
           SyncResult.updatedPrompts := SyncResult.updatedPrompts result';
           SyncResult.errors := (SyncResult.errors result' ++ [syncError])%list;
           SyncResult.warnings := SyncResult.warnings result';
           SyncResult.lastSync := SyncResult.lastSync result' |} in
      match sync_policy options with
      | PolicyThrow => (Throw syncError, w')
      | PolicyWarn => (Return result'', emit (ConsoleWarn ("Sync warning: " ++ message_of syncError)) w')
      | PolicySilent => (Return result'', w')
      end
  end.

(* ================================================================== *)
(** ** getModelCategory and getPromptVariant *)

Definition MODEL_CATEGORIES : Obj.t string :=
  [("gpt-4", "gpt"); ("gpt-3.5-turbo", "gpt"); ("claude-3-opus", "claude");
   ("claude-3-sonnet", "claude"); ("claude-3-haiku", "claude"); ("llama-3", "llama");
   ("llama-2", "llama"); ("gemini-pro", "gemini"); ("mistral-large", "mistral");
   ("mixtral", "mistral")].

Definition CATEGORY_PREFIXES : Obj.t (list string) :=
  [("gpt", ["gpt-4"; "gpt-3.5"]); ("claude", ["claude-3"; "claude-2"]);
   ("llama", ["llama-3"; "llama-2"]); ("gemini", ["gemini"]);
   ("mistral", ["mistral"; "mixtral"])].

Definition getModelCategory (model : string) : string :=
  match Obj.get model MODEL_CATEGORIES with
  | Some c => c
  | None =>
      match
        find (fun '(_, models) => existsb (fun p => Str.startsWith p model) models)
          CATEGORY_PREFIXES
      with
      | Some (c, _) => c
      | None => "generic"
      end
  end.

(** [variants[k]] when it is truthy. *)
Definition truthy_variant (variants : Obj.t string) (k : string) : option string :=
  match Obj.get k variants with
  | Some v => if truthy_string v then Some v else None
  | None => None
  end.

(** [getPromptVariant]: the text it returns, [None] for [undefined]. *)
Definition getPromptVariant (promptData : VersionRecord) (model : string) : option string :=
  match variants promptData with
  | None => prompt promptData
  | Some vs =>
      match truthy_variant vs model with
      | Some v => Some v
      | None =>
          match truthy_variant vs (getModelCategory model) with
          | Some v => Some v
          | None =>
              match truthy_variant vs "generic" with
              | Some v => Some v
              | None => prompt promptData
              end
          end
      end
  end.

(* ================================================================== *)
(** ** createPromptVariant, listPromptVariants, adaptPromptForModel and
    generateAllVariants *)

Definition set_variants (vs : Obj.t string) (promptData : VersionRecord) : VersionRecord :=
  {| description := description promptData; prompt := prompt promptData;
     category := category promptData; tags := tags promptData;
     version := version promptData; variants := Some vs |}.

(** [promptData.variants] once [if (!promptData.variants) promptData.variants = {}]
    has run. *)
Definition variants_or_empty (promptData : VersionRecord) : Obj.t string :=
  match variants promptData with
  | Some vs => vs
  | None => []
  end.

(** [createPromptVariant]: the prompt data it returns, which is the object
    it was given, updated in place. *)
Definition createPromptVariant (promptData : VersionRecord) (model variantPrompt : string)
  : VersionRecord :=
  set_variants (Obj.set model variantPrompt (variants_or_empty promptData)) promptData.

Definition listPromptVariants (promptData : VersionRecord) : list string :=
  match variants promptData with
  | None => []
  | Some vs => Obj.keys vs
  end.

(** [prompt.replace(/^(Generate|Create|Write)/, 'Please $1')] *)
Definition polite (prompt : string) : string :=
  if String.prefix "Generate" prompt || String.prefix "Create" prompt
     || String.prefix "Write" prompt
  then "Please " ++ prompt
  else prompt.

(** [prompt.charAt(0).toLowerCase() + prompt.slice(1)] *)
Definition lower_first (prompt : string) : string :=
  match prompt with
  | EmptyString => EmptyString
  | String c r => String (Str.lower_ascii c) r
  end.

(** [prompt.replace(/\s+/g, ' ')] on ASCII text; [inRun] tells that the
    character before was white space. *)
Fixpoint collapse_white (s : string) (inRun : bool) : string :=
  match s with
  | EmptyString => EmptyString
  | String c r =>
      if JsNumber.is_white c
      then if inRun then collapse_white r true else String " " (collapse_white r true)
      else String c (collapse_white r false)
  end.

(** [s.trim()] on ASCII text. *)
Definition trim (s : string) : string :=
  string_of_list_ascii (JsNumber.trim (list_ascii_of_string s)).

(** Every white-space character of [l] is a space that does not follow
    another white-space character; [prev] tells that one comes before [l]. *)
Fixpoint squeezed (prev : bool) (l : list ascii) : bool :=
  match l with
  | [] => true
  | c :: r =>
      if JsNumber.is_white c then Ascii.eqb c " " && negb prev && squeezed true r
      else squeezed false r
  end.

(** [l] does not begin with white space. *)
Definition starts_black (l : list ascii) : Prop :=
  match l with
  | [] => True
  | c :: _ => JsNumber.is_white c = false
  end.

Definition adaptPromptForModel (prompt model : string) : string :=
  let category := getModelCategory model in
  if String.eqb category "gpt" then prompt
  else if String.eqb category "claude" then polite prompt
  else if String.eqb category "llama" then
    if negb (Str.includes "please" (Str.toLowerCase prompt))
       && negb (Str.includes "generate" (Str.toLowerCase prompt))
    then "Please " ++ lower_first prompt
    else prompt
  else if String.eqb category "gemini" then prompt
  else if String.eqb category "mistral" then trim (collapse_white prompt false)
  else prompt.

(** The elements of [new Set(l)], in the order of their first occurrence;
    [seen] holds the elements met so far. *)
Fixpoint unique (seen l : list string) : list string :=
  match l with
  | [] => []
  | x :: r =>
      if existsb (String.eqb x) seen then unique seen r else x :: unique (x :: seen) r
  end.

(** [[...new Set(Object.values(MODEL_CATEGORIES))]] *)
Definition categories : list string := unique [] (map snd MODEL_CATEGORIES).

(** One round of the [forEach] of [generateAllVariants]. *)
Definition generate_variant (text : string) (vs : Obj.t string) (category : string)
  : Obj.t string :=
  match truthy_variant vs category with
  | Some _ => vs
  | None => Obj.set category (adaptPromptForModel text category) vs
  end.

(** [generateAllVariants] for prompt data that has its prompt text; without
    one ([None]) the code stores [undefined] variants and, unless a
    "mistral" variant exists, throws on [undefined.replace]: that case is
    left out. *)
Definition generateAllVariants (promptData : VersionRecord) : option VersionRecord :=
  match prompt promptData with
  | None => None
  | Some text =>
      Some (set_variants
              (fold_left (generate_variant text) categories (variants_or_empty promptData))
              promptData)
  end.

(* ================================================================== *)
(** ** Regular expressions of [get] *)

Module Re.

(** The characters with a meaning in a pattern. A variable name without
    them makes [new RegExp('\\{\\{' + key + '\\}\\}', 'g')] match the text
    [{{key}}] and nothing else; other names are outside this model. *)
Definition syntax_characters : string := "^$\.*+?()[]{}|".

Definition placeholder_pattern (key : string) : option string :=
  if existsb (fun c => Str.contains_char c syntax_characters) (list_ascii_of_string key)
  then None
  else Some ("{{" ++ key ++ "}}").

(** GetSubstitution for a match without capture groups: [$$] is a dollar
    sign, [$&] the matched text, [$`] the text before the match, [$'] the
    text after it; any other character stands for itself. *)
Fixpoint expand_replacement (template matched before after : string) : string :=
  match template with
  | EmptyString => EmptyString
  | String c rest =>
      if Ascii.eqb c "$" then
        match rest with
        | String d r =>
            if Ascii.eqb d "$" then String "$" (expand_replacement r matched before after)
            else if Ascii.eqb d "&" then matched ++ expand_replacement r matched before after
            else if Ascii.eqb d "`" then before ++ expand_replacement r matched before after
            else if Ascii.eqb d "'" then after ++ expand_replacement r matched before after
            else String c (expand_replacement rest matched before after)
        | EmptyString => String c EmptyString
        end
      else String c (expand_replacement rest matched before after)
  end.

(** [subject.replace(/pattern/g, replacement)] for a literal, non-empty
    pattern. [before] is the text already passed and [skip] the number of
    characters left of the match being replaced. *)
Fixpoint replace_from (pattern replacement before s : string) (skip : nat) : string :=
  match s with
  | EmptyString => EmptyString
  | String c s' =>
      match skip with
      | S k => replace_from pattern replacement (before ++ String c EmptyString) s' k
      | O =>
          if String.prefix pattern s then
            expand_replacement replacement pattern before
              (Str.drop (String.length pattern) s)
            ++ replace_from pattern replacement (before ++ String c EmptyString) s'
                 (String.length pattern - 1)
          else
            String c (replace_from pattern replacement (before ++ String c EmptyString) s' 0)
      end
  end.

Definition replace_all (pattern replacement subject : string) : string :=
  replace_from pattern replacement EmptyString subject 0.

(** The longest run of characters other than [}] at the head of [s], and
    what follows it. *)
Fixpoint name_run (s : string) : string * string :=
  match s with
  | EmptyString => (EmptyString, EmptyString)
  | String c r =>
      if Ascii.eqb c "}" then (EmptyString, s)
      else let '(a, b) := name_run r in (String c a, b)
  end.

(** A match of [\{\{([^}]+)\}\}] at the head of [s]: its group. *)
Definition placeholder_at (s : string) : option string :=
  match s with
  | String "{" (String "{" r) =>
      let '(name, rest) := name_run r in
      if negb (String.eqb name "") && String.prefix "}}" rest then Some name else None
  | _ => None
  end.

(** [s.match(/\{\{([^}]+)\}\}/g)] with each match cut to its name
    ([v.slice(2, -2)]); the empty list stands for [null]. *)
Fixpoint placeholders_from (s : string) (skip : nat) : list string :=
  match s with
  | EmptyString => []
  | String _ s' =>
      match skip with
      | S k => placeholders_from s' k
      | O =>
          match placeholder_at s with
          | Some name => name :: placeholders_from s' (String.length name + 3)
          | None => placeholders_from s' 0
          end
      end
  end.

Definition placeholders (s : string) : list string := placeholders_from s 0.

End Re.

(* ================================================================== *)
(** ** get *)

Inductive JsValue : Type :=
| VUndefined
| VNull
| VBool (b : bool)
| VNumber (z : Z)
| VString (s : string).

(** The replacement text [value || ''] turns into. *)
Definition replacement_of (value : JsValue) : string :=
  match value with
  | VString s => s
  | VNumber z => if z =? 0 then "" else Z_to_string z
  | VBool true => "true"
  | _ => ""
  end.

Module GetResult.
Record t : Type := {
  id : string;
  prompt : string;
  description : option string;
  category : option string;
  tags : option (list string);
  version : option string
}.
End GetResult.

(** The third argument of [get]. [model] is the option the README
    documents; the others are those of [GetOptions]. *)
Module GetOptions.
Record t : Type := {
  model : option string;
  syncOnMissing : bool;
  syncUrl : option string;
  timeout : option Z
}.
Definition default : t :=
  {| model := None; syncOnMissing := false; syncUrl := None; timeout := None |}.
End GetOptions.

(** The substitution loop over [Object.entries(variables)]; [None] when a
    variable name is outside the modelled patterns. *)
Fixpoint interpolate (variables : Obj.t JsValue) (text : string) : option string :=
  match variables with
  | [] => Some text
  | (key, value) :: rest =>
      match Re.placeholder_pattern key with
      | None => None
      | Some pattern => interpolate rest (Re.replace_all pattern (replacement_of value) text)
      end
  end.

(** [id.split('@').slice(0, 2)] when the id holds an [@]. *)
Definition split_id (id : string) : string * string :=
  if Str.includes "@" id then
    match Str.split "@"%char id with
    | baseId :: ver :: _ => (baseId, ver)
    | baseId :: [] => (baseId, "")
    | [] => (id, "")
    end
  else (id, "").

Definition undefined_read (property : string) : Exn :=
  JsError "TypeError" ("Cannot read properties of undefined (reading '" ++ property ++ "')").

(** [get] from the lookup of the version on, for a base entry found. *)
Definition get_found (baseId requested : string) (base : PromptEntry)
  (variables : Obj.t JsValue) : option (Completion GetResult.t) :=
  let ver := if truthy_string requested then requested else latest base in
  match Obj.get ver (versions base) with
  | None =>
      Some (Throw (JsError "Error"
              ("Version " ++ dq ++ ver ++ dq ++ " not available for " ++ dq ++ baseId ++ dq)))
  | Some promptData =>
      match prompt promptData with
      | None =>
          Some (Throw (undefined_read
                  (match variables with [] => "match" | _ => "replace" end)))
      | Some text =>
          match interpolate variables text with
          | None => None
          | Some out =>
              match Re.placeholders out with
              | [] =>
                  Some (Return
                    {| GetResult.id := baseId ++ "@" ++ ver;
                       GetResult.prompt := out;
                       GetResult.description := description promptData;
                       GetResult.category := category promptData;
                       GetResult.tags := tags promptData;
                       GetResult.version := version promptData |})
              | unsub =>
                  Some (Throw (JsError "Error"
                          ("Missing variables: " ++ Str.join ", " unsub)))
              end
          end
      end
  end.

(** [get] on a registry, without the auto-sync path. *)
Definition get_local (reg : Registry) (id : string) (variables : Obj.t JsValue)
  : option (Completion GetResult.t) :=
  let '(baseId, requested) := split_id id in
  match Obj.get baseId reg with
  | None => Some (Throw (JsError "Error" ("Prompt " ++ dq ++ id ++ dq ++ " not found")))
  | Some base => get_found baseId requested base variables
  end.

Inductive GetOutcome : Type :=
| GetReturned (r : GetResult.t)
| GetThrown (e : Exn)
| GetPromised (settled : Completion GetResult.t).

(** [syncAndRetryGet] *)
Definition syncAndRetryGet (P : Platform) (config : Config.t) (id : string)
  (variables : Obj.t JsValue) (options : GetOptions.t) (w : World)
  : option (Completion GetResult.t) * World :=
  let syncOptions :=
    {| SyncOptions.url := GetOptions.syncUrl options;
       SyncOptions.force := false;
       SyncOptions.timeout :=
         Some (match GetOptions.timeout options with
               | Some t => if t =? 0 then 10000 else t
               | None => 10000
               end);
       SyncOptions.progressCallback := false;
       SyncOptions.errorPolicy := Some PolicyThrow;
       SyncOptions.mergeStrategy := None;
       SyncOptions.silent := true;
       SyncOptions.background := false |} in
  let not_found (e : Exn) :=
    Throw (JsError "Error"
             ("Prompt " ++ dq ++ id ++ dq ++ " not found locally and sync failed: "
              ++ message_of e)) in
  match sync P config syncOptions w with
  | (Throw e, w') => (Some (not_found e), w')
  | (Return _, w') =>
      match get_local (registry w') id variables with
      | None => (None, w')
      | Some (Throw e) => (Some (not_found e), w')
      | Some (Return r) => (Some (Return r), w')
      end
  end.

(** [get(id, variables, options)]. The outer [None] marks a call whose
    variable names leave the modelled patterns. *)
Definition get (P : Platform) (config : Config.t) (id : string)
  (variables : Obj.t JsValue) (options : GetOptions.t) (w : World)
  : option GetOutcome * World :=
  let '(baseId, requested) := split_id id in
  match Obj.get baseId (registry w) with
  | None =>
      if GetOptions.syncOnMissing options then
        match syncAndRetryGet P config id variables options w with
        | (Some c, w') => (Some (GetPromised c), w')
        | (None, w') => (None, w')
        end
      else (Some (GetThrown (JsError "Error" ("Prompt " ++ dq ++ id ++ dq ++ " not found"))), w)
  | Some base =>
      match get_found baseId requested base variables with
      | Some (Return r) => (Some (GetReturned r), w)
      | Some (Throw e) => (Some (GetThrown e), w)
      | None => (None, w)
      end
  end.

(* ================================================================== *)
(** ** search *)

Module SearchHit.
Record t : Type := {
  id : string;
  description : option string;
  category : option string;
  tags : option (list string);
  version : option string;
  registryFresh : bool;
  source : string;
  lastSync : option Z
}.
End SearchHit.

(** A filter object, also the type of the [options] argument; a field is
    [None] when the property is not there. *)
Module SearchOptions.
Record t : Type := {
  category : option string;
  tags : option (list string);
  id : option string;
  syncOnEmpty : option bool;
  syncUrl : option string;
  timeout : option Z
}.
Definition empty : t :=
  {| category := None; tags := None; id := None; syncOnEmpty := None;
     syncUrl := None; timeout := None |}.
Definition over {A} (a b : option A) : option A :=
  match b with Some _ => b | None => a end.
(** [{ ...a, ...b }] *)
Definition spread (a b : t) : t :=
  {| category := over (category a) (category b);
     tags := over (tags a) (tags b);
     id := over (id a) (id b);
     syncOnEmpty := over (syncOnEmpty a) (syncOnEmpty b);
     syncUrl := over (syncUrl a) (syncUrl b);
     timeout := over (timeout a) (timeout b) |}.
Definition wantsSync (o : t) : bool :=
  match syncOnEmpty o with Some true => true | _ => false end.
End SearchOptions.

Inductive Query : Type :=
| QueryString (s : string)
| QueryObject (filter : SearchOptions.t).

(** [isRegistryStale(maxAge)] *)
Definition isRegistryStale (P : Platform) (meta : RegistryMetadata) (maxAge : Z) : bool :=
  match lastSync meta with
  | None => true
  | Some t => now P - t >? maxAge
  end.

(** The [map] that builds [allPrompts]: reading a field of a latest version
    that does not exist throws. *)
Fixpoint all_prompts (P : Platform) (config : Config.t) (meta : RegistryMetadata)
  (entries : Registry) : Completion (list SearchHit.t) :=
  match entries with
  | [] => Return []
  | (baseId, base) :: rest =>
      match Obj.get (latest base) (versions base) with
      | None => Throw (undefined_read "description")
      | Some latestData =>
          match all_prompts P config meta rest with
          | Throw e => Throw e
          | Return hits =>
              Return
                ({| SearchHit.id := baseId;
                    SearchHit.description := description latestData;
                    SearchHit.category := category latestData;
                    SearchHit.tags := tags latestData;
                    SearchHit.version := version latestData;
                    SearchHit.registryFresh :=
                      negb (isRegistryStale P meta (Config.ttl (Config.cache config)));
                    SearchHit.source := "local";
                    SearchHit.lastSync := lastSync meta |} :: hits)
          end
      end
  end.

(** [Array.prototype.filter] with a callback that may throw. *)
Fixpoint filter_hits (f : SearchHit.t -> Completion bool) (l : list SearchHit.t)
  : Completion (list SearchHit.t) :=
  match l with
  | [] => Return []
  | p :: rest =>
      match f p with
      | Throw e => Throw e
      | Return keep =>
          match filter_hits f rest with
          | Throw e => Throw e
          | Return r => Return (if keep then p :: r else r)
          end
      end
  end.

(** The callback of the string query. *)
Definition matches_text (lowerQuery : string) (p : SearchHit.t) : Completion bool :=
  if Str.includes lowerQuery (Str.toLowerCase (SearchHit.id p)) then Return true
  else
    match SearchHit.description p with
    | None => Throw (undefined_read "toLowerCase")
    | Some d =>
        if Str.includes lowerQuery (Str.toLowerCase d) then Return true
        else
          match SearchHit.category p with
          | None => Throw (undefined_read "toLowerCase")
          | Some c =>
              if Str.includes lowerQuery (Str.toLowerCase c) then Return true
              else
                match SearchHit.tags p with
                | None => Throw (undefined_read "some")
                | Some ts =>
                    Return (existsb (fun tag => Str.includes lowerQuery (Str.toLowerCase tag)) ts)
                end
          end
    end.

Definition option_string_eqb (a : option string) (b : string) : bool :=
  match a with Some x => String.eqb x b | None => false end.

(** [query.category && p.category !== query.category] does not hold. *)
Definition category_matches (query : SearchOptions.t) (p : SearchHit.t) : bool :=
  match SearchOptions.category query with
  | Some c => negb (truthy_string c) || option_string_eqb (SearchHit.category p) c
  | None => true
  end.

(** The test on the tags, made when [query.tags] is a non-empty array. *)
Definition tags_match (query : SearchOptions.t) (p : SearchHit.t) : Completion bool :=
  match SearchOptions.tags query with
  | Some (t :: ts) =>
      match SearchHit.tags p with
      | None => Throw (undefined_read "includes")
      | Some ptags =>
          Return (forallb (fun tag => existsb (String.eqb tag) ptags) (t :: ts))
      end
  | _ => Return true
  end.

(** [query.id && p.id !== query.id] does not hold. *)
Definition id_matches (query : SearchOptions.t) (p : SearchHit.t) : bool :=
  match SearchOptions.id query with
  | Some i => negb (truthy_string i) || String.eqb (SearchHit.id p) i
  | None => true
  end.

(** The callback of the object query. *)
Definition matches_filter (query : SearchOptions.t) (p : SearchHit.t) : Completion bool :=
  if negb (category_matches query p) then Return false
  else
    match tags_match query p with
    | Throw e => Throw e
    | Return false => Return false
    | Return true => Return (id_matches query p)
    end.

(** [search] up to the auto-sync test: the array [filtered]. *)
Definition search_filtered (P : Platform) (config : Config.t) (query : Query)
  (options : SearchOptions.t) (w : World) : Completion (list SearchHit.t) :=
  match all_prompts P config (registryMetadata w) (registry w) with
  | Throw e => Throw e
  | Return allPrompts =>
      match query with
      | QueryString s => filter_hits (matches_text (Str.toLowerCase s)) allPrompts
      | QueryObject q =>
          if negb (SearchOptions.wantsSync options)
          then filter_hits (matches_filter q) allPrompts
          else Return allPrompts
      end
  end.

(** [searchOptions] *)
Definition search_options (query : Query) (options : SearchOptions.t) : SearchOptions.t :=
  match query with
  | QueryObject q => SearchOptions.spread q options
  | QueryString _ => options
  end.

Inductive SearchOutcome : Type :=
| SearchReturned (hits : list SearchHit.t)
| SearchThrown (e : Exn)
| SearchPromised (hits : list SearchHit.t).

Definition set_syncOnEmpty (b : bool) (o : SearchOptions.t) : SearchOptions.t :=
  {| SearchOptions.category := SearchOptions.category o;
     SearchOptions.tags := SearchOptions.tags o;
     SearchOptions.id := SearchOptions.id o;
     SearchOptions.syncOnEmpty := Some b;
     SearchOptions.syncUrl := SearchOptions.syncUrl o;
     SearchOptions.timeout := SearchOptions.timeout o |}.

(** [syncAndRetrySearch]: what its promise resolves to. The retry runs
    [search] with [syncOnEmpty: false], which cannot sync again. *)
Definition syncAndRetrySearch (P : Platform) (config : Config.t) (query : Query)
  (options : SearchOptions.t) (w : World) : list SearchHit.t * World :=
  let syncOptions :=
    {| SyncOptions.url := SearchOptions.syncUrl options;
       SyncOptions.force := false;
       SyncOptions.timeout :=
         Some (match SearchOptions.timeout options with
               | Some t => if t =? 0 then 10000 else t
               | None => 10000
               end);
       SyncOptions.progressCallback := false;
       SyncOptions.errorPolicy := Some PolicyThrow;
       SyncOptions.mergeStrategy := None;
       SyncOptions.silent := true;
       SyncOptions.background := false |} in
  let failed (e : Exn) (w' : World) :=
    ([], emit (ConsoleWarn ("Search sync failed: " ++ message_of e)) w') in
  match sync P config syncOptions w with
  | (Throw e, w') => failed e w'
  | (Return _, w') =>
      match search_filtered P config query (set_syncOnEmpty false options) w' with
      | Throw e => failed e w'
      | Return hits => (hits, w')
      end
  end.

(** [search(query, options)] *)
Definition search (P : Platform) (config : Config.t) (query : Query)
  (options : SearchOptions.t) (w : World) : SearchOutcome * World :=
  let searchOptions := search_options query options in
  match search_filtered P config query options w with
  | Throw e => (SearchThrown e, w)
  | Return filtered =>
      match filtered with
      | [] =>
          if SearchOptions.wantsSync searchOptions then
            let '(hits, w') := syncAndRetrySearch P config query searchOptions w in
            (SearchPromised hits, w')
          else (SearchReturned filtered, w)
      | _ => (SearchReturned filtered, w)
      end
  end.

(* ================================================================== *)
(** ** Views of the merge loop used to state its properties *)

(** The test [versionComparison < 0] of one iteration. *)
Definition remote_newer (localEntry remoteEntry : PromptEntry) : bool :=
  compareVersions (latest localEntry) (latest remoteEntry) <? 0.

(** The local entry one iteration leaves for a prompt, from what the
    registry held before ([None]: nothing) and the remote entry. *)
Definition merged_entry (strategy : MergeStrategy) (promptId : string)
  (before : option PromptEntry) (remoteEntry : PromptEntry) : PromptEntry :=
  match before with
  | None => remoteEntry
  | Some localEntry =>
      fst (merge_existing strategy promptId localEntry remoteEntry MergeResult.empty)
  end.

(** The remote versions that are absent locally and compare strictly
    greater than the local latest, in the order of the remote entry. *)
Definition newer_missing_versions (localEntry remoteEntry : PromptEntry) : list string :=
  filter
    (fun v =>
       negb (Obj.has v (versions localEntry))
       && (compareVersions v (latest localEntry) =? 1))
    (Obj.keys (versions remoteEntry)).

(** The warnings one remote entry gives rise to. *)
Definition entry_warnings (strategy : MergeStrategy) (reg : Registry)
  (kv : string * PromptEntry) : list string :=
  match Obj.get (fst kv) reg, strategy with
  | Some localEntry, (PreferLocal | Interactive) =>
      if remote_newer localEntry (snd kv)
      then map (fun v => newer_version_warning v (fst kv))
             (newer_missing_versions localEntry (snd kv))
      else []
  | _, _ => []
  end.

(** The remote entries that move the local latest pointer. *)
Definition is_update (strategy : MergeStrategy) (reg : Registry)
  (kv : string * PromptEntry) : bool :=
  match Obj.get (fst kv) reg, strategy with
  | Some localEntry, PreferRemote => remote_newer localEntry (snd kv)
  | _, _ => false
  end.

(** A remote document is a JavaScript object of JavaScript objects: no
    prompt id and no version occurs twice. *)
Definition remote_wfb (remote : RemoteRegistry) : bool :=
  Obj.wfb (prompts remote)
  && forallb (fun kv => Obj.wfb (versions (snd kv))) (prompts remote).

(** No prompt id and no version name of the document is the name of a
    member of [Object.prototype]: for such a document the reads and writes
    the merge makes on the registry are those of own properties. *)
Definition plain_document (remote : RemoteRegistry) : bool :=
  plain_names (prompts remote)
  && forallb (fun kv => plain_names (versions (snd kv))) (prompts remote).

(** The components of the state of the merge loop. *)
Definition reg_of (st : MergeState) : Registry := fst (fst st).
Definition meta_of (st : MergeState) : RegistryMetadata := snd (fst st).
Definition result_of (st : MergeState) : MergeResult.t := snd st.

(* ================================================================== *)
(** ** Dotted decimal versions, to state what compareVersions computes *)

(** The version string with the given components. *)
Definition dotted (components : list (list ascii)) : string :=
  Str.join "." (map string_of_list_ascii components).

(** A component made of decimal digits, at least one. *)
Definition decimal_component (l : list ascii) : bool :=
  match l with
  | [] => false
  | _ => forallb JsNumber.is_digit l
  end.

(** A component made of decimal digits whose value is below 2^53: the
    whole numbers that [Number] reads without rounding. *)
Definition safe_component (l : list ascii) : bool :=
  decimal_component l && (JsNumber.digits_value l <? 2 ^ 53).

(** The number [Number] reads from such digits, of value [z]. *)
Definition decimal_part (z : Z) : Num := Fin (inject_Z z).

(** The order of a list of numbers against a list of zeros. *)
Fixpoint against_zeros (l : list Z) : Z :=
  match l with
  | [] => 0
  | x :: r => if 0 <? x then 1 else if x <? 0 then -1 else against_zeros r
  end.

(** The order of two lists of numbers, component by component from the
    left, the shorter list filled up with zeros. *)
Fixpoint numeric_order (xs ys : list Z) : Z :=
  match xs, ys with
  | [], _ => - against_zeros ys
  | _, [] => against_zeros xs
  | x :: xs', y :: ys' =>
      if y <? x then 1 else if x <? y then -1 else numeric_order xs' ys'
  end.

(* ================================================================== *)
(** ** The invariant of the data model *)

(** The [latest] pointer of an entry names one of its versions. *)
Definition entry_okb (e : PromptEntry) : bool := Obj.has (latest e) (versions e).

(** Every entry of a document satisfies it. *)
Definition registry_okb (reg : Obj.t PromptEntry) : bool :=
  forallb (fun kv => entry_okb (snd kv)) reg.

(* ================================================================== *)
(** ** Views of the fetch loop used to state its properties *)

(** [registryMetadata] once [sync] has recorded the URL it works with. *)
Definition with_syncUrl (url : string) (m : RegistryMetadata) : RegistryMetadata :=
  {| localVersion := localVersion m; lastSync := lastSync m;
     lastModified := lastModified m; syncUrl := Some url;
     schemaVersion := schemaVersion m |}.

(** The events of [w'] that [w] did not have yet all satisfy [allowed]. *)
Definition adds_only (allowed : Event -> Prop) (w w' : World) : Prop :=
  forall ev, In ev (events w') -> In ev (events w) \/ allowed ev.

Definition is_progress (ev : Event) : Prop := exists stage percent, ev = Progress stage percent.

(** The fetch calls and the waits of a trace, in their order. *)
Definition network_trace (evs : list Event) : list Event :=
  filter (fun e => match e with HttpFetch _ _ | Sleep _ => true | _ => false end) evs.

(** The attempts [first], [first + 1], ... ([n] of them) on [url], each
    followed by the wait of its backoff delay. *)
Definition failed_attempts (url : string) (first n : nat) : list Event :=
  flat_map (fun j => [HttpFetch url j; Sleep (backoff_delay j)]) (seq first n).

(** The delays waited between attempts, as recorded in a trace. *)
Definition sleeps (evs : list Event) : list Z :=
  flat_map (fun e => match e with Sleep ms => [ms] | _ => [] end) evs.

(** Attempt [k] received a response with [ok] set, and what the code checks
    after that (content type, payload size) threw [SyncError code message]. *)
Definition rejected_after_response (P : Platform) (config : Config.t) (url : string)
  (k : nat) (code : SyncErrorCode) (message : string) : Prop :=
  exists response,
    fetch P url k = FetchResponse response
    /\ ok response = true
    /\ attempt_outcome P config url k = inr (SyncError code message).

(* ================================================================== *)
(** ** Views of search used to state its properties *)

(** The filter of an object query, as a proposition: exact category, every
    tag of the query among the tags of the prompt, exact id; a criterion
    that is missing or empty does not filter. *)
Definition passes_filter (q : SearchOptions.t) (p : SearchHit.t) : Prop :=
  (forall c, SearchOptions.category q = Some c -> c <> "" -> SearchHit.category p = Some c)
  /\ (forall ts t,
        SearchOptions.tags q = Some ts -> In t ts ->
        exists ptags, SearchHit.tags p = Some ptags /\ In t ptags)
  /\ (forall i, SearchOptions.id q = Some i -> i <> "" -> SearchHit.id p = i).

(* ================================================================== *)
(** ** Concrete platforms and documents for the examples *)

Module Sample.

Fixpoint until_slash (s : string) : string :=
  match s with
  | EmptyString => EmptyString
  | String c r => if Ascii.eqb c "/" then EmptyString else String c (until_slash r)
  end.

(** A URL parser for addresses of the form [scheme://host/path] with the
    scheme [https] or [http]; it rejects everything else. *)
Definition parse_url (s : string) : option Url :=
  if String.prefix "https://" s
  then Some {| protocol := "https:"; hostname := until_slash (Str.drop 8 s) |}
  else if String.prefix "http://" s
  then Some {| protocol := "http:"; hostname := until_slash (Str.drop 7 s) |}
  else None.

Definition platform (net : string -> nat -> FetchOutcome) (write : option string)
  : Platform :=
  {| URL := parse_url;
     production := false;
     fetch := net;
     loadFromCache := fun _ _ => None;
     writeRegistryFile := write;
     now := 1700000000000 |}.

Definition record (text cat : string) (alternatives : option (Obj.t string))
  : VersionRecord :=
  {| description := Some "A sample prompt";
     prompt := Some text;
     category := Some cat;
     tags := Some ["sample"];
     version := Some "1.0.0";
     variants := alternatives |}.

Definition entry (text cat : string) : PromptEntry :=
  {| latest := "1.0.0"; versions := [("1.0.0", record text cat None)] |}.

Definition metadata : RegistryMetadata :=
  {| localVersion := "1.0.0"; lastSync := None; lastModified := 0;
     syncUrl := None; schemaVersion := "1.0" |}.

Definition world (reg : Registry) : World :=
  {| registry := reg; registryMetadata := metadata; events := [] |}.

Definition remote_entry (text cat : string) : RemoteEntry :=
  EntryObject (Some "1.0.0") (Some [("1.0.0", record text cat None)]).

(** A document with a prompt of category "writing" and one of category
    "coding". *)
Definition two_prompts : RemoteData :=
  DataObject
    (Some [("essay", remote_entry "Write about {{topic}}" "writing");
           ("review", remote_entry "Review {{code}}" "coding")])
    None.

Definition json_response (data : RemoteData) : FetchOutcome :=
  FetchResponse
    {| ok := true; status := 200; statusText := "OK";
       contentType := Some "application/json; charset=utf-8";
       body := BodyJson data 512 |}.

Definition html_response : FetchOutcome :=
  FetchResponse
    {| ok := true; status := 200; statusText := "OK";
       contentType := Some "text/html";
       body := BodyInvalid "Unexpected token <" |}.

(** A server that answers the first request with an HTML page and every
    later one with the JSON document. *)
Definition html_then_json (data : RemoteData) (_ : string) (attempt : nat) : FetchOutcome :=
  match attempt with
  | 1%nat => html_response
  | _ => json_response data
  end.

Definition always_json (data : RemoteData) (_ : string) (_ : nat) : FetchOutcome :=
  json_response data.

Definition always_html (_ : string) (_ : nat) : FetchOutcome := html_response.

Definition registry_url : string :=
  "https://raw.githubusercontent.com/prompt-registry/core/develop/registry.json".

(** A local document whose prompt "p" is at version 1.0.0, and a remote
    document that has "p" at 2.0.0, with an older and an equal version
    besides, and a prompt "q" unknown locally. *)
Definition local_entry : PromptEntry :=
  {| latest := "1.0.0";
     versions := [("1.0.0", record "Hello {{name}}" "greeting" None)] |}.

Definition newer_entry : PromptEntry :=
  {| latest := "2.0.0";
     versions :=
       [("0.5.0", record "Hi {{name}}" "greeting" None);
        ("1.0.0", record "Hello there {{name}}" "greeting" None);
        ("2.0.0", record "Hello, {{name}}!" "greeting" None)] |}.

Definition local_doc : Registry := [("p", local_entry)].

Definition remote_doc : RemoteRegistry :=
  {| prompts := [("p", newer_entry); ("q", entry "Summarise {{text}}" "writing")];
     remoteSchemaVersion := Some "2.0" |}.

Definition remote_meta : RemoteMetadata := {| metaSchemaVersion := Some "2.0" |}.

(** The query [{ category: c }] and the options [{ syncOnEmpty: true }]. *)
Definition by_category (c : string) : SearchOptions.t :=
  {| SearchOptions.category := Some c; SearchOptions.tags := None;
     SearchOptions.id := None; SearchOptions.syncOnEmpty := None;
     SearchOptions.syncUrl := None; SearchOptions.timeout := None |}.

Definition sync_on_empty : SearchOptions.t :=
  {| SearchOptions.category := None; SearchOptions.tags := None;
     SearchOptions.id := None; SearchOptions.syncOnEmpty := Some true;
     SearchOptions.syncUrl := None; SearchOptions.timeout := None |}.

End Sample.

(* ================================================================== *)
(** * Properties *)

(* ------------------------------------------------------------------ *)
(** ** The order on version parts *)

Module NumOrder.
Import JsNumber.

Lemma or_zero_valid (v : option Num) : or_zero v <> NaN.
Proof.
  destruct v as [[| |q|]|]; simpl; try discriminate.
  destruct (Qeq_bool q 0); simpl; discriminate.
Qed.

Lemma lt_irrefl (x : Num) : lt x x = false.
Proof.
  destruct x as [| |q|]; simpl; try reflexivity.
  assert (H : (q ?= q)%Q = Eq) by (apply Qeq_alt; reflexivity).
  now rewrite H.
Qed.

Lemma lt_asym (x y : Num) : lt x y = true -> lt y x = false.
Proof.
  destruct x as [| |p|], y as [| |q|]; cbn [lt]; try congruence.
  rewrite <- (Qcompare_antisym p q).
  destruct (p ?= q)%Q; cbn [CompOpp]; congruence.
Qed.

Lemma lt_trans (x y z : Num) : lt x y = true -> lt y z = true -> lt x z = true.
Proof.
  destruct x as [| |p|], y as [| |q|], z as [| |r|]; cbn [lt]; try congruence.
  destruct (p ?= q)%Q eqn:E1; try discriminate.
  destruct (q ?= r)%Q eqn:E2; try discriminate.
  intros _ _.
  pose proof (proj2 (Qlt_alt p q) E1) as L1.
  pose proof (proj2 (Qlt_alt q r) E2) as L2.
  now rewrite (proj1 (Qlt_alt p r) (Qlt_trans _ _ _ L1 L2)).
Qed.

(** Two parts that compare neither way stand in the same place of the
    order. *)
Lemma lt_equiv_l (x y z : Num) :
  x <> NaN -> y <> NaN ->
  lt x y = false -> lt y x = false -> lt x z = lt y z.
Proof.
  destruct x as [| |p|], y as [| |q|], z as [| |r|]; cbn [lt]; try congruence.
  intros _ _.
  rewrite <- (Qcompare_antisym p q).
  destruct (p ?= q)%Q eqn:E; cbn [CompOpp]; try discriminate.
  intros _ _. pose proof (proj2 (Qeq_alt p q) E) as E'.
  now rewrite E'.
Qed.

Lemma lt_equiv_r (x y z : Num) :
  x <> NaN -> y <> NaN ->
  lt x y = false -> lt y x = false -> lt z x = lt z y.
Proof.
  destruct x as [| |p|], y as [| |q|], z as [| |r|]; cbn [lt]; try congruence.
  intros _ _.
  rewrite <- (Qcompare_antisym p q).
  destruct (p ?= q)%Q eqn:E; cbn [CompOpp]; try discriminate.
  intros _ _. pose proof (proj2 (Qeq_alt p q) E) as E'.
  now rewrite E'.
Qed.

End NumOrder.

(* ------------------------------------------------------------------ *)
(** ** compareVersions is a total preorder *)

Section CompareLoop.
Import JsNumber.

Local Abbreviation part l i := (or_zero (nth_error l i)).

Lemma compare_loop_range (A B : list Num) (f i : nat) :
  compare_loop A B i f = -1 \/ compare_loop A B i f = 0 \/ compare_loop A B i f = 1.
Proof.
  revert i; induction f as [|f IH]; intro i; cbn [compare_loop]; auto.
  destruct (gt (part A i) (part B i)); auto.
  destruct (lt (part A i) (part B i)); auto.
Qed.

Lemma compare_loop_refl (A : list Num) (f i : nat) : compare_loop A A i f = 0.
Proof.
  revert i; induction f as [|f IH]; intro i; cbn [compare_loop]; auto.
  unfold gt. now rewrite NumOrder.lt_irrefl.
Qed.

Lemma compare_loop_antisym (A B : list Num) (f i : nat) :
  compare_loop A B i f = - compare_loop B A i f.
Proof.
  revert i; induction f as [|f IH]; intro i; cbn [compare_loop]; auto.
  unfold gt.
  destruct (lt (part B i) (part A i)) eqn:E1.
  - now rewrite (NumOrder.lt_asym _ _ E1).
  - destruct (lt (part A i) (part B i)) eqn:E2; auto.
Qed.

(** Past the end of both arrays every part is the padding 0. *)
Lemma compare_loop_beyond (A B : list Num) (f i : nat) :
  (List.length A <= i)%nat -> (List.length B <= i)%nat -> compare_loop A B i f = 0.
Proof.
  revert i; induction f as [|f IH]; intros i HA HB; cbn [compare_loop]; auto.
  rewrite (proj2 (nth_error_None A i) HA), (proj2 (nth_error_None B i) HB).
  unfold gt. rewrite NumOrder.lt_irrefl. apply IH; lia.
Qed.

Lemma compare_loop_more_fuel (A B : list Num) (f extra i : nat) :
  (Nat.max (List.length A) (List.length B) <= i + f)%nat ->
  compare_loop A B i (f + extra) = compare_loop A B i f.
Proof.
  revert i; induction f as [|f IH]; intros i H.
  - cbn [compare_loop Nat.add]. apply compare_loop_beyond; lia.
  - cbn [compare_loop Nat.add].
    destruct (gt (part A i) (part B i)); auto.
    destruct (lt (part A i) (part B i)); auto.
    apply IH; lia.
Qed.

Lemma compare_loop_trans (A B C : list Num) (f i : nat) :
  compare_loop A B i f <= 0 -> compare_loop B C i f <= 0 -> compare_loop A C i f <= 0.
Proof.
  revert i; induction f as [|f IH]; intro i; cbn [compare_loop]; [lia|].
  unfold gt.
  pose proof (or_zero_valid_all := NumOrder.or_zero_valid).
  destruct (lt (part B i) (part A i)) eqn:Eba; [lia|].
  destruct (lt (part A i) (part B i)) eqn:Eab.
  - intros _.
    destruct (lt (part C i) (part B i)) eqn:Ecb; [lia|].
    destruct (lt (part B i) (part C i)) eqn:Ebc.
    + intros _.
      rewrite (NumOrder.lt_asym _ _ (NumOrder.lt_trans _ _ _ Eab Ebc)).
      rewrite (NumOrder.lt_trans _ _ _ Eab Ebc). lia.
    + intros _.
      assert (Hac : lt (part A i) (part C i) = true).
      { rewrite <- (NumOrder.lt_equiv_r (part B i) (part C i) (part A i)); auto. }
      rewrite (NumOrder.lt_asym _ _ Hac), Hac. lia.
  - intro HAB.
    rewrite (NumOrder.lt_equiv_r (part A i) (part B i) (part C i)) by auto.
    rewrite (NumOrder.lt_equiv_l (part A i) (part B i) (part C i)) by auto.
    destruct (lt (part C i) (part B i)); [lia|].
    destruct (lt (part B i) (part C i)); [lia|].
    now apply IH.
Qed.

(** Arrays whose parts agree place by place compare equal. *)
Lemma compare_loop_agree (A B : list Num) (f i : nat) :
  (forall j, lt (part A j) (part B j) = false /\ lt (part B j) (part A j) = false) ->
  compare_loop A B i f = 0.
Proof.
  intro H. revert i; induction f as [|f IH]; intro i; cbn [compare_loop]; auto.
  unfold gt. destruct (H i) as [H1 H2]. now rewrite H1, H2.
Qed.

End CompareLoop.

Lemma compareVersions_fuel (a b : string) (n : nat) :
  (Nat.max (List.length (version_parts a)) (List.length (version_parts b)) <= n)%nat ->
  compareVersions a b = compare_loop (version_parts a) (version_parts b) 0 n.
Proof.
  intro H. unfold compareVersions.
  replace n with
    (Nat.max (List.length (version_parts a)) (List.length (version_parts b))
     + (n - Nat.max (List.length (version_parts a)) (List.length (version_parts b))))%nat
    by lia.
  symmetry. apply compare_loop_more_fuel. lia.
Qed.

Lemma compareVersions_refl (a : string) : compareVersions a a = 0.
Proof. apply compare_loop_refl. Qed.

Lemma compareVersions_antisym (a b : string) :
  compareVersions a b = - compareVersions b a.
Proof.
  unfold compareVersions. rewrite (Nat.max_comm (List.length (version_parts b))).
  apply compare_loop_antisym.
Qed.

Lemma compareVersions_range (a b : string) :
  compareVersions a b = -1 \/ compareVersions a b = 0 \/ compareVersions a b = 1.
Proof. apply compare_loop_range. Qed.

Lemma compareVersions_trans (a b c : string) :
  compareVersions a b <= 0 -> compareVersions b c <= 0 -> compareVersions a c <= 0.
Proof.
  set (n := Nat.max (List.length (version_parts a))
              (Nat.max (List.length (version_parts b)) (List.length (version_parts c)))).
  rewrite (compareVersions_fuel a b n), (compareVersions_fuel b c n),
    (compareVersions_fuel a c n) by (subst n; lia).
  apply compare_loop_trans.
Qed.

(** [split] cuts at every separator. *)
Lemma split_app_sep (c : ascii) (a b : string) :
  Str.split c (a ++ String c b) = (Str.split c a ++ Str.split c b)%list.
Proof.
  induction a as [|x a IH]; cbn [Str.split String.append].
  - now rewrite Ascii.eqb_refl.
  - rewrite IH. destruct (Ascii.eqb x c); [reflexivity|].
    destruct (Str.split c a) as [|y r] eqn:E; [|reflexivity].
    destruct a; cbn in E; [discriminate|].
    destruct (Ascii.eqb a c); [discriminate|].
    destruct (Str.split c a0); discriminate.
Qed.

Lemma split_no_sep (c : ascii) (s : string) :
  Str.contains_char c s = false -> Str.split c s = [s].
Proof.
  unfold Str.contains_char.
  induction s as [|x s IH]; cbn [Str.split list_ascii_of_string existsb]; auto.
  intro H. apply orb_false_iff in H. destruct H as [H1 H2].
  rewrite Ascii.eqb_sym, H1. now rewrite (IH H2).
Qed.

Lemma version_parts_app (a b : string) :
  version_parts (a ++ "." ++ b) = (version_parts a ++ version_parts b)%list.
Proof.
  unfold version_parts. cbn [String.append].
  now rewrite split_app_sep, map_app.
Qed.

(** Two versions with a common prefix and one more component each, both
    worth 0, compare equal. *)
Lemma compare_zero_tails (A : list Num) (x y : option Num) (n : nat) :
  JsNumber.or_zero x = Fin 0 -> JsNumber.or_zero y = Fin 0 ->
  compare_loop (A ++ match x with Some v => [v] | None => [] end)
               (A ++ match y with Some v => [v] | None => [] end) 0 n = 0.
Proof.
  intros Hx Hy. apply compare_loop_agree. intro j.
  assert (E : forall (z : option Num), JsNumber.or_zero z = Fin 0 ->
            (j < List.length A)%nat \/
            JsNumber.or_zero
              (nth_error (A ++ match z with Some v => [v] | None => [] end) j) = Fin 0).
  { intros z Hz. destruct (Nat.lt_ge_cases j (List.length A)) as [L|G]; [now left|right].
    rewrite nth_error_app2 by exact G.
    destruct z as [v|].
    - destruct (j - List.length A)%nat as [|k]; cbn; [exact Hz|]. now destruct k.
    - now destruct (j - List.length A)%nat. }
  destruct (E x Hx) as [L|Ex].
  - rewrite !nth_error_app1 by exact L. now rewrite NumOrder.lt_irrefl.
  - destruct (E y Hy) as [L|Ey]; [rewrite !nth_error_app1 by exact L; now rewrite NumOrder.lt_irrefl|].
    rewrite Ex, Ey. now split.
Qed.

Lemma compareVersions_missing_component (a : string) :
  compareVersions a (a ++ ".0") = 0.
Proof.
  change (a ++ ".0") with (a ++ "." ++ "0").
  rewrite (compareVersions_fuel a (a ++ "." ++ "0")
             (Nat.max (List.length (version_parts a))
                      (List.length (version_parts (a ++ "." ++ "0"))))) by lia.
  rewrite (version_parts_app a "0").
  change (version_parts "0") with [JsNumber.Number "0"].
  match goal with
  | |- compare_loop _ _ 0 ?n = 0 =>
      pose proof (compare_zero_tails (version_parts a) None
                    (Some (JsNumber.Number "0")) n eq_refl eq_refl) as H
  end.
  now rewrite app_nil_r in H.
Qed.

Lemma compareVersions_non_numeric_component (a s : string) :
  JsNumber.Number s = NaN -> Str.contains_char "." s = false ->
  compareVersions (a ++ "." ++ s) (a ++ ".0") = 0.
Proof.
  intros HN Hs.
  change (a ++ ".0") with (a ++ "." ++ "0").
  rewrite (compareVersions_fuel (a ++ "." ++ s) (a ++ "." ++ "0")
             (Nat.max (List.length (version_parts (a ++ "." ++ s)))
                      (List.length (version_parts (a ++ "." ++ "0"))))) by lia.
  rewrite (version_parts_app a "0"), (version_parts_app a s).
  change (version_parts "0") with [JsNumber.Number "0"].
  replace (version_parts s) with [JsNumber.Number s]
    by (unfold version_parts; now rewrite (split_no_sep _ _ Hs)).
  apply (compare_zero_tails (version_parts a) (Some (JsNumber.Number s))
           (Some (JsNumber.Number "0"))).
  - now rewrite HN.
  - reflexivity.
Qed.

(** C3. [compareVersions] is a total preorder on version strings that
    respects equality of the numeric tuples: its value is always -1, 0 or 1
    (it is a total function, so it never raises), [compare(a,a)] is 0,
    [compare(a,b)] is [-compare(b,a)], it is transitive, a version and its
    zero-padded variant compare equal, a non-numeric component counts as 0,
    [compare("1.2","1.2.0")] is 0 and [compare("2.0.0","1.9.9")] is 1. *)
Theorem compareVersions_total_preorder :
  (forall a b, compareVersions a b = -1 \/ compareVersions a b = 0 \/ compareVersions a b = 1)
  /\ (forall a, compareVersions a a = 0)
  /\ (forall a b, compareVersions a b = - compareVersions b a)
  /\ (forall a b c,
        compareVersions a b <= 0 -> compareVersions b c <= 0 -> compareVersions a c <= 0)
  /\ (forall a b c,
        compareVersions a b = 0 -> compareVersions b c = 0 -> compareVersions a c = 0)
  /\ (forall a b c,
        compareVersions a b = 1 -> compareVersions b c = 1 -> compareVersions a c = 1)
  /\ (forall a, compareVersions a (a ++ ".0") = 0)
  /\ (forall a s,
        JsNumber.Number s = NaN -> Str.contains_char "." s = false ->
        compareVersions (a ++ "." ++ s) (a ++ ".0") = 0)
  /\ compareVersions "1.2" "1.2.0" = 0
  /\ compareVersions "2.0.0" "1.9.9" = 1
  /\ compareVersions "1.x" "1.0" = 0.
Proof.
  repeat split.
  - apply compareVersions_range.
  - apply compareVersions_refl.
  - apply compareVersions_antisym.
  - apply compareVersions_trans.
  - intros a b c Hab Hbc.
    pose proof (compareVersions_trans a b c) as T1.
    pose proof (compareVersions_trans c b a) as T2.
    rewrite (compareVersions_antisym c b), (compareVersions_antisym b a),
      (compareVersions_antisym c a) in T2.
    lia.
  - intros a b c Hab Hbc.
    pose proof (compareVersions_trans c b a) as T.
    rewrite (compareVersions_antisym c b), (compareVersions_antisym b a),
      (compareVersions_antisym c a) in T.
    pose proof (compareVersions_trans a c b) as T'.
    rewrite (compareVersions_antisym c b) in T'.
    destruct (compareVersions_range a c) as [H|[H|H]]; lia.
  - apply compareVersions_missing_component.
  - apply compareVersions_non_numeric_component.
Qed.

(* ------------------------------------------------------------------ *)
(** ** Objects *)

Module ObjFacts.
Import Obj.

Section WithValues.
Context {V : Type}.
Implicit Types (o : Obj.t V) (k : string) (v : V).

Lemma get_app k o1 o2 :
  get k (o1 ++ o2)%list = match get k o1 with Some v => Some v | None => get k o2 end.
Proof.
  induction o1 as [|[k' v'] r IH]; cbn [get app]; auto.
  destruct (String.eqb k k'); auto.
Qed.

Lemma get_replace k k' v o :
  has k o = true ->
  get k' (replace k v o) = if String.eqb k' k then Some v else get k' o.
Proof.
  unfold has. induction o as [|[k0 v0] r IH]; cbn [get replace]; [discriminate|].
  destruct (String.eqb k k0) eqn:E.
  - intros _. apply String.eqb_eq in E. subst k0. cbn [get].
    destruct (String.eqb k' k); reflexivity.
  - intro H. cbn [get]. rewrite (IH H).
    destruct (String.eqb k' k0) eqn:E0; [|reflexivity].
    apply String.eqb_eq in E0. subst k0.
    now rewrite String.eqb_sym, E.
Qed.

Lemma get_insert_index n k k' v o :
  get k o = None ->
  get k' (insert_index n k v o) = if String.eqb k' k then Some v else get k' o.
Proof.
  induction o as [|[k0 v0] r IH]; cbn [insert_index get]; [reflexivity|].
  destruct (String.eqb k k0) eqn:Ek; [discriminate|]. intro H.
  destruct (array_index k0) as [m|]; [destruct (n <? m)|]; cbn [get]; try reflexivity.
  rewrite (IH H).
  destruct (String.eqb k' k0) eqn:E0; [|reflexivity].
  destruct (String.eqb k' k) eqn:E; [|reflexivity].
  apply String.eqb_eq in E0, E. subst. now rewrite String.eqb_refl in Ek.
Qed.

Lemma get_set k k' v o :
  get k' (set k v o) = if String.eqb k' k then Some v else get k' o.
Proof.
  unfold set. destruct (has k o) eqn:H.
  - now apply get_replace.
  - assert (N : get k o = None) by (unfold has in H; destruct (get k o); [discriminate|reflexivity]).
    destruct (array_index k) as [n|].
    + now apply get_insert_index.
    + rewrite get_app. cbn [get].
      destruct (String.eqb k' k) eqn:E.
      * apply String.eqb_eq in E. subst k'. now rewrite N.
      * now destruct (get k' o).
Qed.

Lemma has_set k k' v o : has k' (set k v o) = String.eqb k' k || has k' o.
Proof. unfold has. rewrite get_set. now destruct (String.eqb k' k). Qed.

Lemma replace_same k v o : get k o = Some v -> replace k v o = o.
Proof.
  induction o as [|[k0 v0] r IH]; cbn [get replace]; [reflexivity|].
  destruct (String.eqb k k0); intro H.
  - now inversion H.
  - now rewrite (IH H).
Qed.

(** Writing back the value a property already has changes nothing. *)
Lemma set_same k v o : get k o = Some v -> set k v o = o.
Proof.
  intro H. unfold set, has. rewrite H. now apply replace_same.
Qed.

Lemma In_has k v o : In (k, v) o -> has k o = true.
Proof.
  unfold has. induction o as [|[k0 v0] r IH]; cbn [In get]; [tauto|].
  intros [E|H].
  - inversion E. now rewrite String.eqb_refl.
  - destruct (String.eqb k k0); [reflexivity|]. now apply IH.
Qed.

Lemma get_In k v o : get k o = Some v -> In (k, v) o.
Proof.
  induction o as [|[k0 v0] r IH]; cbn [In get]; [discriminate|].
  destruct (String.eqb k k0) eqn:E; intro H.
  - left. apply String.eqb_eq in E. inversion H. now subst.
  - right. now apply IH.
Qed.

Lemma has_keys k o : has k o = true <-> In k (keys o).
Proof.
  unfold has, keys. induction o as [|[k0 v0] r IH]; cbn [get map In fst].
  - split; [discriminate|tauto].
  - destruct (String.eqb k k0) eqn:E.
    + apply String.eqb_eq in E. subst. tauto.
    + apply String.eqb_neq in E. rewrite IH. split; [tauto|].
      intros [H|H]; [congruence|exact H].
Qed.

Lemma wfb_wf o : wfb o = true <-> wf o.
Proof.
  unfold wf. induction o as [|[k0 v0] r IH]; cbn [wfb keys map fst].
  - split; [constructor|reflexivity].
  - rewrite andb_true_iff, negb_true_iff, IH. split.
    + intros [H1 H2]. constructor; [|exact H2].
      intro HI. apply has_keys in HI. congruence.
    + intro H. inversion H as [|? ? N D]; subst. split; [|exact D].
      destruct (has k0 r) eqn:E; [|reflexivity].
      exfalso. apply N. now apply has_keys.
Qed.

Lemma wf_get_In k v o : wf o -> In (k, v) o -> get k o = Some v.
Proof.
  unfold wf. induction o as [|[k0 v0] r IH]; cbn [In get keys map fst]; [tauto|].
  intros D [E|H]; inversion D as [|? ? N D']; subst.
  - inversion E. now rewrite String.eqb_refl.
  - destruct (String.eqb k k0) eqn:E.
    + apply String.eqb_eq in E. subst. exfalso. apply N.
      apply has_keys. eapply In_has; eassumption.
    + now apply IH.
Qed.

End WithValues.
End ObjFacts.

(* ------------------------------------------------------------------ *)
(** ** The loops over the versions of one remote entry *)

Module VersionLoops.
Import Obj ObjFacts.

Implicit Types (rv lv : Obj.t VersionRecord) (k : string).

Lemma has_cons {V} k k0 (v0 : V) (r : Obj.t V) :
  has k ((k0, v0) :: r) = String.eqb k k0 || has k r.
Proof. unfold has. cbn [get]. now destruct (String.eqb k k0). Qed.

Lemma has_false_get {V} k (o : Obj.t V) : has k o = false -> get k o = None.
Proof. unfold has. now destruct (get k o). Qed.

Lemma add_missing_get rv : forall lv k,
  get k (add_missing_versions rv lv)
  = match get k lv with Some x => Some x | None => get k rv end.
Proof.
  unfold add_missing_versions.
  induction rv as [|[ver d] rv IH]; intros lv k; cbn [fold_left get].
  - now destruct (get k lv).
  - rewrite IH. destruct (has ver lv) eqn:H.
    + destruct (get k lv) eqn:G; [reflexivity|].
      destruct (String.eqb k ver) eqn:E; [|reflexivity].
      apply String.eqb_eq in E. subst. unfold has in H. now rewrite G in H.
    + rewrite get_set.
      destruct (String.eqb k ver) eqn:E.
      * apply String.eqb_eq in E. subst. now rewrite (has_false_get _ _ H).
      * reflexivity.
Qed.

Lemma add_missing_id rv : forall lv,
  (forall k, has k rv = true -> has k lv = true) -> add_missing_versions rv lv = lv.
Proof.
  unfold add_missing_versions.
  induction rv as [|[ver d] rv IH]; intros lv H; cbn [fold_left]; [reflexivity|].
  rewrite (H ver) by (rewrite has_cons, String.eqb_refl; reflexivity).
  apply IH. intros k Hk. apply H. rewrite has_cons, Hk. apply orb_true_r.
Qed.

Lemma add_missing_has rv lv k :
  has k (add_missing_versions rv lv) = has k lv || has k rv.
Proof.
  unfold has. rewrite add_missing_get. now destruct (get k lv), (get k rv).
Qed.

Lemma add_all_has rv : forall lv k,
  has k (add_all_versions rv lv) = has k rv || has k lv.
Proof.
  unfold add_all_versions.
  induction rv as [|[ver d] rv IH]; intros lv k; cbn [fold_left]; [reflexivity|].
  rewrite IH, has_set, has_cons.
  now destruct (String.eqb k ver), (has k rv).
Qed.


Lemma add_newer_get promptId localLatest rv : forall lv ws k,
  get k (fst (add_newer_versions promptId localLatest rv (lv, ws)))
  = match get k lv with
    | Some x => Some x
    | None => if compareVersions k localLatest =? 1 then get k rv else None
    end.
Proof.
  unfold add_newer_versions.
  induction rv as [|[ver d] rv IH]; intros lv ws k; cbn [fold_left get].
  - cbn [fst]. destruct (get k lv); [reflexivity|].
    now destruct (compareVersions k localLatest =? 1).
  - destruct (negb (has ver lv) && (compareVersions ver localLatest =? 1)) eqn:C.
    + rewrite IH, get_set.
      apply andb_true_iff in C. destruct C as [C1 C2].
      apply negb_true_iff in C1.
      destruct (String.eqb k ver) eqn:E; [|reflexivity].
      apply String.eqb_eq in E. subst.
      now rewrite (has_false_get _ _ C1), C2.
    + rewrite IH. destruct (get k lv) eqn:G; [reflexivity|].
      destruct (String.eqb k ver) eqn:E; [|reflexivity].
      apply String.eqb_eq in E. subst.
      destruct (compareVersions ver localLatest =? 1); [|reflexivity].
      unfold has in C. rewrite G in C. discriminate.
Qed.

Lemma add_newer_id promptId localLatest rv : forall lv ws,
  (forall k, has k rv = true -> compareVersions k localLatest = 1 -> has k lv = true) ->
  add_newer_versions promptId localLatest rv (lv, ws) = (lv, ws).
Proof.
  unfold add_newer_versions.
  induction rv as [|[ver d] rv IH]; intros lv ws H; cbn [fold_left]; [reflexivity|].
  destruct (negb (has ver lv) && (compareVersions ver localLatest =? 1)) eqn:C.
  - apply andb_true_iff in C. destruct C as [C1 C2].
    apply negb_true_iff in C1. apply Z.eqb_eq in C2.
    rewrite (H ver) in C1; [discriminate| |exact C2].
    rewrite has_cons, String.eqb_refl. reflexivity.
  - apply IH. intros k Hk. apply H. rewrite has_cons, Hk. apply orb_true_r.
Qed.

Lemma add_newer_warnings promptId localLatest rv : forall lv ws,
  wf rv ->
  snd (add_newer_versions promptId localLatest rv (lv, ws))
  = (ws ++ map (fun v => newer_version_warning v promptId)
             (filter (fun v => negb (has v lv) && (compareVersions v localLatest =? 1))
                (keys rv)))%list.
Proof.
  unfold add_newer_versions, wf.
  induction rv as [|[ver d] rv IH]; intros lv ws D; cbn [fold_left keys map fst filter].
  - cbn. now rewrite app_nil_r.
  - inversion D as [|? ? N D']; subst.
    fold (keys rv) in *.
    destruct (negb (has ver lv) && (compareVersions ver localLatest =? 1)) eqn:C.
    + rewrite (IH _ _ D'). cbn [map]. rewrite <- app_assoc. cbn [app].
      do 3 f_equal. apply filter_ext_in. intros v Hv.
      rewrite has_set.
      destruct (String.eqb v ver) eqn:E; [|reflexivity].
      apply String.eqb_eq in E. subst. contradiction.
    + now rewrite (IH _ _ D').
Qed.

End VersionLoops.

(* ------------------------------------------------------------------ *)
(** ** One iteration and the whole loop of mergeRegistries *)

Module MergeFacts.
Import Obj ObjFacts VersionLoops.

Lemma add_newer_split promptId localLatest rv : forall lv ws,
  add_newer_versions promptId localLatest rv (lv, ws)
  = (fst (add_newer_versions promptId localLatest rv (lv, [])),
     (ws ++ snd (add_newer_versions promptId localLatest rv (lv, [])))%list).
Proof.
  unfold add_newer_versions.
  induction rv as [|[ver d] rv IH]; intros lv ws; cbn [fold_left].
  - cbn. now rewrite app_nil_r.
  - destruct (negb (has ver lv) && (compareVersions ver localLatest =? 1)).
    + rewrite (IH _ (ws ++ _)%list), (IH _ ([] ++ _)%list). cbn [fst snd app].
      now rewrite <- app_assoc.
    + apply IH.
Qed.

Section Loop.
Variable remoteMetadata : RemoteMetadata.
Variable strategy : MergeStrategy.

Lemma merge_existing_entry promptId localEntry remoteEntry result :
  fst (merge_existing strategy promptId localEntry remoteEntry result)
  = merged_entry strategy promptId (Some localEntry) remoteEntry.
Proof.
  unfold merged_entry, merge_existing.
  destruct (compareVersions (latest localEntry) (latest remoteEntry) >? 0); [reflexivity|].
  destruct (compareVersions (latest localEntry) (latest remoteEntry) <? 0); [|reflexivity].
  destruct strategy; try reflexivity;
    rewrite (add_newer_split _ _ _ _ (MergeResult.warnings result));
    change (MergeResult.warnings MergeResult.empty) with (@nil string);
    destruct (add_newer_versions promptId (latest localEntry) (versions remoteEntry)
                (versions localEntry, [])); reflexivity.
Qed.

Lemma remote_newer_not_local localEntry remoteEntry :
  remote_newer localEntry remoteEntry = true ->
  (compareVersions (latest localEntry) (latest remoteEntry) >? 0) = false.
Proof. unfold remote_newer. lia. Qed.

Lemma merge_existing_counts promptId localEntry remoteEntry result :
  let result' := snd (merge_existing strategy promptId localEntry remoteEntry result) in
  MergeResult.newPrompts result' = MergeResult.newPrompts result
  /\ MergeResult.updatedPrompts result'
     = (MergeResult.updatedPrompts result
        + match strategy with
          | PreferRemote => if remote_newer localEntry remoteEntry then 1 else 0
          | _ => 0
          end)%nat.
Proof.
  unfold merge_existing, remote_newer.
  destruct (compareVersions (latest localEntry) (latest remoteEntry) >? 0) eqn:G.
  - assert (L : (compareVersions (latest localEntry) (latest remoteEntry) <? 0) = false) by lia.
    rewrite L. cbn. destruct strategy; split; lia.
  - destruct (compareVersions (latest localEntry) (latest remoteEntry) <? 0).
    + destruct strategy; cbn [snd]; try (split; cbn; lia);
        rewrite add_newer_split; cbn; split; lia.
    + cbn. destruct strategy; split; lia.
Qed.

Lemma merge_existing_warnings promptId localEntry remoteEntry result reg :
  get promptId reg = Some localEntry ->
  wf (versions remoteEntry) ->
  MergeResult.warnings (snd (merge_existing strategy promptId localEntry remoteEntry result))
  = (MergeResult.warnings result
     ++ entry_warnings strategy reg (promptId, remoteEntry))%list.
Proof.
  intros G W. unfold merge_existing, entry_warnings, remote_newer. cbn [fst snd]. rewrite G.
  destruct (compareVersions (latest localEntry) (latest remoteEntry) >? 0) eqn:Gt.
  - assert (L : (compareVersions (latest localEntry) (latest remoteEntry) <? 0) = false) by lia.
    rewrite L. cbn [snd]. destruct strategy; now rewrite app_nil_r.
  - destruct (compareVersions (latest localEntry) (latest remoteEntry) <? 0).
    + destruct strategy; cbn [snd]; try (now rewrite app_nil_r);
        match goal with
        | |- context [add_newer_versions ?p ?l ?rv (?lv, ?ws)] =>
            pose proof (add_newer_warnings p l rv lv ws W) as E;
            destruct (add_newer_versions p l rv (lv, ws)) as [lv' ws']
        end; cbn [snd] in *; exact E.
    + cbn [snd]. destruct strategy; now rewrite app_nil_r.
Qed.

(** What one iteration does. *)
Lemma merge_step_spec reg meta result promptId remoteEntry :
  let st := merge_step remoteMetadata strategy (reg, meta, result) (promptId, remoteEntry) in
  reg_of st = set promptId (merged_entry strategy promptId (get promptId reg) remoteEntry) reg
  /\ MergeResult.newPrompts (result_of st)
     = (MergeResult.newPrompts result + if has promptId reg then 0 else 1)%nat
  /\ MergeResult.updatedPrompts (result_of st)
     = (MergeResult.updatedPrompts result
        + if is_update strategy reg (promptId, remoteEntry) then 1 else 0)%nat
  /\ (wf (versions remoteEntry) ->
      MergeResult.warnings (result_of st)
      = (MergeResult.warnings result
         ++ entry_warnings strategy reg (promptId, remoteEntry))%list).
Proof.
  unfold merge_step, is_update, has, reg_of, result_of. cbn [fst snd].
  destruct (get promptId reg) as [localEntry|] eqn:G.
  - pose proof (merge_existing_entry promptId localEntry remoteEntry result) as E.
    pose proof (merge_existing_counts promptId localEntry remoteEntry result) as C.
    pose proof (merge_existing_warnings promptId localEntry remoteEntry result reg G) as Wn.
    destruct (merge_existing strategy promptId localEntry remoteEntry result) as [e r].
    cbn [fst snd] in *. subst e. destruct C as [C1 C2].
    repeat split; try lia.
    + rewrite C2. destruct strategy; try lia.
    + exact Wn.
  - cbn [fst snd MergeResult.newPrompts MergeResult.updatedPrompts MergeResult.warnings].
    unfold entry_warnings. cbn [fst snd]. rewrite G.
    repeat split; try lia.
    intros _. now rewrite app_nil_r.
Qed.

Lemma fold_merge_step_spec (l : Obj.t PromptEntry) : forall reg meta result,
  wf l ->
  let st := fold_left (merge_step remoteMetadata strategy) l (reg, meta, result) in
  (forall id,
     get id (reg_of st)
     = match get id l with
       | Some remoteEntry => Some (merged_entry strategy id (get id reg) remoteEntry)
       | None => get id reg
       end)
  /\ MergeResult.newPrompts (result_of st)
     = (MergeResult.newPrompts result
        + List.length (filter (fun kv => negb (has (fst kv) reg)) l))%nat
  /\ MergeResult.updatedPrompts (result_of st)
     = (MergeResult.updatedPrompts result
        + List.length (filter (is_update strategy reg) l))%nat
  /\ (Forall (fun kv => wf (versions (snd kv))) l ->
      MergeResult.warnings (result_of st)
      = (MergeResult.warnings result ++ flat_map (entry_warnings strategy reg) l)%list).
Proof.
  induction l as [|[id0 re0] l IH]; intros reg meta result D.
  - cbn. repeat split; try lia. intros _. now rewrite app_nil_r.
  - unfold wf in D. cbn [keys map fst] in D. inversion D as [|? ? N D']; subst.
    cbn [fold_left].
    pose proof (merge_step_spec reg meta result id0 re0) as S.
    destruct (merge_step remoteMetadata strategy (reg, meta, result) (id0, re0))
      as [[reg1 meta1] result1].
    unfold reg_of, result_of in S. cbn [fst snd] in S.
    destruct S as (S1 & S2 & S3 & S4).
    specialize (IH reg1 meta1 result1 D').
    cbn zeta in IH. destruct IH as (I1 & I2 & I3 & I4).
    assert (Other : forall kv, In kv l -> get (fst kv) reg1 = get (fst kv) reg).
    { intros [k v] Hk. cbn [fst]. rewrite S1, get_set.
      destruct (String.eqb k id0) eqn:E; [|reflexivity].
      apply String.eqb_eq in E. subst. exfalso. apply N.
      apply has_keys. eapply In_has; eassumption. }
    cbn zeta. repeat split.
    + intro id. rewrite I1. cbn [get].
      destruct (String.eqb id id0) eqn:E.
      * apply String.eqb_eq in E. subst id.
        assert (G : get id0 l = None).
        { destruct (get id0 l) eqn:G; [|reflexivity]. exfalso. apply N.
          apply has_keys. unfold has. now rewrite G. }
        rewrite G, S1, get_set, String.eqb_refl. reflexivity.
      * rewrite S1, get_set, E. reflexivity.
    + rewrite I2, S2. cbn [filter fst].
      rewrite (filter_ext_in (fun kv => negb (has (fst kv) reg1))
                 (fun kv => negb (has (fst kv) reg)) l)
        by (intros kv Hk; unfold has; now rewrite (Other kv Hk)).
      destruct (has id0 reg); cbn [negb List.length]; lia.
    + rewrite I3, S3. cbn [filter].
      rewrite (filter_ext_in (is_update strategy reg1) (is_update strategy reg) l)
        by (intros kv Hk; unfold is_update; now rewrite (Other kv Hk)).
      destruct (is_update strategy reg (id0, re0)); cbn [List.length]; lia.
    + intro F. inversion F as [|? ? F0 F']; subst. cbn [snd] in F0.
      rewrite (I4 F'), (S4 F0). cbn [flat_map]. rewrite <- app_assoc. do 2 f_equal.
      clear - Other. induction l as [|kv l IHl]; [reflexivity|].
      cbn [flat_map]. rewrite IHl by (intros; apply Other; now right).
      f_equal. unfold entry_warnings. now rewrite (Other kv (or_introl eq_refl)).
Qed.

End Loop.
End MergeFacts.

(* ------------------------------------------------------------------ *)
(** ** Merge precedence when the remote latest is newer *)

Lemma remote_wfb_spec (remote : RemoteRegistry) :
  remote_wfb remote = true ->
  Obj.wf (prompts remote)
  /\ Forall (fun kv => Obj.wf (versions (snd kv))) (prompts remote).
Proof.
  unfold remote_wfb. intro H. apply andb_true_iff in H. destruct H as [H1 H2].
  split; [now apply ObjFacts.wfb_wf|].
  apply Forall_forall. intros kv Hk. apply ObjFacts.wfb_wf.
  exact (proj1 (forallb_forall _ _) H2 kv Hk).
Qed.


(* ------------------------------------------------------------------ *)
(** ** Merging the same document twice *)

Lemma entry_eta (e : PromptEntry) : {| latest := latest e; versions := versions e |} = e.
Proof. now destruct e. Qed.

Lemma merged_entry_cases (strategy : MergeStrategy) (promptId : string)
  (localEntry remoteEntry : PromptEntry) :
  merged_entry strategy promptId (Some localEntry) remoteEntry
  = if compareVersions (latest localEntry) (latest remoteEntry) >? 0 then
      {| latest := latest localEntry;
         versions := add_missing_versions (versions remoteEntry) (versions localEntry) |}
    else if compareVersions (latest localEntry) (latest remoteEntry) <? 0 then
      match strategy with
      | PreferRemote =>
          {| latest := latest remoteEntry;
             versions := add_all_versions (versions remoteEntry) (versions localEntry) |}
      | _ =>
          {| latest := latest localEntry;
             versions :=
               fst (add_newer_versions promptId (latest localEntry)
                      (versions remoteEntry) (versions localEntry, [])) |}
      end
    else
      {| latest := latest localEntry;
         versions := add_missing_versions (versions remoteEntry) (versions localEntry) |}.
Proof.
  unfold merged_entry, merge_existing.
  destruct (compareVersions (latest localEntry) (latest remoteEntry) >? 0); [reflexivity|].
  destruct (compareVersions (latest localEntry) (latest remoteEntry) <? 0); [|reflexivity].
  change (MergeResult.warnings MergeResult.empty) with (@nil string).
  destruct strategy; try reflexivity;
    destruct (add_newer_versions promptId (latest localEntry) (versions remoteEntry)
                (versions localEntry, [])); reflexivity.
Qed.

(** The entry an iteration leaves is a fixed point of that iteration. *)
Lemma merged_entry_stable (strategy : MergeStrategy) (promptId : string)
  (before : option PromptEntry) (remoteEntry : PromptEntry) :
  merged_entry strategy promptId
    (Some (merged_entry strategy promptId before remoteEntry)) remoteEntry
  = merged_entry strategy promptId before remoteEntry.
Proof.
  assert (Fill : forall l lv,
            (forall k, Obj.has k (versions remoteEntry) = true -> Obj.has k lv = true) ->
            (compareVersions l (latest remoteEntry) <? 0) = false ->
            merged_entry strategy promptId (Some {| latest := l; versions := lv |}) remoteEntry
            = {| latest := l; versions := lv |}).
  { intros l lv H L. rewrite merged_entry_cases. cbn [latest versions]. rewrite L.
    rewrite (VersionLoops.add_missing_id _ _ H).
    now destruct (compareVersions l (latest remoteEntry) >? 0). }
  destruct before as [localEntry|].
  - rewrite (merged_entry_cases strategy promptId localEntry remoteEntry).
    destruct (compareVersions (latest localEntry) (latest remoteEntry) >? 0) eqn:G.
    + apply Fill; [|lia]. intros k Hk.
      rewrite VersionLoops.add_missing_has, Hk. apply orb_true_r.
    + destruct (compareVersions (latest localEntry) (latest remoteEntry) <? 0) eqn:L.
      * set (lv1 := fst (add_newer_versions promptId (latest localEntry)
                           (versions remoteEntry) (versions localEntry, []))).
        assert (Id : add_newer_versions promptId (latest localEntry)
                       (versions remoteEntry) (lv1, []) = (lv1, [])).
        { apply VersionLoops.add_newer_id. intros k Hk Ck.
          unfold Obj.has in *. subst lv1.
          rewrite VersionLoops.add_newer_get, Ck. cbn [Z.eqb].
          destruct (Obj.get k (versions localEntry)); [reflexivity|].
          destruct (Obj.get k (versions remoteEntry)); [reflexivity|discriminate]. }
        assert (Remote :
          merged_entry PreferRemote promptId
            (Some {| latest := latest remoteEntry;
                     versions := add_all_versions (versions remoteEntry)
                                   (versions localEntry) |}) remoteEntry
          = {| latest := latest remoteEntry;
               versions := add_all_versions (versions remoteEntry) (versions localEntry) |}).
        { rewrite merged_entry_cases. cbn [latest versions].
          rewrite compareVersions_refl. cbn [Z.gtb Z.ltb Z.compare].
          f_equal. apply VersionLoops.add_missing_id. intros k Hk.
          rewrite VersionLoops.add_all_has, Hk. reflexivity. }
        destruct strategy.
        -- rewrite merged_entry_cases. cbn [latest versions]. rewrite G, L.
           fold lv1. now rewrite Id.
        -- exact Remote.
        -- rewrite merged_entry_cases. cbn [latest versions]. rewrite G, L.
           fold lv1. now rewrite Id.
      * apply Fill; [|exact L]. intros k Hk.
        rewrite VersionLoops.add_missing_has, Hk. apply orb_true_r.
  - cbn [merged_entry]. rewrite <- (entry_eta remoteEntry) at 1 3.
    apply Fill; [auto|]. rewrite compareVersions_refl. reflexivity.
Qed.

Lemma merge_again (remoteMetadata : RemoteMetadata) (strategy : MergeStrategy)
  (reg1 : Registry) (l : Obj.t PromptEntry) : forall meta result,
  (forall id remoteEntry,
     In (id, remoteEntry) l ->
     exists localEntry,
       Obj.get id reg1 = Some localEntry
       /\ merged_entry strategy id (Some localEntry) remoteEntry = localEntry) ->
  let st := fold_left (merge_step remoteMetadata strategy) l (reg1, meta, result) in
  reg_of st = reg1
  /\ MergeResult.newPrompts (result_of st) = MergeResult.newPrompts result.
Proof.
  induction l as [|[id0 re0] l IH]; intros meta result H; [now split|].
  cbn [fold_left].
  destruct (H id0 re0 (or_introl eq_refl)) as (le & G & Fix).
  pose proof (MergeFacts.merge_step_spec remoteMetadata strategy reg1 meta result id0 re0) as S.
  destruct (merge_step remoteMetadata strategy (reg1, meta, result) (id0, re0))
    as [[reg' meta'] result'].
  unfold reg_of, result_of in S. cbn [fst snd] in S. destruct S as (S1 & S2 & _).
  rewrite G, Fix in S1. rewrite (ObjFacts.set_same _ _ _ G) in S1. subst reg'.
  unfold Obj.has in S2. rewrite G in S2.
  specialize (IH meta' result' (fun id re Hin => H id re (or_intror Hin))).
  cbn zeta in IH. destruct IH as [I1 I2]. split; [exact I1|lia].
Qed.

(** C2. Merging the same remote document a second time, with the same
    strategy, adds no new prompt and leaves the local document exactly as
    the first merge left it. *)
Theorem merge_idempotent
  (remote : RemoteRegistry) (remoteMetadata : RemoteMetadata) (strategy : MergeStrategy)
  (reg : Registry) (meta : RegistryMetadata) :
  Obj.wfb (prompts remote) = true ->
  let first := mergeRegistries remote remoteMetadata strategy reg meta in
  let second :=
    mergeRegistries remote remoteMetadata strategy (reg_of first) (meta_of first) in
  MergeResult.newPrompts (result_of second) = 0%nat
  /\ reg_of second = reg_of first.
Proof.
  intros W first second. apply ObjFacts.wfb_wf in W.
  pose proof (MergeFacts.fold_merge_step_spec remoteMetadata strategy (prompts remote)
                reg meta MergeResult.empty W) as S.
  cbn zeta in S. fold (mergeRegistries remote remoteMetadata strategy reg meta) in S.
  fold first in S. destruct S as (S1 & _).
  pose proof (merge_again remoteMetadata strategy (reg_of first) (prompts remote)
                (meta_of first) MergeResult.empty) as A.
  cbn zeta in A.
  fold (mergeRegistries remote remoteMetadata strategy (reg_of first) (meta_of first)) in A.
  fold second in A.
  destruct A as [A1 A2].
  - intros id re Hin.
    exists (merged_entry strategy id (Obj.get id reg) re). split.
    + rewrite S1, (ObjFacts.wf_get_In _ _ _ W Hin). reflexivity.
    + apply merged_entry_stable.
  - split; [exact A2|exact A1].
Qed.

(* ------------------------------------------------------------------ *)
(** ** The schema version *)

(** C4. The schema-version update sits in the loop body after the
    [continue] of a new prompt, so it is skipped when the remote document
    has no prompt entry and when all its entries are new: here the remote
    schema version "2.0" is strictly newer than the local "1.0" and the
    local bookkeeping stays at "1.0". *)
Theorem schema_version_not_advanced_without_existing_prompt :
  let meta :=
    {| localVersion := "1.0.0"; lastSync := None; lastModified := 0;
       syncUrl := None; schemaVersion := "1.0" |} in
  let record :=
    {| description := Some "d"; prompt := Some "p"; category := Some "c";
       tags := Some []; version := Some "1.0.0"; variants := None |} in
  let entry := {| latest := "1.0.0"; versions := [("1.0.0", record)] |} in
  compareVersions "2.0" (schemaVersion meta) = 1
  /\ (forall strategy reg,
        schemaVersion
          (meta_of (mergeRegistries {| prompts := []; remoteSchemaVersion := Some "2.0" |}
                      {| metaSchemaVersion := Some "2.0" |} strategy reg meta))
        = "1.0")
  /\ (forall strategy,
        schemaVersion
          (meta_of (mergeRegistries
                      {| prompts := [("fresh", entry)]; remoteSchemaVersion := Some "2.0" |}
                      {| metaSchemaVersion := Some "2.0" |} strategy [] meta))
        = "1.0")
  /\ (forall strategy,
        schemaVersion
          (meta_of (mergeRegistries
                      {| prompts := [("known", entry)]; remoteSchemaVersion := Some "2.0" |}
                      {| metaSchemaVersion := Some "2.0" |} strategy [("known", entry)] meta))
        = "2.0").
Proof.
  cbn zeta. repeat split; intros; reflexivity.
Qed.

(* ------------------------------------------------------------------ *)
(** ** The trust gate of fetchRemoteRegistry *)

Lemma fetch_calls_emit (e : Event) (w : World) :
  fetch_calls (events (emit e w))
  = (fetch_calls (events w) ++ match e with HttpFetch _ n => [n] | _ => [] end)%list.
Proof.
  unfold fetch_calls, emit. cbn [events]. rewrite flat_map_app. cbn [flat_map].
  now rewrite app_nil_r.
Qed.

Lemma fetch_calls_reportProgress options stage percent w :
  fetch_calls (events (reportProgress options stage percent w)) = fetch_calls (events w).
Proof.
  unfold reportProgress. destruct (SyncOptions.progressCallback options); [|reflexivity].
  rewrite fetch_calls_emit. apply app_nil_r.
Qed.

(** An untrusted URL never reaches the network: the world is left as it
    was. When the URL parses the error is the [CERTIFICATE_ERROR]; when it
    does not, building the message throws first. *)
Lemma untrusted_url_rejected (P : Platform) (config : Config.t) (url : string)
  (options : SyncOptions.t) (w : World) :
  isTrustedDomain P config url = false ->
  snd (fetchRemoteRegistry P config url options w) = w
  /\ (forall u, URL P url = Some u ->
        fst (fetchRemoteRegistry P config url options w)
        = Throw (SyncError CERTIFICATE_ERROR ("Untrusted domain: " ++ hostname u)))
  /\ (URL P url = None ->
        fst (fetchRemoteRegistry P config url options w)
        = Throw (JsError "TypeError" "Invalid URL")).
Proof.
  intro H. unfold fetchRemoteRegistry. rewrite H. cbn [negb].
  destruct (URL P url) as [u|]; cbn [fst snd]; repeat split; try discriminate.
  intros u' E. now inversion E.
Qed.

(** C5. A URL that fails to parse is untrusted, and no network attempt is
    made, but what [fetchRemoteRegistry] throws is the [TypeError] of
    [new URL(url)] in the message of the intended error; [sync] reports it
    with the code [UNKNOWN]. A URL that parses and is untrusted (plain HTTP,
    or a host outside the list) gets the [CERTIFICATE_ERROR]. *)
Theorem unparsable_url_throws_type_error :
  forall net write options w,
    let P := Sample.platform net write in
    isTrustedDomain P DEFAULT_CONFIG "not a url" = false
    /\ fetchRemoteRegistry P DEFAULT_CONFIG "not a url" options w
       = (Throw (JsError "TypeError" "Invalid URL"), w)
    /\ fst (sync P DEFAULT_CONFIG
              {| SyncOptions.url := Some "not a url"; SyncOptions.force := true;
                 SyncOptions.timeout := None; SyncOptions.progressCallback := false;
                 SyncOptions.errorPolicy := None; SyncOptions.mergeStrategy := None;
                 SyncOptions.silent := false; SyncOptions.background := false |} w)
       = Throw (SyncError UNKNOWN "Invalid URL")
    /\ fetchRemoteRegistry P DEFAULT_CONFIG "http://github.com/registry.json" options w
       = (Throw (SyncError CERTIFICATE_ERROR "Untrusted domain: github.com"), w)
    /\ fetchRemoteRegistry P DEFAULT_CONFIG "https://example.org/registry.json" options w
       = (Throw (SyncError CERTIFICATE_ERROR "Untrusted domain: example.org"), w).
Proof.
  intros net write options w P. repeat split.
Qed.

(* ------------------------------------------------------------------ *)
(** ** The retry loop of fetchRemoteRegistry *)

Section RetryLoop.
Variables (P : Platform) (config : Config.t) (url : string) (options : SyncOptions.t).

Local Abbreviation retryAttempts := (Config.retryAttempts (Config.policies config)).

(** One failed attempt: the call is recorded and the loop goes on. *)
Lemma fetch_loop_failed_step remaining attempt lastError w e :
  attempt_outcome P config url attempt = inr e ->
  exists w',
    fetch_loop P config url options (S remaining) attempt lastError w
    = fetch_loop P config url options remaining (S attempt) (Some e) w'
    /\ fetch_calls (events w') = (fetch_calls (events w) ++ [attempt])%list.
Proof.
  intro H. cbn [fetch_loop]. rewrite H.
  eexists. split; [reflexivity|].
  destruct (attempt <? retryAttempts)%nat.
  - rewrite fetch_calls_emit, fetch_calls_emit, fetch_calls_reportProgress.
    now rewrite app_nil_r.
  - now rewrite fetch_calls_emit, fetch_calls_reportProgress.
Qed.

(** A run of [n] failed attempts: [lastError] ends up being the error of
    the last of them. *)
Lemma fetch_loop_failed_prefix n : forall remaining attempt lastError w,
  (n <= remaining)%nat ->
  (forall j, (attempt <= j < attempt + n)%nat ->
             exists e, attempt_outcome P config url j = inr e) ->
  exists w',
    fetch_loop P config url options remaining attempt lastError w
    = fetch_loop P config url options (remaining - n) (attempt + n)
        (match n with
         | O => lastError
         | S m =>
             match attempt_outcome P config url (attempt + m) with
             | inr e => Some e
             | inl _ => None
             end
         end) w'
    /\ fetch_calls (events w') = (fetch_calls (events w) ++ seq attempt n)%list.
Proof.
  induction n as [|n IH]; intros remaining attempt lastError w Hn Hfail.
  - exists w. rewrite Nat.sub_0_r, Nat.add_0_r. cbn [seq].
    rewrite app_nil_r. now split.
  - destruct remaining as [|remaining]; [lia|].
    destruct (Hfail attempt ltac:(lia)) as [e He].
    destruct (fetch_loop_failed_step remaining attempt lastError w e He) as (w1 & E1 & C1).
    destruct (IH remaining (S attempt) (Some e) w1 ltac:(lia)) as (w2 & E2 & C2).
    { intros j Hj. apply Hfail. lia. }
    exists w2. split.
    + rewrite E1, E2.
      replace (S remaining - S n)%nat with (remaining - n)%nat by lia.
      replace (S attempt + n)%nat with (attempt + S n)%nat by lia.
      f_equal. destruct n as [|n].
      * rewrite Nat.add_0_r, He. reflexivity.
      * replace (S attempt + n)%nat with (attempt + S n)%nat by lia. reflexivity.
    + rewrite C2, C1, <- app_assoc. reflexivity.
Qed.

(** The calls a run of the loop makes are numbered consecutively, and
    there is one as soon as an iteration is left. *)
Lemma fetch_loop_calls remaining : forall attempt lastError w,
  exists m,
    (m <= remaining)%nat
    /\ (0 < remaining -> 0 < m)%nat
    /\ fetch_calls (events (snd (fetch_loop P config url options remaining attempt lastError w)))
       = (fetch_calls (events w) ++ seq attempt m)%list.
Proof.
  induction remaining as [|remaining IH]; intros attempt lastError w.
  - exists 0%nat. cbn. rewrite app_nil_r. repeat split; lia.
  - destruct (attempt_outcome P config url attempt) as [data|e] eqn:O.
    + exists 1%nat. cbn [fetch_loop]. rewrite O. cbn [snd seq].
      rewrite fetch_calls_emit, fetch_calls_reportProgress. repeat split; lia.
    + destruct (fetch_loop_failed_step remaining attempt lastError w e O) as (w1 & E1 & C1).
      destruct (IH (S attempt) (Some e) w1) as (m & M1 & _ & M3).
      exists (S m). rewrite E1, M3, C1, <- app_assoc. repeat split; lia.
Qed.

End RetryLoop.

Section RetryWaits.
Variables (P : Platform) (config : Config.t) (url : string) (options : SyncOptions.t).

Local Abbreviation retryAttempts := (Config.retryAttempts (Config.policies config)).

Lemma network_trace_app (a b : list Event) :
  network_trace (a ++ b) = (network_trace a ++ network_trace b)%list.
Proof. apply filter_app. Qed.

Lemma network_trace_emit (e : Event) (w : World) :
  network_trace (events (emit e w))
  = (network_trace (events w) ++ network_trace [e])%list.
Proof. unfold emit, network_trace. cbn [events]. apply filter_app. Qed.

Lemma network_trace_reportProgress stage percent w :
  network_trace (events (reportProgress options stage percent w)) = network_trace (events w).
Proof.
  unfold reportProgress. destruct (SyncOptions.progressCallback options); [|reflexivity].
  rewrite network_trace_emit. cbn. apply app_nil_r.
Qed.

(** The loop only adds to the trace. *)
Lemma fetch_loop_extends remaining : forall attempt lastError w,
  exists tail,
    events (snd (fetch_loop P config url options remaining attempt lastError w))
    = (events w ++ tail)%list.
Proof.
  induction remaining as [|remaining IH]; intros attempt lastError w; cbn [fetch_loop].
  - exists []. cbn [snd]. now rewrite app_nil_r.
  - assert (R : forall stage percent w0,
              exists t, events (reportProgress options stage percent w0)
                        = (events w0 ++ t)%list).
    { intros stage percent w0. unfold reportProgress.
      destruct (SyncOptions.progressCallback options);
        [eexists; reflexivity|exists []; now rewrite app_nil_r]. }
    destruct (R "fetching" (fetch_percent attempt retryAttempts) w) as [t1 E1].
    destruct (attempt_outcome P config url attempt) as [data|e].
    + cbn [snd emit events]. rewrite E1, <- app_assoc. eexists. reflexivity.
    + match goal with
      | |- context [fetch_loop P config url options remaining (S attempt) (Some e) ?w3] =>
          destruct (IH (S attempt) (Some e) w3) as [t3 E3]; rewrite E3
      end.
      destruct (attempt <? retryAttempts)%nat; cbn [emit events];
        rewrite E1, <- !app_assoc; eexists; reflexivity.
Qed.

(** An iteration begins with its fetch call. *)
Lemma fetch_loop_next_attempt remaining attempt lastError w :
  exists rest,
    network_trace
      (events (snd (fetch_loop P config url options (S remaining) attempt lastError w)))
    = (network_trace (events w) ++ HttpFetch url attempt :: rest)%list.
Proof.
  cbn [fetch_loop].
  destruct (attempt_outcome P config url attempt) as [data|e].
  - cbn [snd]. rewrite network_trace_emit, network_trace_reportProgress.
    exists []. reflexivity.
  - match goal with
    | |- context [fetch_loop P config url options remaining (S attempt) (Some e) ?w3] =>
        destruct (fetch_loop_extends remaining (S attempt) (Some e) w3) as [t E];
          rewrite E; clear E
    end.
    rewrite network_trace_app.
    destruct (attempt <? retryAttempts)%nat;
      rewrite !network_trace_emit, network_trace_reportProgress, <- ?app_assoc;
      cbn [network_trace filter app]; eexists; reflexivity.
Qed.

(** A run of [n] failed attempts, none of them the last configured one:
    each is followed by its wait, and [lastError] ends up being the error
    of the last of them. *)
Lemma fetch_loop_failed_waits n : forall remaining attempt lastError w,
  (n <= remaining)%nat ->
  (attempt + n <= retryAttempts)%nat ->
  (forall j, (attempt <= j < attempt + n)%nat ->
             exists e, attempt_outcome P config url j = inr e) ->
  exists w',
    fetch_loop P config url options remaining attempt lastError w
    = fetch_loop P config url options (remaining - n) (attempt + n)
        (match n with
         | O => lastError
         | S m =>
             match attempt_outcome P config url (attempt + m) with
             | inr e => Some e
             | inl _ => None
             end
         end) w'
    /\ fetch_calls (events w') = (fetch_calls (events w) ++ seq attempt n)%list
    /\ network_trace (events w')
       = (network_trace (events w) ++ failed_attempts url attempt n)%list.
Proof.
  induction n as [|n IH]; intros remaining attempt lastError w Hn Hb Hfail.
  - exists w. rewrite Nat.sub_0_r, Nat.add_0_r. cbn [seq failed_attempts flat_map].
    rewrite !app_nil_r. repeat split.
  - destruct remaining as [|remaining]; [lia|].
    destruct (Hfail attempt ltac:(lia)) as [e He].
    assert (L : (attempt <? retryAttempts)%nat = true) by (apply Nat.ltb_lt; lia).
    set (w1 := emit (Sleep (backoff_delay attempt))
                 (emit (HttpFetch url attempt)
                    (reportProgress options "fetching"
                       (fetch_percent attempt retryAttempts) w))).
    assert (E1 : fetch_loop P config url options (S remaining) attempt lastError w
                 = fetch_loop P config url options remaining (S attempt) (Some e) w1).
    { cbn [fetch_loop]. now rewrite He, L. }
    destruct (IH remaining (S attempt) (Some e) w1 ltac:(lia) ltac:(lia))
      as (w2 & E2 & C2 & T2).
    { intros j Hj. apply Hfail. lia. }
    exists w2. split; [|split].
    + rewrite E1, E2.
      replace (S remaining - S n)%nat with (remaining - n)%nat by lia.
      replace (S attempt + n)%nat with (attempt + S n)%nat by lia.
      f_equal. destruct n as [|n].
      * rewrite Nat.add_0_r, He. reflexivity.
      * replace (S attempt + n)%nat with (attempt + S n)%nat by lia. reflexivity.
    + rewrite C2. subst w1.
      rewrite !fetch_calls_emit, fetch_calls_reportProgress. cbn [seq].
      rewrite app_nil_r, <- app_assoc. reflexivity.
    + rewrite T2. subst w1.
      rewrite !network_trace_emit, network_trace_reportProgress.
      cbn [seq failed_attempts flat_map network_trace filter app].
      rewrite <- !app_assoc. reflexivity.
Qed.

End RetryWaits.

(** C6 (as amended). A failure of the checks made after a successful
    response (content type, payload size) is handled like any other failed
    attempt. When it happens on the last configured attempt, all the
    earlier ones having failed, each earlier attempt was followed by its
    backoff wait, no wait and no further attempt follow the last one, and
    the caller observes that attempt's [INVALID_SCHEMA] or [QUOTA_EXCEEDED]
    error; when it happens on an earlier attempt [k], the fetch waits the
    backoff delay of attempt [k] and then makes attempt [k + 1]. *)
Theorem validation_failure_is_final_only_on_last_attempt
  (P : Platform) (config : Config.t) (url : string) (options : SyncOptions.t)
  (w : World) (k : nat) (code : SyncErrorCode) (message : string) :
  isTrustedDomain P config url = true ->
  (1 <= k <= Config.retryAttempts (Config.policies config))%nat ->
  (forall j, (1 <= j < k)%nat -> exists e, attempt_outcome P config url j = inr e) ->
  rejected_after_response P config url k code message ->
  let run := fetchRemoteRegistry P config url options w in
  (code = INVALID_SCHEMA \/ code = QUOTA_EXCEEDED)
  /\ (k = Config.retryAttempts (Config.policies config) ->
      fst run = Throw (SyncError code message)
      /\ fetch_calls (events (snd run)) = (fetch_calls (events w) ++ seq 1 k)%list
      /\ network_trace (events (snd run))
         = (network_trace (events w)
            ++ failed_attempts url 1 (k - 1) ++ [HttpFetch url k])%list)
  /\ ((k < Config.retryAttempts (Config.policies config))%nat ->
      exists m rest,
        (k < m)%nat
        /\ fetch_calls (events (snd run)) = (fetch_calls (events w) ++ seq 1 m)%list
        /\ network_trace (events (snd run))
           = (network_trace (events w)
              ++ failed_attempts url 1 k ++ HttpFetch url (S k) :: rest)%list).
Proof.
  intros T Hk Hfail (response & F & Ok & O) run.
  assert (Hall : forall j, (1 <= j < 1 + k)%nat ->
                   exists e, attempt_outcome P config url j = inr e).
  { intros j Hj. destruct (Nat.eq_dec j k) as [->|N]; [eauto|]. apply Hfail. lia. }
  split; [|split].
  - unfold attempt_outcome in O. rewrite F, Ok in O. cbn [negb] in O.
    destruct (negb (Str.includes "application/json" (or_string (contentType response) "")));
      [inversion O; now left|].
    destruct (body response) as [m|data size]; [discriminate|].
    destruct (size >? Config.maxPayloadSize (Config.security config));
      [inversion O; now right|discriminate].
  - intro Last.
    destruct (fetch_loop_failed_waits P config url options (k - 1)
                (Config.retryAttempts (Config.policies config)) 1 None w
                ltac:(lia) ltac:(lia)) as (w1 & E1 & C1 & T1).
    { intros j Hj. apply Hfail. lia. }
    subst run. unfold fetchRemoteRegistry. rewrite T. cbn [negb]. rewrite E1.
    replace (Config.retryAttempts (Config.policies config) - (k - 1))%nat with 1%nat by lia.
    replace (1 + (k - 1))%nat with k by lia.
    cbn [fetch_loop]. rewrite O.
    assert (L : (k <? Config.retryAttempts (Config.policies config))%nat = false)
      by (apply Nat.ltb_ge; lia).
    rewrite L. cbn [fst snd]. split; [reflexivity|]. split.
    + rewrite fetch_calls_emit, fetch_calls_reportProgress, C1, <- app_assoc.
      cbn [fetch_calls flat_map app]. f_equal.
      replace (seq 1 k) with (seq 1 (k - 1 + 1)) by (f_equal; lia).
      rewrite seq_app. cbn [seq].
      replace (1 + (k - 1))%nat with k by lia. reflexivity.
    + rewrite network_trace_emit, network_trace_reportProgress, T1, <- app_assoc.
      reflexivity.
  - intro Lt.
    destruct (fetch_loop_failed_waits P config url options k
                (Config.retryAttempts (Config.policies config)) 1 None w
                ltac:(lia) ltac:(lia) Hall) as (w1 & E1 & C1 & T1).
    destruct (fetch_loop_calls P config url options
                (Config.retryAttempts (Config.policies config) - k) (1 + k)
                (match k with
                 | O => None
                 | S m =>
                     match attempt_outcome P config url (1 + m) with
                     | inr e => Some e
                     | inl _ => None
                     end
                 end) w1) as (m & M1 & M2 & M3).
    destruct (Config.retryAttempts (Config.policies config) - k)%nat as [|r] eqn:Er; [lia|].
    destruct (fetch_loop_next_attempt P config url options r (1 + k)
                (match k with
                 | O => None
                 | S m =>
                     match attempt_outcome P config url (1 + m) with
                     | inr e => Some e
                     | inl _ => None
                     end
                 end) w1) as (rest & N1).
    exists (k + m)%nat, rest. split; [lia|].
    subst run. unfold fetchRemoteRegistry. rewrite T. cbn [negb]. rewrite E1.
    destruct (fetch_loop P config url options (S r) (1 + k) _ w1)
      as [[data|[[c msg|n msg]|]] w2];
      cbn [snd] in *; rewrite M3, C1, N1, T1, <- !app_assoc, seq_app; split; reflexivity.
Qed.

(** C6, counterexample. The first attempt receives a successful response
    whose content type is not JSON; the loop retries, the second attempt
    delivers the document, and the caller observes no error at all. *)
Lemma validation_failure_is_retried :
  let P := Sample.platform (Sample.html_then_json Sample.two_prompts) None in
  let run :=
    fetchRemoteRegistry P DEFAULT_CONFIG Sample.registry_url SyncOptions.default
      (Sample.world []) in
  rejected_after_response P DEFAULT_CONFIG Sample.registry_url 1 INVALID_SCHEMA
    "Invalid content type: text/html"
  /\ fst run = Return Sample.two_prompts
  /\ fetch_calls (events (snd run)) = [1; 2]%nat
  /\ events (snd run)
     = [HttpFetch Sample.registry_url 1; Sleep 1000; HttpFetch Sample.registry_url 2].
Proof.
  cbn zeta. split; [|repeat split].
  eexists. repeat split.
Qed.

(** Witness of C6: three HTML answers in a row with three attempts
    configured (the failure on the last attempt), and an HTML answer
    followed by the document (the failure on an earlier attempt). *)
Lemma validation_failure_is_final_only_on_last_attempt_witness :
  let url := Sample.registry_url in
  let failing :=
    fetchRemoteRegistry (Sample.platform Sample.always_html None) DEFAULT_CONFIG url
      SyncOptions.default (Sample.world []) in
  let recovering :=
    fetchRemoteRegistry (Sample.platform (Sample.html_then_json Sample.two_prompts) None)
      DEFAULT_CONFIG url SyncOptions.default (Sample.world []) in
  (fst failing = Throw (SyncError INVALID_SCHEMA "Invalid content type: text/html")
   /\ fetch_calls (events (snd failing))
      = (fetch_calls (events (Sample.world [])) ++ seq 1 3)%list
   /\ network_trace (events (snd failing))
      = (network_trace (events (Sample.world []))
         ++ failed_attempts url 1 (3 - 1) ++ [HttpFetch url 3])%list)
  /\ (exists m rest,
        (1 < m)%nat
        /\ fetch_calls (events (snd recovering))
           = (fetch_calls (events (Sample.world [])) ++ seq 1 m)%list
        /\ network_trace (events (snd recovering))
           = (network_trace (events (Sample.world []))
              ++ failed_attempts url 1 1 ++ HttpFetch url 2 :: rest)%list).
Proof.
  cbn zeta. split.
  - refine (proj1 (proj2 (validation_failure_is_final_only_on_last_attempt
                            (Sample.platform Sample.always_html None) DEFAULT_CONFIG
                            Sample.registry_url SyncOptions.default (Sample.world []) 3
                            INVALID_SCHEMA "Invalid content type: text/html" _ _ _ _)) _).
    + reflexivity.
    + cbn. lia.
    + intros j _. eexists. reflexivity.
    + eexists. repeat split.
    + reflexivity.
  - refine (proj2 (proj2 (validation_failure_is_final_only_on_last_attempt
                            (Sample.platform (Sample.html_then_json Sample.two_prompts) None)
                            DEFAULT_CONFIG Sample.registry_url SyncOptions.default
                            (Sample.world []) 1 INVALID_SCHEMA
                            "Invalid content type: text/html" _ _ _ _)) _).
    + reflexivity.
    + cbn. lia.
    + intros j Hj. lia.
    + eexists. repeat split.
    + cbn. lia.
Defined.

(* ------------------------------------------------------------------ *)
(** ** get: interpolation and variants *)

(** C7. On the template "Hello {{name}}", [get("p", {name: "X"})] returns
    "Hello X" and [get("p", {})] fails naming [name]. The substitution is
    not literal, though: the value is used as a replacement pattern, so
    [{name: "$&"}] puts the placeholder back and the call fails with
    "Missing variables: name" although the key was supplied, and
    [{name: "$$5"}] yields "Hello $5". *)
Theorem get_expands_dollar_patterns_of_values :
  forall net write,
    let P := Sample.platform net write in
    let w := Sample.world [("p", Sample.entry "Hello {{name}}" "greeting")] in
    let call variables := fst (get P DEFAULT_CONFIG "p" variables GetOptions.default w) in
    let returned text :=
      Some (GetReturned
              {| GetResult.id := "p@1.0.0";
                 GetResult.prompt := text;
                 GetResult.description := Some "A sample prompt";
                 GetResult.category := Some "greeting";
                 GetResult.tags := Some ["sample"];
                 GetResult.version := Some "1.0.0" |}) in
    call [("name", VString "X")] = returned "Hello X"
    /\ call [] = Some (GetThrown (JsError "Error" "Missing variables: name"))
    /\ call [("name", VString "")] = returned "Hello "
    /\ call [("name", VNumber 0)] = returned "Hello "
    /\ call [("name", VString "$&")]
       = Some (GetThrown (JsError "Error" "Missing variables: name"))
    /\ call [("name", VString "$$5")] = returned "Hello $5"
    /\ call [("name", VString "a $' b")] = returned "Hello a  b".
Proof.
  intros net write. cbn zeta. repeat split.
Qed.

(** C8. [get] never reads a [model] option: whatever model is passed, it
    interpolates the base template. For a version record with a variant
    under "gpt-4", [getPromptVariant] selects the variant, and [get] with
    [{model: "gpt-4"}] returns the base text. *)
Theorem get_ignores_model :
  (forall P config id variables options m w,
     get P config id variables
       {| GetOptions.model := m;
          GetOptions.syncOnMissing := GetOptions.syncOnMissing options;
          GetOptions.syncUrl := GetOptions.syncUrl options;
          GetOptions.timeout := GetOptions.timeout options |} w
     = get P config id variables options w)
  /\ (forall net write,
        let record :=
          Sample.record "Explain {{concept}} in simple terms." "education"
            (Some [("gpt-4", "Explain {{concept}} to a beginner, with examples.")]) in
        let w :=
          Sample.world
            [("code_explanation", {| latest := "1.0.0"; versions := [("1.0.0", record)] |})] in
        getPromptVariant record "gpt-4"
        = Some "Explain {{concept}} to a beginner, with examples."
        /\ fst (get (Sample.platform net write) DEFAULT_CONFIG "code_explanation"
                  [("concept", VString "recursion")]
                  {| GetOptions.model := Some "gpt-4";
                     GetOptions.syncOnMissing := false;
                     GetOptions.syncUrl := None;
                     GetOptions.timeout := None |} w)
           = Some (GetReturned
                     {| GetResult.id := "code_explanation@1.0.0";
                        GetResult.prompt := "Explain recursion in simple terms.";
                        GetResult.description := Some "A sample prompt";
                        GetResult.category := Some "education";
                        GetResult.tags := Some ["sample"];
                        GetResult.version := Some "1.0.0" |})).
Proof.
  split.
  - intros P config id variables [m0 s u t] m w. reflexivity.
  - intros net write. cbn zeta. split; reflexivity.
Qed.

(** The precedence of [getPromptVariant]: the exact model name, else the
    model's category, else "generic", else the base template. *)
Lemma getPromptVariant_precedence (base : string) :
  let record vs := Sample.record base "education" vs in
  getPromptVariant (record None) "gpt-4" = Some base
  /\ getPromptVariant
       (record (Some [("generic", "G"); ("gpt", "C"); ("gpt-4", "M")])) "gpt-4" = Some "M"
  /\ getPromptVariant (record (Some [("generic", "G"); ("gpt", "C")])) "gpt-4" = Some "C"
  /\ getPromptVariant (record (Some [("generic", "G"); ("claude", "C")])) "gpt-4" = Some "G"
  /\ getPromptVariant (record (Some [("claude", "C")])) "gpt-4" = Some base
  /\ getPromptVariant (record (Some [("generic", "G")])) "unknown-model" = Some "G".
Proof. cbn zeta. repeat split. Qed.

(* ------------------------------------------------------------------ *)
(** ** search: object queries and syncOnEmpty *)

Lemma filter_hits_In (f : SearchHit.t -> Completion bool) (l : list SearchHit.t) :
  forall r, filter_hits f l = Return r ->
  forall p, In p r <-> In p l /\ f p = Return true.
Proof.
  induction l as [|x l IH]; cbn [filter_hits]; intros r H p.
  - inversion H. cbn. tauto.
  - destruct (f x) as [keep|e] eqn:Fx; [|discriminate].
    destruct (filter_hits f l) as [r'|e]; [|discriminate].
    inversion H; subst r. specialize (IH r' eq_refl p).
    destruct keep; cbn [In]; rewrite IH; split.
    + intros [->|[H1 H2]]; auto.
    + intros [[->|H1] H2]; auto.
    + intros [H1 H2]; auto.
    + intros [[->|H1] H2]; [congruence|auto].
Qed.

Lemma truthy_string_spec (s : string) : truthy_string s = true <-> s <> "".
Proof.
  unfold truthy_string. rewrite negb_true_iff. split.
  - intros H E. subst. discriminate.
  - intro H. now apply String.eqb_neq.
Qed.

Lemma option_string_eqb_spec (a : option string) (b : string) :
  option_string_eqb a b = true <-> a = Some b.
Proof.
  destruct a as [x|]; cbn; [|split; discriminate].
  rewrite String.eqb_eq. split; [now intros ->|now inversion 1].
Qed.

Lemma all_tags_spec (ts ptags : list string) :
  forallb (fun tag => existsb (String.eqb tag) ptags) ts = true
  <-> forall t, In t ts -> In t ptags.
Proof.
  rewrite forallb_forall. split; intros H t Ht; specialize (H t Ht).
  - apply existsb_exists in H. destruct H as (x & Hx & E).
    apply String.eqb_eq in E. now subst.
  - apply existsb_exists. exists t. split; [exact H|apply String.eqb_refl].
Qed.

Lemma category_matches_spec (q : SearchOptions.t) (p : SearchHit.t) :
  category_matches q p = true
  <-> (forall c, SearchOptions.category q = Some c -> c <> "" -> SearchHit.category p = Some c).
Proof.
  unfold category_matches. destruct (SearchOptions.category q) as [c|].
  - rewrite orb_true_iff, negb_true_iff, option_string_eqb_spec. split.
    + intros [H|H] c' E N; inversion E; subst c'; [|exact H].
      apply truthy_string_spec in N. congruence.
    + intro H. destruct (truthy_string c) eqn:T; [right|now left].
      apply H; [reflexivity|now apply truthy_string_spec].
  - split; [discriminate|reflexivity].
Qed.

Lemma id_matches_spec (q : SearchOptions.t) (p : SearchHit.t) :
  id_matches q p = true
  <-> (forall i, SearchOptions.id q = Some i -> i <> "" -> SearchHit.id p = i).
Proof.
  unfold id_matches. destruct (SearchOptions.id q) as [i|].
  - rewrite orb_true_iff, negb_true_iff, String.eqb_eq. split.
    + intros [H|H] i' E N; inversion E; subst i'; [|exact H].
      apply truthy_string_spec in N. congruence.
    + intro H. destruct (truthy_string i) eqn:T; [right|now left].
      apply H; [reflexivity|now apply truthy_string_spec].
  - split; [discriminate|reflexivity].
Qed.

Lemma tags_match_spec (q : SearchOptions.t) (p : SearchHit.t) (b : bool) :
  tags_match q p = Return b ->
  (b = true
   <-> (forall ts t,
          SearchOptions.tags q = Some ts -> In t ts ->
          exists ptags, SearchHit.tags p = Some ptags /\ In t ptags)).
Proof.
  unfold tags_match. destruct (SearchOptions.tags q) as [[|t0 ts0]|].
  - intro H. injection H as <-. split; [|reflexivity].
    intros _ ts t E Hin. inversion E; subst. destruct Hin.
  - destruct (SearchHit.tags p) as [ptags|]; [|discriminate].
    intro H.
    assert (E : b = forallb (fun tag => existsb (String.eqb tag) ptags) (t0 :: ts0))
      by (inversion H; reflexivity).
    rewrite E, all_tags_spec. clear H E. split.
    + intros A ts t E Hin. inversion E; subst ts. exists ptags. auto.
    + intros A t Hin. destruct (A (t0 :: ts0) t eq_refl Hin) as (pt & E & I).
      inversion E. now subst.
  - intro H. injection H as <-. split; [discriminate|reflexivity].
Qed.

(** When the callback of the object query returns, it returns whether the
    prompt passes the filter. *)
Lemma matches_filter_spec (q : SearchOptions.t) (p : SearchHit.t) (b : bool) :
  matches_filter q p = Return b -> (b = true <-> passes_filter q p).
Proof.
  unfold matches_filter, passes_filter.
  rewrite <- category_matches_spec, <- id_matches_spec.
  destruct (category_matches q p); cbn [negb].
  - destruct (tags_match q p) as [tb|e] eqn:T; [|discriminate].
    apply tags_match_spec in T. rewrite <- T.
    destruct tb; intro H; inversion H; subst b; clear H.
    + split; [now repeat split|tauto].
    + split; [discriminate|]. intros (_ & A & _). exact A.
  - intro H. inversion H. split; [discriminate|]. intros (A & _). discriminate A.
Qed.

(** The hits an object query keeps are those that pass its filter. *)
Lemma filter_hits_passes (q : SearchOptions.t) (allPrompts filtered : list SearchHit.t) :
  filter_hits (matches_filter q) allPrompts = Return filtered ->
  forall p, In p filtered <-> In p allPrompts /\ passes_filter q p.
Proof.
  intros F p. rewrite (filter_hits_In _ _ _ F p). split.
  - intros [H1 H2]. split; [exact H1|].
    now apply (matches_filter_spec q p true H2).
  - intros [H1 H2]. split; [exact H1|].
    assert (Some_b : exists b, matches_filter q p = Return b).
    { clear - F H1. revert filtered F.
      induction allPrompts as [|x l IH]; [destruct H1|].
      cbn [filter_hits]. intros filtered F.
      destruct (matches_filter q x) as [keep|e] eqn:Fx; [|discriminate].
      destruct (filter_hits (matches_filter q) l) as [r|e]; [|discriminate].
      destruct H1 as [->|H1]; [eauto|]. eapply IH; eauto. }
    destruct Some_b as [b Hb].
    rewrite Hb. f_equal. now apply (matches_filter_spec q p b Hb).
Qed.

(** C9 (as amended). With a truthy [syncOnEmpty] in the options, [search]
    applies none of the filters of an object query, and when the registry
    holds at least one prompt it returns the metadata of every prompt. With
    an empty registry it synchronises (with the sync URL and the timeout of
    the merged options, failing on errors) and searches again with
    [syncOnEmpty] false, and that second search filters: its promise
    resolves to the prompts of the synchronised registry that pass the
    filter, or to the empty list when the sync fails. With [syncOnEmpty]
    absent or falsy in the options, the result holds exactly the prompts
    that pass the filter (exact category, all the tags, exact id), and it
    is returned at once unless it is empty and the query itself asks for a
    sync. *)
Theorem search_object_query_and_syncOnEmpty
  (P : Platform) (config : Config.t) (q options : SearchOptions.t) (w : World)
  (allPrompts : list SearchHit.t) :
  all_prompts P config (registryMetadata w) (registry w) = Return allPrompts ->
  (SearchOptions.wantsSync options = true ->
   allPrompts <> [] ->
   search P config (QueryObject q) options w = (SearchReturned allPrompts, w))
  /\ (SearchOptions.wantsSync options = false ->
      forall filtered,
        filter_hits (matches_filter q) allPrompts = Return filtered ->
        (forall p, In p filtered <-> In p allPrompts /\ passes_filter q p)
        /\ (filtered <> []
            \/ SearchOptions.wantsSync (search_options (QueryObject q) options) = false ->
            search P config (QueryObject q) options w = (SearchReturned filtered, w)))
  /\ (SearchOptions.wantsSync options = true ->
      allPrompts = [] ->
      let searchOptions := search_options (QueryObject q) options in
      let synced :=
        sync P config
          {| SyncOptions.url := SearchOptions.syncUrl searchOptions;
             SyncOptions.force := false;
             SyncOptions.timeout :=
               Some (match SearchOptions.timeout searchOptions with
                     | Some t => if t =? 0 then 10000 else t
                     | None => 10000
                     end);
             SyncOptions.progressCallback := false;
             SyncOptions.errorPolicy := Some PolicyThrow;
             SyncOptions.mergeStrategy := None;
             SyncOptions.silent := true;
             SyncOptions.background := false |} w in
      match fst synced with
      | Throw e =>
          search P config (QueryObject q) options w
          = (SearchPromised [],
             emit (ConsoleWarn ("Search sync failed: " ++ message_of e)) (snd synced))
      | Return _ =>
          forall everything filtered,
            all_prompts P config (registryMetadata (snd synced)) (registry (snd synced))
            = Return everything ->
            filter_hits (matches_filter q) everything = Return filtered ->
            search P config (QueryObject q) options w = (SearchPromised filtered, snd synced)
            /\ (forall p, In p filtered <-> In p everything /\ passes_filter q p)
      end).
Proof.
  intro A. split; [|split].
  - intros S N. unfold search, search_filtered. rewrite A, S. cbn [negb].
    destruct allPrompts; [congruence|reflexivity].
  - intros S filtered F. split.
    + exact (filter_hits_passes q allPrompts filtered F).
    + intro H. unfold search, search_filtered. rewrite A, S. cbn [negb]. rewrite F.
      destruct filtered as [|x r]; [|reflexivity].
      destruct H as [H|H]; [congruence|]. now rewrite H.
  - intros S -> searchOptions synced.
    assert (S' : SearchOptions.wantsSync searchOptions = true).
    { subst searchOptions. unfold SearchOptions.wantsSync in *.
      cbn [search_options SearchOptions.spread SearchOptions.syncOnEmpty].
      destruct (SearchOptions.syncOnEmpty options) as [[|]|]; try discriminate.
      reflexivity. }
    unfold search, search_filtered. rewrite A, S. cbn [negb].
    fold searchOptions. rewrite S'. unfold syncAndRetrySearch. fold synced.
    destruct synced as [[r|e] w'] eqn:Sy; cbn [fst snd].
    + intros everything filtered A' F'. split; [|exact (filter_hits_passes q _ _ F')].
      unfold search_filtered. rewrite A'. cbn [negb]. now rewrite F'.
    + reflexivity.
Qed.

(** C9, counterexample. The registry is empty, the options carry
    [syncOnEmpty: true] and the query asks for the category "writing".
    [search] synchronises; the document fetched holds a prompt of category
    "writing" and one of category "coding"; the search made after the sync
    filters by category, so the result is the first prompt alone, not the
    metadata of every prompt of the registry. *)
Lemma search_filters_after_sync :
  let P := Sample.platform (Sample.always_json Sample.two_prompts) None in
  let q := Sample.by_category "writing" in
  let options := Sample.sync_on_empty in
  let run := search P DEFAULT_CONFIG (QueryObject q) options (Sample.world []) in
  SearchOptions.wantsSync options = true
  /\ (exists hits,
        fst run = SearchPromised hits /\ map SearchHit.id hits = ["essay"])
  /\ Obj.keys (registry (snd run)) = ["essay"; "review"]
  /\ (exists everything,
        all_prompts P DEFAULT_CONFIG (registryMetadata (snd run)) (registry (snd run))
        = Return everything
        /\ map SearchHit.id everything = ["essay"; "review"]
        /\ fst run <> SearchReturned everything
        /\ fst run <> SearchPromised everything).
Proof.
  cbn zeta. split; [reflexivity|]. split; [eexists; split; reflexivity|].
  split; [reflexivity|]. eexists. split; [reflexivity|].
  split; [reflexivity|]. split; discriminate.
Qed.

(** Witness of C9: a registry of one prompt, and the empty registry. *)
Lemma search_object_query_and_syncOnEmpty_witness :
  let P := Sample.platform Sample.always_html None in
  let w := Sample.world [("essay", Sample.entry "Write about {{topic}}" "writing")] in
  let q := Sample.by_category "coding" in
  let options := Sample.sync_on_empty in
  (exists allPrompts,
     all_prompts P DEFAULT_CONFIG (registryMetadata w) (registry w) = Return allPrompts
     /\ map SearchHit.id allPrompts = ["essay"]
     /\ search P DEFAULT_CONFIG (QueryObject q) options w = (SearchReturned allPrompts, w))
  /\ (let P' := Sample.platform (Sample.always_json Sample.two_prompts) None in
      let run := search P' DEFAULT_CONFIG (QueryObject q) options (Sample.world []) in
      exists everything filtered,
        all_prompts P' DEFAULT_CONFIG (registryMetadata (snd run)) (registry (snd run))
        = Return everything
        /\ map SearchHit.id everything = ["essay"; "review"]
        /\ fst run = SearchPromised filtered
        /\ map SearchHit.id filtered = ["review"]
        /\ forall p, In p filtered <-> In p everything /\ passes_filter q p).
Proof.
  cbn zeta. split.
  - eexists. split; [reflexivity|]. split; [reflexivity|].
    refine (proj1 (search_object_query_and_syncOnEmpty
                     (Sample.platform Sample.always_html None) DEFAULT_CONFIG
                     (Sample.by_category "coding") Sample.sync_on_empty
                     (Sample.world [("essay", Sample.entry "Write about {{topic}}" "writing")])
                     _ eq_refl) eq_refl _).
    discriminate.
  - pose proof (proj2 (proj2 (search_object_query_and_syncOnEmpty
                                (Sample.platform (Sample.always_json Sample.two_prompts) None)
                                DEFAULT_CONFIG (Sample.by_category "coding")
                                Sample.sync_on_empty (Sample.world []) [] eq_refl))
                  eq_refl eq_refl) as H.
    cbv zeta in H.
    match type of H with
    | match fst ?synced with _ => _ end =>
        destruct (fst synced) as [r|e] eqn:E; [|vm_compute in E; discriminate E]
    end.
    eexists. eexists.
    split; [vm_compute; reflexivity|]. split; [vm_compute; reflexivity|].
    split; [vm_compute; reflexivity|]. split; [vm_compute; reflexivity|].
    refine (proj2 (H _ _ _ _)); vm_compute; reflexivity.
Defined.

(* ------------------------------------------------------------------ *)
(** ** sync: a failed write of the registry file *)

Module SaveFacts.

Lemma emit_other (e : Event) (w : World) :
  e <> RegistryWrite ->
  In RegistryWrite (events (emit e w)) -> In RegistryWrite (events w).
Proof.
  unfold emit. cbn [events]. intros N H. apply in_app_or in H.
  destruct H as [H|[H|[]]]; [exact H|congruence].
Qed.

Lemma reportProgress_other options stage percent w :
  In RegistryWrite (events (reportProgress options stage percent w)) ->
  In RegistryWrite (events w).
Proof.
  unfold reportProgress. destruct (SyncOptions.progressCallback options); [|auto].
  apply emit_other. discriminate.
Qed.

Lemma fetch_loop_other P config url options remaining :
  forall attempt lastError w,
    In RegistryWrite (events (snd (fetch_loop P config url options remaining attempt lastError w))) ->
    In RegistryWrite (events w).
Proof.
  induction remaining as [|remaining IH]; intros attempt lastError w; cbn [fetch_loop snd]; [auto|].
  destruct (attempt_outcome P config url attempt) as [data|e]; cbn [snd].
  - intro H. apply emit_other in H; [|discriminate]. now apply reportProgress_other in H.
  - intro H. apply IH in H.
    destruct (attempt <? Config.retryAttempts (Config.policies config))%nat;
      [apply emit_other in H; [|discriminate]|];
      (apply emit_other in H; [|discriminate]); now apply reportProgress_other in H.
Qed.

Lemma fetchRemoteRegistry_other P config url options w :
  In RegistryWrite (events (snd (fetchRemoteRegistry P config url options w))) ->
  In RegistryWrite (events w).
Proof.
  unfold fetchRemoteRegistry.
  destruct (negb (isTrustedDomain P config url)).
  - destruct (URL P url); auto.
  - pose proof (fetch_loop_other P config url options
                  (Config.retryAttempts (Config.policies config)) 1 None w) as H.
    destruct (fetch_loop P config url options
                (Config.retryAttempts (Config.policies config)) 1 None w)
      as [[data|[[c msg|n msg]|]] w']; exact H.
Qed.

Lemma merge_into_frame remote remoteMetadata options result w :
  let r := merge_into remote remoteMetadata options result w in
  events (snd r) = events w
  /\ SyncResult.errors (fst r) = SyncResult.errors result
  /\ SyncResult.success (fst r) = SyncResult.success result.
Proof.
  unfold merge_into.
  destruct (mergeRegistries remote remoteMetadata (sync_strategy options)
              (registry w) (registryMetadata w)) as [[reg meta] mr].
  cbn. auto.
Qed.

Section Save.
Variables (P : Platform) (config : Config.t) (url : string) (options : SyncOptions.t).
Variable m : string.
Hypothesis write_fails : writeRegistryFile P = Some m.

Local Abbreviation save_error :=
  (SyncError QUOTA_EXCEEDED ("Failed to save registry: " ++ m)).

Lemma sync_network_write result w :
  ~ In RegistryWrite (events w) ->
  let r := sync_network P config url options result w in
  SyncResult.errors (snd (fst r)) = SyncResult.errors result
  /\ SyncResult.success (snd (fst r)) = SyncResult.success result
  /\ match fst (fst r) with
     | inl e => In RegistryWrite (events (snd r)) -> e = save_error
     | inr _ => ~ In RegistryWrite (events (snd r))
     end.
Proof.
  intro N. unfold sync_network.
  pose proof (fetchRemoteRegistry_other P config url options
                (reportProgress options "fetching" 25 w)) as F.
  destruct (fetchRemoteRegistry P config url options
              (reportProgress options "fetching" 25 w)) as [[data|e] w2]; cbn [snd] in F.
  2:{ cbn [fst snd]. repeat split. intro H. exfalso. apply N.
      now apply reportProgress_other in F. }
  assert (N2 : ~ In RegistryWrite (events w2)).
  { intro H. apply N. now apply reportProgress_other in F. }
  destruct (validateRemoteSchema data) as [remote|e].
  2:{ cbn [fst snd]. repeat split. intro H. exfalso. apply N2.
      now apply reportProgress_other in H. }
  set (w6 := reportProgress options "merging" 75
               (saveToCache url
                  (reportProgress options "comparing" 60
                     (reportProgress options "validating" 50 w2)))).
  assert (N6 : ~ In RegistryWrite (events w6)).
  { intro H. apply N2. subst w6. apply reportProgress_other in H.
    unfold saveToCache in H. apply emit_other in H; [|discriminate].
    now do 2 apply reportProgress_other in H. }
  pose proof (merge_into_frame remote
                {| metaSchemaVersion := Some (or_string (remoteSchemaVersion remote) "2.0") |}
                options
                (set_remoteVersion (or_string (remoteSchemaVersion remote) "2.0") result)
                w6) as M.
  destruct (merge_into remote
              {| metaSchemaVersion := Some (or_string (remoteSchemaVersion remote) "2.0") |}
              options
              (set_remoteVersion (or_string (remoteSchemaVersion remote) "2.0") result)
              w6) as [result2 w7].
  cbn [fst snd] in M. destruct M as (M1 & M2 & M3).
  cbn [SyncResult.errors SyncResult.success set_remoteVersion] in M2, M3.
  assert (N8 : ~ In RegistryWrite (events (reportProgress options "updating" 90 w7))).
  { intro H. apply N6. apply reportProgress_other in H. now rewrite M1 in H. }
  destruct ((0 <? SyncResult.newPrompts result2)
            || (0 <? SyncResult.updatedPrompts result2))%nat.
  - unfold saveLocalRegistry. rewrite write_fails. cbn [fst snd]. auto.
  - cbn [fst snd]. auto.
Qed.

Lemma sync_cached_write result w :
  ~ In RegistryWrite (events w) ->
  let t := sync_cached P url options result w in
  ~ In RegistryWrite (events (snd (fst t)))
  /\ SyncResult.errors (fst (fst t)) = SyncResult.errors result
  /\ SyncResult.success (fst (fst t)) = SyncResult.success result.
Proof.
  intro N. unfold sync_cached.
  destruct (negb (SyncOptions.force options)); [|cbn; auto].
  destruct (loadFromCache P 0 url) as [cached|]; [|cbn; auto].
  destruct (merge_into_frame cached {| metaSchemaVersion := Some "2.0" |} options result
              (reportProgress options "fetching" 100 w)) as (M1 & M2 & M3).
  destruct (merge_into cached {| metaSchemaVersion := Some "2.0" |} options result
              (reportProgress options "fetching" 100 w)) as [r0 w0].
  cbn [fst snd] in *. repeat split; auto.
  rewrite M1. intro H. apply N. now apply reportProgress_other in H.
Qed.

Lemma sync_finalize_write (t : (Exn + unit) * SyncResult.t * World) :
  match fst (fst t) with
  | inl e => In RegistryWrite (events (snd t)) -> e = save_error
  | inr _ => ~ In RegistryWrite (events (snd t))
  end ->
  let r := sync_finalize P options t in
  match fst (fst r) with
  | inl e =>
      snd (fst r) = snd (fst t)
      /\ (In RegistryWrite (events (snd r)) -> e = save_error)
  | inr _ => ~ In RegistryWrite (events (snd r))
  end.
Proof.
  destruct t as [[[e|u] result] w]; cbn [fst snd sync_finalize events].
  - auto.
  - intros N H. apply N. now apply reportProgress_other in H.
Qed.

Lemma sync_try_write result w :
  ~ In RegistryWrite (events w) ->
  let r := sync_try P config url options result w in
  match fst (fst r) with
  | inl e =>
      SyncResult.errors (snd (fst r)) = SyncResult.errors result
      /\ SyncResult.success (snd (fst r)) = SyncResult.success result
      /\ (In RegistryWrite (events (snd r)) -> e = save_error)
  | inr _ => ~ In RegistryWrite (events (snd r))
  end.
Proof.
  intro N. unfold sync_try.
  assert (N1 : ~ In RegistryWrite (events (reportProgress options "initializing" 0 w)))
    by (intro H; apply N; now apply reportProgress_other in H).
  pose proof (sync_cached_write result _ N1) as C. cbn zeta in C.
  destruct (sync_cached P url options result (reportProgress options "initializing" 0 w))
    as [[result1 w2] reads].
  cbn [fst snd] in C. destruct C as (N2 & E2 & S2).
  pose proof (sync_network_write result1 w2 N2) as NW. cbn zeta in NW.
  destruct NW as (E3 & S3 & W3).
  set (t := match loadFromCache P reads url with
            | Some _ =>
                if SyncOptions.force options
                then sync_network P config url options result1 w2
                else (inr tt, result1, w2)
            | None => sync_network P config url options result1 w2
            end).
  assert (T : SyncResult.errors (snd (fst t)) = SyncResult.errors result
              /\ SyncResult.success (snd (fst t)) = SyncResult.success result
              /\ match fst (fst t) with
                 | inl e => In RegistryWrite (events (snd t)) -> e = save_error
                 | inr _ => ~ In RegistryWrite (events (snd t))
                 end).
  { subst t. destruct (loadFromCache P reads url); [destruct (SyncOptions.force options)|];
      cbn [fst snd]; repeat split; congruence || auto. }
  destruct T as (T1 & T2 & T3).
  pose proof (sync_finalize_write t T3) as F. cbn zeta in F.
  destruct (fst (fst (sync_finalize P options t))); [|exact F].
  destruct F as [F1 F2]. rewrite F1. auto.
Qed.

End Save.
End SaveFacts.

(** C10. When the write of the merged registry fails, with whatever
    message, [sync] surfaces a [SyncError] of code [QUOTA_EXCEEDED] that
    embeds the message: it is thrown under the error policy [throw], and
    otherwise recorded as the only error of a result whose [success] is
    false. *)
Theorem failed_save_surfaces_quota_exceeded
  (P : Platform) (config : Config.t) (options : SyncOptions.t) (w : World) (m : string) :
  writeRegistryFile P = Some m ->
  ~ In RegistryWrite (events w) ->
  In RegistryWrite (events (snd (sync P config options w))) ->
  let error := SyncError QUOTA_EXCEEDED ("Failed to save registry: " ++ m) in
  match sync_policy options with
  | PolicyThrow => fst (sync P config options w) = Throw error
  | _ =>
      exists result,
        fst (sync P config options w) = Return result
        /\ SyncResult.success result = false
        /\ SyncResult.errors result = [error]
  end.
Proof.
  intros Wf N. unfold sync.
  match goal with
  | |- context [sync_try P config ?u options ?r ?w0] =>
      pose proof (SaveFacts.sync_try_write P config u options m Wf r w0 N) as T;
      destruct (sync_try P config u options r w0) as [[[e|u'] result'] w']
  end; cbn [fst snd] in T.
  - destruct T as (E & S & Q). cbn [SyncResult.errors SyncResult.success] in E, S.
    destruct (sync_policy options); cbn [fst snd]; intro H.
    + rewrite (Q H). reflexivity.
    + rewrite (Q H). eexists. split; [reflexivity|].
      cbn [SyncResult.success SyncResult.errors]. rewrite E, S. auto.
    + apply SaveFacts.emit_other in H; [|discriminate].
      rewrite (Q H). eexists. split; [reflexivity|].
      cbn [SyncResult.success SyncResult.errors]. rewrite E, S. auto.
  - cbn [snd]. intro H. contradiction.
Qed.

(** Witness of C10: a first sync of an empty registry, with a disk that
    refuses the write. *)
Lemma failed_save_surfaces_quota_exceeded_witness :
  let P := Sample.platform (Sample.always_json Sample.two_prompts) (Some "ENOSPC: no space left on device") in
  fst (sync P DEFAULT_CONFIG SyncOptions.default (Sample.world []))
  = Throw (SyncError QUOTA_EXCEEDED
             "Failed to save registry: ENOSPC: no space left on device").
Proof.
  refine (failed_save_surfaces_quota_exceeded
            (Sample.platform (Sample.always_json Sample.two_prompts)
               (Some "ENOSPC: no space left on device"))
            DEFAULT_CONFIG SyncOptions.default (Sample.world [])
            "ENOSPC: no space left on device" eq_refl _ _).
  - cbn. tauto.
  - vm_compute. repeat (first [left; reflexivity | right]).
Defined.

(* ------------------------------------------------------------------ *)
(** ** The merge on a concrete pair of documents *)


(** The same merge, evaluated under each strategy. *)
Example merge_precedence_evaluated :
  let run strategy :=
    mergeRegistries Sample.remote_doc Sample.remote_meta strategy
      Sample.local_doc Sample.metadata in
  let summary strategy :=
    (option_map (fun e => (latest e, Obj.keys (versions e)))
       (Obj.get "p" (reg_of (run strategy))),
     MergeResult.newPrompts (result_of (run strategy)),
     MergeResult.updatedPrompts (result_of (run strategy)),
     MergeResult.warnings (result_of (run strategy))) in
  summary PreferLocal
  = (Some ("1.0.0", ["1.0.0"; "2.0.0"]), 1%nat, 0%nat,
     ["Added newer version 2.0.0 to local prompt p"])
  /\ summary Interactive = summary PreferLocal
  /\ summary PreferRemote
     = (Some ("2.0.0", ["1.0.0"; "0.5.0"; "2.0.0"]), 1%nat, 1%nat, [])
  /\ option_map (fun e => Obj.get "1.0.0" (versions e))
       (Obj.get "p" (reg_of (run PreferRemote)))
     = Some (Some (Sample.record "Hello there {{name}}" "greeting" None)).
Proof. cbn zeta. repeat split. Qed.

(** Witness of C2: the same documents merged twice. *)
Lemma merge_idempotent_witness :
  let first :=
    mergeRegistries Sample.remote_doc Sample.remote_meta PreferLocal
      Sample.local_doc Sample.metadata in
  let second :=
    mergeRegistries Sample.remote_doc Sample.remote_meta PreferLocal
      (reg_of first) (meta_of first) in
  MergeResult.newPrompts (result_of second) = 0%nat
  /\ reg_of second = reg_of first.
Proof.
  exact (merge_idempotent Sample.remote_doc Sample.remote_meta PreferLocal
           Sample.local_doc Sample.metadata eq_refl).
Defined.

(** In a replacement without a dollar sign every character stands for
    itself: for such values the substitution of [get] is literal. *)
Lemma expand_replacement_plain (template matched before after : string) :
  Str.contains_char "$" template = false ->
  Re.expand_replacement template matched before after = template.
Proof.
  unfold Str.contains_char.
  induction template as [|c r IH]; cbn [Re.expand_replacement list_ascii_of_string existsb];
    [reflexivity|].
  intro H. apply orb_false_iff in H. destruct H as [H1 H2].
  rewrite Ascii.eqb_sym, H1. now rewrite (IH H2).
Qed.

(* ================================================================== *)
(** * Further properties of the merge *)

Lemma registry_okb_spec (reg : Obj.t PromptEntry) :
  registry_okb reg = true <-> (forall id e, In (id, e) reg -> entry_okb e = true).
Proof.
  unfold registry_okb. rewrite forallb_forall. split.
  - intros H id e Hin. exact (H (id, e) Hin).
  - intros H [id e] Hin. exact (H id e Hin).
Qed.

Lemma add_newer_has promptId localLatest rv lv ws k :
  Obj.has k lv = true ->
  Obj.has k (fst (add_newer_versions promptId localLatest rv (lv, ws))) = true.
Proof.
  unfold Obj.has. rewrite VersionLoops.add_newer_get.
  destruct (Obj.get k lv); [reflexivity|discriminate].
Qed.

Lemma add_newer_keeps promptId localLatest rv lv ws k d :
  Obj.get k lv = Some d ->
  Obj.get k (fst (add_newer_versions promptId localLatest rv (lv, ws))) = Some d.
Proof. intro H. now rewrite VersionLoops.add_newer_get, H. Qed.

(** What the loop leaves in the registry and in the result, in terms of the
    documents it started from. *)
Lemma mergeRegistries_spec (remote : RemoteRegistry) (remoteMetadata : RemoteMetadata)
  (strategy : MergeStrategy) (reg : Registry) (meta : RegistryMetadata) :
  Obj.wf (prompts remote) ->
  let st := mergeRegistries remote remoteMetadata strategy reg meta in
  (forall id,
     Obj.get id (reg_of st)
     = match Obj.get id (prompts remote) with
       | Some remoteEntry => Some (merged_entry strategy id (Obj.get id reg) remoteEntry)
       | None => Obj.get id reg
       end)
  /\ MergeResult.newPrompts (result_of st)
     = List.length (filter (fun kv => negb (Obj.has (fst kv) reg)) (prompts remote))
  /\ MergeResult.updatedPrompts (result_of st)
     = List.length (filter (is_update strategy reg) (prompts remote)).
Proof.
  intro W.
  destruct (MergeFacts.fold_merge_step_spec remoteMetadata strategy (prompts remote)
              reg meta MergeResult.empty W) as (S1 & S2 & S3 & _).
  repeat split; assumption.
Qed.

(** X1. When no prompt id of the remote document is the name of a member
    of [Object.prototype], a prompt id that only the remote document has is
    copied into the local document as it is, under every strategy, and
    [newPrompts] is the number of such ids. *)
Theorem merge_copies_new_prompts
  (remote : RemoteRegistry) (remoteMetadata : RemoteMetadata) (strategy : MergeStrategy)
  (reg : Registry) (meta : RegistryMetadata) :
  Obj.wfb (prompts remote) = true ->
  plain_names (prompts remote) = true ->
  let st := mergeRegistries remote remoteMetadata strategy reg meta in
  (forall id remoteEntry,
     Obj.get id reg = None ->
     Obj.get id (prompts remote) = Some remoteEntry ->
     Obj.get id (reg_of st) = Some remoteEntry)
  /\ MergeResult.newPrompts (result_of st)
     = List.length (filter (fun id => negb (Obj.has id reg)) (Obj.keys (prompts remote))).
Proof.
  intros W _ st. apply ObjFacts.wfb_wf in W.
  destruct (mergeRegistries_spec remote remoteMetadata strategy reg meta W) as (S1 & S2 & _).
  fold st in S1, S2. split.
  - intros id re GL GR. now rewrite S1, GR, GL.
  - rewrite S2. unfold Obj.keys. clear.
    induction (prompts remote) as [|[k v] l IH]; [reflexivity|].
    cbn [filter map fst]. destruct (negb (Obj.has k reg)); cbn [List.length]; now rewrite IH.
Qed.

Lemma merge_copies_new_prompts_witness :
  let st :=
    mergeRegistries Sample.remote_doc Sample.remote_meta Interactive
      Sample.local_doc Sample.metadata in
  (forall id remoteEntry,
     Obj.get id Sample.local_doc = None ->
     Obj.get id (prompts Sample.remote_doc) = Some remoteEntry ->
     Obj.get id (reg_of st) = Some remoteEntry)
  /\ MergeResult.newPrompts (result_of st)
     = List.length (filter (fun id => negb (Obj.has id Sample.local_doc))
                      (Obj.keys (prompts Sample.remote_doc))).
Proof.
  exact (merge_copies_new_prompts Sample.remote_doc Sample.remote_meta Interactive
           Sample.local_doc Sample.metadata eq_refl eq_refl).
Defined.

(** X2. The merge loses nothing of the local document. A prompt the
    remote document does not mention is untouched. A prompt it mentions
    keeps every version it had; its latest pointer never moves to a version
    that compares lower; and a version record it had is replaced only under
    [PreferRemote] with a strictly newer remote latest. *)
Theorem merge_keeps_local_content
  (remote : RemoteRegistry) (remoteMetadata : RemoteMetadata) (strategy : MergeStrategy)
  (reg : Registry) (meta : RegistryMetadata) (id : string) (localEntry : PromptEntry) :
  Obj.wfb (prompts remote) = true ->
  Obj.get id reg = Some localEntry ->
  let st := mergeRegistries remote remoteMetadata strategy reg meta in
  exists merged,
    Obj.get id (reg_of st) = Some merged
    /\ (Obj.get id (prompts remote) = None -> merged = localEntry)
    /\ compareVersions (latest merged) (latest localEntry) >= 0
    /\ (forall v, Obj.has v (versions localEntry) = true ->
                  Obj.has v (versions merged) = true)
    /\ (forall v d,
          Obj.get v (versions localEntry) = Some d ->
          Obj.get v (versions merged) = Some d
          \/ (strategy = PreferRemote
              /\ exists remoteEntry,
                   Obj.get id (prompts remote) = Some remoteEntry
                   /\ remote_newer localEntry remoteEntry = true)).
Proof.
  intros W GL st. apply ObjFacts.wfb_wf in W.
  destruct (mergeRegistries_spec remote remoteMetadata strategy reg meta W) as (S1 & _).
  fold st in S1. specialize (S1 id). rewrite GL in S1.
  destruct (Obj.get id (prompts remote)) as [re|] eqn:GR.
  - exists (merged_entry strategy id (Some localEntry) re).
    split; [exact S1|]. split; [discriminate|].
    rewrite merged_entry_cases. unfold remote_newer.
    destruct (compareVersions (latest localEntry) (latest re) >? 0) eqn:G;
      [|destruct (compareVersions (latest localEntry) (latest re) <? 0) eqn:L;
        [destruct strategy|]];
      cbn [latest versions]; (split; [|split]);
      try (rewrite compareVersions_refl; lia);
      try (rewrite compareVersions_antisym; lia);
      try (intros v Hv; first
             [ now apply add_newer_has
             | rewrite VersionLoops.add_missing_has, Hv; reflexivity
             | rewrite VersionLoops.add_all_has, Hv; apply orb_true_r ]);
      try (intros v d Hv; first
             [ left; now apply add_newer_keeps
             | left; now rewrite VersionLoops.add_missing_get, Hv
             | right; split; [reflexivity|]; exists re; now split ]).
  - exists localEntry. split; [exact S1|]. split; [reflexivity|].
    rewrite compareVersions_refl. repeat split; auto. lia.
Qed.

Lemma merge_keeps_local_content_witness :
  let st :=
    mergeRegistries Sample.remote_doc Sample.remote_meta PreferRemote
      Sample.local_doc Sample.metadata in
  exists merged,
    Obj.get "p" (reg_of st) = Some merged
    /\ (Obj.get "p" (prompts Sample.remote_doc) = None -> merged = Sample.local_entry)
    /\ compareVersions (latest merged) (latest Sample.local_entry) >= 0
    /\ (forall v, Obj.has v (versions Sample.local_entry) = true ->
                  Obj.has v (versions merged) = true)
    /\ (forall v d,
          Obj.get v (versions Sample.local_entry) = Some d ->
          Obj.get v (versions merged) = Some d
          \/ (PreferRemote = PreferRemote
              /\ exists remoteEntry,
                   Obj.get "p" (prompts Sample.remote_doc) = Some remoteEntry
                   /\ remote_newer Sample.local_entry remoteEntry = true)).
Proof.
  exact (merge_keeps_local_content Sample.remote_doc Sample.remote_meta PreferRemote
           Sample.local_doc Sample.metadata "p" Sample.local_entry eq_refl eq_refl).
Defined.



(** X4. In a remote document whose prompt ids and version names are no
    names of members of [Object.prototype], when the local latest is newer
    than the remote latest, or equal to it, every strategy does the same: the pointer stays, the remote
    versions that are missing locally are added, no local version record
    changes, and the entry gives rise to no warning and to no update
    count. *)
Theorem merge_fills_gaps_when_remote_not_newer
  (remote : RemoteRegistry) (remoteMetadata : RemoteMetadata) (strategy : MergeStrategy)
  (reg : Registry) (meta : RegistryMetadata) (id : string)
  (localEntry remoteEntry : PromptEntry) :
  Obj.wfb (prompts remote) = true ->
  plain_document remote = true ->
  Obj.get id reg = Some localEntry ->
  Obj.get id (prompts remote) = Some remoteEntry ->
  compareVersions (latest localEntry) (latest remoteEntry) >= 0 ->
  exists merged,
    Obj.get id (reg_of (mergeRegistries remote remoteMetadata strategy reg meta)) = Some merged
    /\ latest merged = latest localEntry
    /\ (forall v,
          Obj.get v (versions merged)
          = match Obj.get v (versions localEntry) with
            | Some d => Some d
            | None => Obj.get v (versions remoteEntry)
            end)
    /\ entry_warnings strategy reg (id, remoteEntry) = []
    /\ is_update strategy reg (id, remoteEntry) = false.
Proof.
  intros W _ GL GR Ge. apply ObjFacts.wfb_wf in W.
  destruct (mergeRegistries_spec remote remoteMetadata strategy reg meta W) as (S1 & _).
  exists (merged_entry strategy id (Some localEntry) remoteEntry).
  split; [now rewrite S1, GR, GL|].
  assert (L : (compareVersions (latest localEntry) (latest remoteEntry) <? 0) = false) by lia.
  rewrite merged_entry_cases, L. unfold entry_warnings, is_update, remote_newer.
  cbn [fst snd]. rewrite GL, L.
  destruct (compareVersions (latest localEntry) (latest remoteEntry) >? 0);
    cbn [latest versions]; (repeat split);
    try (intro v; apply VersionLoops.add_missing_get);
    destruct strategy; reflexivity.
Qed.

Lemma merge_fills_gaps_when_remote_not_newer_witness :
  exists merged,
    Obj.get "p" (reg_of (mergeRegistries
                           {| prompts := [("p", Sample.local_entry)];
                              remoteSchemaVersion := None |}
                           Sample.remote_meta PreferRemote
                           [("p", Sample.newer_entry)] Sample.metadata)) = Some merged
    /\ latest merged = latest Sample.newer_entry
    /\ (forall v,
          Obj.get v (versions merged)
          = match Obj.get v (versions Sample.newer_entry) with
            | Some d => Some d
            | None => Obj.get v (versions Sample.local_entry)
            end)
    /\ entry_warnings PreferRemote [("p", Sample.newer_entry)] ("p", Sample.local_entry) = []
    /\ is_update PreferRemote [("p", Sample.newer_entry)] ("p", Sample.local_entry) = false.
Proof.
  refine (merge_fills_gaps_when_remote_not_newer
            {| prompts := [("p", Sample.local_entry)]; remoteSchemaVersion := None |}
            Sample.remote_meta PreferRemote [("p", Sample.newer_entry)] Sample.metadata
            "p" Sample.newer_entry Sample.local_entry eq_refl eq_refl eq_refl eq_refl _).
  vm_compute. discriminate.
Defined.

(** X5. The counters and the warnings are tied to the strategy: without
    [PreferRemote] the merge never counts an updated prompt, and with it the
    merge never warns. Each remote prompt is counted at most once, as new or
    as updated. *)
Theorem merge_counters_by_strategy
  (remote : RemoteRegistry) (remoteMetadata : RemoteMetadata) (strategy : MergeStrategy)
  (reg : Registry) (meta : RegistryMetadata) :
  remote_wfb remote = true ->
  let result := result_of (mergeRegistries remote remoteMetadata strategy reg meta) in
  (strategy <> PreferRemote -> MergeResult.updatedPrompts result = 0%nat)
  /\ (strategy = PreferRemote -> MergeResult.warnings result = [])
  /\ (MergeResult.newPrompts result + MergeResult.updatedPrompts result
      <= List.length (prompts remote))%nat
  /\ MergeResult.conflicts result = [].
Proof.
  intros W result. destruct (remote_wfb_spec remote W) as [Wp Wv].
  destruct (MergeFacts.fold_merge_step_spec remoteMetadata strategy (prompts remote)
              reg meta MergeResult.empty Wp) as (_ & S2 & S3 & S4).
  specialize (S4 Wv).
  fold (mergeRegistries remote remoteMetadata strategy reg meta) in S2, S3, S4.
  fold result in S2, S3, S4.
  cbn [MergeResult.newPrompts MergeResult.updatedPrompts MergeResult.warnings
         MergeResult.empty Nat.add app] in S2, S3, S4.
  repeat split.
  - intro N. rewrite S3. clear - N.
    induction (prompts remote) as [|kv l IH]; [reflexivity|]. cbn [filter].
    replace (is_update strategy reg kv) with false; [exact IH|].
    unfold is_update. destruct (Obj.get (fst kv) reg); destruct strategy; congruence.
  - intros ->. rewrite S4. clear.
    induction (prompts remote) as [|kv l IH]; [reflexivity|]. cbn [flat_map].
    rewrite IH. unfold entry_warnings. now destruct (Obj.get (fst kv) reg).
  - rewrite S2, S3. clear.
    induction (prompts remote) as [|kv l IH]; [cbn; lia|]. cbn [filter List.length].
    assert (E : negb (Obj.has (fst kv) reg) && is_update strategy reg kv = false).
    { unfold is_update, Obj.has. destruct (Obj.get (fst kv) reg); [reflexivity|].
      now destruct strategy. }
    destruct (negb (Obj.has (fst kv) reg)), (is_update strategy reg kv);
      cbn [List.length] in *; try discriminate; lia.
  - subst result. unfold mergeRegistries.
    assert (C : forall l st, MergeResult.conflicts (result_of st) = [] ->
                  MergeResult.conflicts
                    (result_of (fold_left (merge_step remoteMetadata strategy) l st)) = []).
    { induction l as [|[k re] l IH]; intros [[r m] res] H; [exact H|].
      cbn [fold_left]. apply IH. unfold merge_step, result_of in *. cbn [snd] in *.
      destruct (Obj.get k r) as [le|]; [|exact H].
      unfold merge_existing.
      destruct (compareVersions (latest le) (latest re) >? 0); [exact H|].
      destruct (compareVersions (latest le) (latest re) <? 0); [|exact H].
      destruct strategy; try exact H;
        destruct (add_newer_versions k (latest le) (versions re)
                    (versions le, MergeResult.warnings res)); exact H. }
    now apply C.
Qed.

Lemma merge_counters_by_strategy_witness :
  let result :=
    result_of (mergeRegistries Sample.remote_doc Sample.remote_meta PreferRemote
                 Sample.local_doc Sample.metadata) in
  (PreferRemote <> PreferRemote -> MergeResult.updatedPrompts result = 0%nat)
  /\ (PreferRemote = PreferRemote -> MergeResult.warnings result = [])
  /\ (MergeResult.newPrompts result + MergeResult.updatedPrompts result
      <= List.length (prompts Sample.remote_doc))%nat
  /\ MergeResult.conflicts result = [].
Proof.
  exact (merge_counters_by_strategy Sample.remote_doc Sample.remote_meta PreferRemote
           Sample.local_doc Sample.metadata eq_refl).
Defined.

Lemma compareVersions_ge_trans (a b c : string) :
  compareVersions a b >= 0 -> compareVersions b c >= 0 -> compareVersions a c >= 0.
Proof.
  intros H1 H2. pose proof (compareVersions_trans c b a) as T.
  rewrite (compareVersions_antisym c b), (compareVersions_antisym b a),
    (compareVersions_antisym c a) in T. lia.
Qed.

(** Of [registryMetadata] the merge touches the schema version only. *)
Lemma mergeRegistries_metadata
  (remote : RemoteRegistry) (remoteMetadata : RemoteMetadata) (strategy : MergeStrategy)
  (reg : Registry) (meta : RegistryMetadata) :
  let meta' := meta_of (mergeRegistries remote remoteMetadata strategy reg meta) in
  localVersion meta' = localVersion meta
  /\ lastSync meta' = lastSync meta
  /\ lastModified meta' = lastModified meta
  /\ syncUrl meta' = syncUrl meta
  /\ (schemaVersion meta' = schemaVersion meta
      \/ metaSchemaVersion remoteMetadata = Some (schemaVersion meta'))
  /\ compareVersions (schemaVersion meta') (schemaVersion meta) >= 0.
Proof.
  unfold mergeRegistries.
  assert (Step : forall m,
            let m' := update_schema_version remoteMetadata m in
            localVersion m' = localVersion m /\ lastSync m' = lastSync m
            /\ lastModified m' = lastModified m /\ syncUrl m' = syncUrl m
            /\ (schemaVersion m' = schemaVersion m
                \/ metaSchemaVersion remoteMetadata = Some (schemaVersion m'))
            /\ compareVersions (schemaVersion m') (schemaVersion m) >= 0).
  { intro m. unfold update_schema_version.
    destruct (metaSchemaVersion remoteMetadata) as [s|];
      [destruct (truthy_string s && (compareVersions s (schemaVersion m) >? 0)) eqn:E|];
      cbn [localVersion lastSync lastModified syncUrl schemaVersion];
      repeat split; auto; try (rewrite compareVersions_refl; lia).
    apply andb_true_iff in E. destruct E as [_ E]. lia. }
  assert (Loop : forall l st,
            let m' := meta_of (fold_left (merge_step remoteMetadata strategy) l st) in
            localVersion m' = localVersion (meta_of st) /\ lastSync m' = lastSync (meta_of st)
            /\ lastModified m' = lastModified (meta_of st) /\ syncUrl m' = syncUrl (meta_of st)
            /\ (schemaVersion m' = schemaVersion (meta_of st)
                \/ metaSchemaVersion remoteMetadata = Some (schemaVersion m'))
            /\ compareVersions (schemaVersion m') (schemaVersion (meta_of st)) >= 0).
  { induction l as [|[k re] l IH]; intros [[r m] res].
    - cbn. repeat split; auto. rewrite compareVersions_refl. lia.
    - cbn [fold_left]. specialize (IH (merge_step remoteMetadata strategy (r, m, res) (k, re))).
      cbn zeta in *. destruct IH as (I1 & I2 & I3 & I4 & I5 & I6).
      assert (M : meta_of (merge_step remoteMetadata strategy (r, m, res) (k, re)) = m
                  \/ meta_of (merge_step remoteMetadata strategy (r, m, res) (k, re))
                     = update_schema_version remoteMetadata m).
      { unfold merge_step, meta_of. destruct (Obj.get k r) as [le|]; [right|now left].
        now destruct (merge_existing strategy k le re res). }
      unfold meta_of at 2 4 6 8 10 12. cbn [fst snd].
      destruct M as [M|M]; rewrite M in *; [repeat split; assumption|].
      destruct (Step m) as (T1 & T2 & T3 & T4 & T5 & T6).
      repeat split; try congruence.
      + destruct I5 as [I5|I5]; [|now right]. rewrite I5. exact T5.
      + eapply compareVersions_ge_trans; eassumption. }
  exact (Loop (prompts remote) (reg, meta, MergeResult.empty)).
Qed.

(** X6. Of [registryMetadata] the merge touches the schema version only,
    and that version is afterwards the one it was or the one of the remote
    metadata, never one that compares lower than before. *)
Theorem merge_metadata_frame
  (remote : RemoteRegistry) (remoteMetadata : RemoteMetadata) (strategy : MergeStrategy)
  (reg : Registry) (meta : RegistryMetadata) :
  let meta' := meta_of (mergeRegistries remote remoteMetadata strategy reg meta) in
  localVersion meta' = localVersion meta
  /\ lastSync meta' = lastSync meta
  /\ lastModified meta' = lastModified meta
  /\ syncUrl meta' = syncUrl meta
  /\ (schemaVersion meta' = schemaVersion meta
      \/ metaSchemaVersion remoteMetadata = Some (schemaVersion meta'))
  /\ compareVersions (schemaVersion meta') (schemaVersion meta) >= 0.
Proof. apply mergeRegistries_metadata. Qed.

(* ================================================================== *)
(** * validateRemoteSchema *)

Lemma validate_entry_accepts (promptId : string) (entry : RemoteEntry) (e : PromptEntry) :
  validate_entry promptId entry = Return e ->
  entryLatest entry = Some (latest e)
  /\ entryVersions entry = Some (versions e)
  /\ latest e <> ""
  /\ exists r,
       Obj.get (latest e) (versions e) = Some r
       /\ description r <> None /\ prompt r <> None /\ category r <> None
       /\ tags r <> None /\ version r <> None.
Proof.
  unfold validate_entry.
  destruct entry as [|[l|] vs']; [discriminate| |discriminate].
  cbn [entryLatest entryVersions].
  destruct (truthy_string l) eqn:T; cbn [negb]; [|discriminate].
  destruct vs' as [vs|]; [|discriminate].
  destruct (Obj.get l vs) as [r|] eqn:G;
    [|destruct (String.eqb l "__proto__"); discriminate].
  destruct (missing_required_field r) eqn:M; [discriminate|].
  intro H. injection H as <-. cbn [latest versions].
  repeat split; [now apply truthy_string_spec|].
  exists r. split; [exact G|]. unfold missing_required_field in M.
  destruct (description r), (prompt r), (category r), (tags r), (version r);
    try discriminate; repeat split; discriminate.
Qed.

Lemma validate_entry_rejects (promptId : string) (entry : RemoteEntry) (e : Exn) :
  validate_entry promptId entry = Throw e ->
  match entry with
  | EntryNull =>
      e = JsError "TypeError" "Cannot read properties of null (reading 'latest')"
  | EntryObject _ _ =>
      exists rest, e = SyncError INVALID_SCHEMA ("Prompt " ++ promptId ++ rest)
  end.
Proof.
  destruct entry as [|[l|] vs']; cbn [validate_entry entryVersions].
  - intro H. injection H as <-. reflexivity.
  - unfold validate_entry. cbn [entryVersions].
    destruct (truthy_string l); cbn [negb];
      [destruct vs' as [vs|];
       [destruct (Obj.get l vs) as [r|];
        [destruct (missing_required_field r) as [f|]; [|discriminate]
        |destruct (String.eqb l "__proto__")]|]|];
      intro H; injection H as <-; eexists; reflexivity.
  - intro H. injection H as <-. eexists. reflexivity.
Qed.

Lemma validate_entries_accepts (entries : Obj.t RemoteEntry) :
  forall checked,
    validate_entries entries = Return checked ->
    Obj.keys checked = Obj.keys entries
    /\ (forall id e, In (id, e) checked ->
          exists raw, In (id, raw) entries /\ validate_entry id raw = Return e).
Proof.
  induction entries as [|[id raw] rest IH]; cbn [validate_entries]; intros checked H.
  - injection H as <-. split; [reflexivity|]. intros id e [].
  - destruct (validate_entry id raw) as [c|] eqn:V; [|discriminate].
    destruct (validate_entries rest) as [r|]; [|discriminate].
    injection H as <-. destruct (IH r eq_refl) as [K I]. split.
    + cbn [Obj.keys map fst]. f_equal. exact K.
    + intros id' e [E|Hin].
      * injection E as <- <-. exists raw. split; [now left|exact V].
      * destruct (I id' e Hin) as (raw' & Hr & Vr). exists raw'. split; [now right|exact Vr].
Qed.

(** X7. A document that [validateRemoteSchema] accepts is an object with a
    [prompts] object; the checked document lists the same prompt ids in the
    same order; every entry keeps its [latest] and [versions] as they came,
    [latest] is a non-empty string that names one of the versions, and that
    version record has the five required fields. *)
Theorem validateRemoteSchema_accepts (data : RemoteData) (checked : RemoteRegistry) :
  validateRemoteSchema data = Return checked ->
  exists entries,
    data = DataObject (Some entries) (remoteSchemaVersion checked)
    /\ Obj.keys (prompts checked) = Obj.keys entries
    /\ registry_okb (prompts checked) = true
    /\ (forall id e,
          In (id, e) (prompts checked) ->
          (exists raw,
             In (id, raw) entries
             /\ entryLatest raw = Some (latest e)
             /\ entryVersions raw = Some (versions e))
          /\ latest e <> ""
          /\ exists r,
               Obj.get (latest e) (versions e) = Some r
               /\ description r <> None /\ prompt r <> None /\ category r <> None
               /\ tags r <> None /\ version r <> None).
Proof.
  unfold validateRemoteSchema.
  destruct data as [|[entries|] sv]; try discriminate.
  destruct (validate_entries entries) as [ps|] eqn:V; [|discriminate].
  intro H. injection H as <-. cbn [prompts remoteSchemaVersion].
  destruct (validate_entries_accepts entries ps V) as [K I].
  exists entries. split; [reflexivity|]. split; [exact K|].
  assert (Each : forall id e, In (id, e) ps ->
            (exists raw,
               In (id, raw) entries
               /\ entryLatest raw = Some (latest e)
               /\ entryVersions raw = Some (versions e))
            /\ latest e <> ""
            /\ exists r,
                 Obj.get (latest e) (versions e) = Some r
                 /\ description r <> None /\ prompt r <> None /\ category r <> None
                 /\ tags r <> None /\ version r <> None).
  { intros id e Hin. destruct (I id e Hin) as (raw & Hr & Vr).
    destruct (validate_entry_accepts id raw e Vr) as (A & B & C & D).
    split; [exists raw; auto|]. split; assumption. }
  split; [|exact Each].
  apply registry_okb_spec. intros id e Hin.
  destruct (Each id e Hin) as (_ & _ & r & G & _).
  unfold entry_okb, Obj.has. now rewrite G.
Qed.

Lemma validateRemoteSchema_accepts_witness :
  exists entries,
    Sample.two_prompts = DataObject (Some entries) None
    /\ Obj.keys [("essay", Sample.entry "Write about {{topic}}" "writing");
                 ("review", Sample.entry "Review {{code}}" "coding")]
       = Obj.keys entries
    /\ registry_okb [("essay", Sample.entry "Write about {{topic}}" "writing");
                     ("review", Sample.entry "Review {{code}}" "coding")] = true
    /\ (forall id e,
          In (id, e) [("essay", Sample.entry "Write about {{topic}}" "writing");
                      ("review", Sample.entry "Review {{code}}" "coding")] ->
          (exists raw,
             In (id, raw) entries
             /\ entryLatest raw = Some (latest e)
             /\ entryVersions raw = Some (versions e))
          /\ latest e <> ""
          /\ exists r,
               Obj.get (latest e) (versions e) = Some r
               /\ description r <> None /\ prompt r <> None /\ category r <> None
               /\ tags r <> None /\ version r <> None).
Proof.
  exact (validateRemoteSchema_accepts Sample.two_prompts
           {| prompts := [("essay", Sample.entry "Write about {{topic}}" "writing");
                          ("review", Sample.entry "Review {{code}}" "coding")];
              remoteSchemaVersion := None |} eq_refl).
Defined.

Lemma validate_entries_rejects (entries : Obj.t RemoteEntry) (e : Exn) :
  validate_entries entries = Throw e ->
  exists id bad, In (id, bad) entries /\ validate_entry id bad = Throw e.
Proof.
  induction entries as [|[id raw] rest IH]; cbn [validate_entries]; [discriminate|].
  destruct (validate_entry id raw) as [c|e0] eqn:Ve.
  - destruct (validate_entries rest) as [r|e1]; [discriminate|].
    intro H. injection H as <-. destruct (IH eq_refl) as (id' & bad & I & V).
    exists id', bad. split; [now right|exact V].
  - intro H. injection H as <-. exists id, raw. split; [now left|exact Ve].
Qed.

(** X8. [validateRemoteSchema] fails fast, and with [INVALID_SCHEMA] for
    everything but a [null] entry: what it throws is a [SyncError] of that
    code, or, at an entry that is [null], the [TypeError] of reading its
    [latest]. When the entries before some entry pass their checks and that
    entry does not, the error thrown is the one of that entry (for an entry
    other than [null], a message that starts by naming its prompt id); the
    entries after it are not looked at. *)
Theorem validateRemoteSchema_rejects :
  (forall data e,
     validateRemoteSchema data = Throw e ->
     (exists m, e = SyncError INVALID_SCHEMA m)
     \/ (e = JsError "TypeError" "Cannot read properties of null (reading 'latest')"
         /\ exists entries sv id,
              data = DataObject (Some entries) sv /\ In (id, EntryNull) entries))
  /\ (forall good id bad rest sv e,
        (forall k raw, In (k, raw) good -> exists c, validate_entry k raw = Return c) ->
        validate_entry id bad = Throw e ->
        validateRemoteSchema (DataObject (Some (good ++ (id, bad) :: rest)%list) sv) = Throw e
        /\ (bad <> EntryNull ->
            exists text, e = SyncError INVALID_SCHEMA ("Prompt " ++ id ++ text))).
Proof.
  assert (First : forall good id bad rest e,
            (forall k raw, In (k, raw) good -> exists c, validate_entry k raw = Return c) ->
            validate_entry id bad = Throw e ->
            validate_entries (good ++ (id, bad) :: rest)%list = Throw e).
  { induction good as [|[k raw] good IH]; intros id bad rest e G B; cbn [app validate_entries].
    - now rewrite B.
    - destruct (G k raw (or_introl eq_refl)) as [c Hc]. rewrite Hc.
      rewrite (IH id bad rest e); [reflexivity| |exact B].
      intros k' raw' Hin. apply G. now right. }
  split.
  - intros data e. unfold validateRemoteSchema.
    destruct data as [|[entries|] sv]; try (intro H; injection H as <-; left; eauto).
    destruct (validate_entries entries) as [ps|e'] eqn:V; [discriminate|].
    intro H. injection H as <-.
    destruct (validate_entries_rejects entries e' V) as (id & bad & I & B).
    pose proof (validate_entry_rejects id bad e' B) as R.
    destruct bad as [|l vs].
    + right. split; [exact R|]. exists entries, sv, id. now split.
    + left. destruct R as [t ->]. eauto.
  - intros good id bad rest sv e G B. split.
    + unfold validateRemoteSchema. now rewrite (First good id bad rest e G B).
    + intro N. pose proof (validate_entry_rejects id bad e B) as R.
      destruct bad as [|l vs]; [now elim N|exact R].
Qed.

Lemma validateRemoteSchema_rejects_witness :
  let good := [("essay", Sample.remote_entry "Write" "writing")] in
  let e :=
    SyncError INVALID_SCHEMA
      ("Prompt " ++ "p" ++ " missing valid " ++ dq ++ "latest" ++ dq ++ " version") in
  validateRemoteSchema
    (DataObject (Some (good ++ ("p", EntryObject None None) :: [("q", EntryNull)])%list) None)
  = Throw e
  /\ (EntryObject None None <> EntryNull ->
      exists text, e = SyncError INVALID_SCHEMA ("Prompt " ++ "p" ++ text)).
Proof.
  refine (proj2 validateRemoteSchema_rejects
            [("essay", Sample.remote_entry "Write" "writing")] "p" (EntryObject None None)
            [("q", EntryNull)] None _ _ _).
  - intros k raw [H|[]]. injection H as <- <-. eexists. reflexivity.
  - reflexivity.
Defined.

(** A document with a [null] entry after a good one, and a document whose
    entry points to the version ["__proto__"]. *)
Lemma validateRemoteSchema_rejects_examples :
  validateRemoteSchema
    (DataObject (Some [("essay", Sample.remote_entry "Write" "writing"); ("p", EntryNull)])
       None)
  = Throw (JsError "TypeError" "Cannot read properties of null (reading 'latest')")
  /\ validateRemoteSchema
       (DataObject
          (Some [("p", EntryObject (Some "__proto__")
                         (Some [("1.0.0", Sample.record "Write" "writing" None)]))])
          None)
     = Throw (SyncError INVALID_SCHEMA "Prompt p@__proto__ missing required field: description")
  /\ validateRemoteSchema
       (DataObject
          (Some [("p", EntryObject (Some "constructor")
                         (Some [("1.0.0", Sample.record "Write" "writing" None)]))])
          None)
     = Throw (SyncError INVALID_SCHEMA
                ("Prompt p latest version " ++ dq ++ "constructor" ++ dq ++ " not found")).
Proof. repeat split. Qed.

(* ================================================================== *)
(** * isTrustedDomain *)

Lemma drop_app_length (pre p : string) : Str.drop (String.length pre) (pre ++ p) = p.
Proof. induction pre as [|c pre IH]; [reflexivity|exact IH]. Qed.

Lemma drop_is_suffix (n : nat) : forall s, exists pre, s = pre ++ Str.drop n s.
Proof.
  induction n as [|n IH]; intro s.
  - exists "". reflexivity.
  - destruct s as [|c s]; cbn [Str.drop].
    + exists "". reflexivity.
    + destruct (IH s) as [pre E]. exists (String c pre). cbn [String.append]. now f_equal.
Qed.

Lemma length_append (a b : string) :
  String.length (a ++ b) = (String.length a + String.length b)%nat.
Proof. induction a as [|c a IH]; cbn [String.append String.length]; [reflexivity|now rewrite IH]. Qed.

(** [s.endsWith(p)] holds exactly of the strings that end in [p]. *)
Lemma endsWith_spec (p s : string) :
  Str.endsWith p s = true <-> exists pre, s = pre ++ p.
Proof.
  unfold Str.endsWith. rewrite andb_true_iff, Nat.leb_le, String.eqb_eq. split.
  - intros [_ E]. destruct (drop_is_suffix (String.length s - String.length p) s) as [pre H].
    exists pre. now rewrite E in H.
  - intros [pre ->]. rewrite length_append. split; [lia|].
    replace (String.length pre + String.length p - String.length p)%nat
      with (String.length pre) by lia.
    apply drop_app_length.
Qed.

(** X9. [isTrustedDomain] accepts a URL exactly when it parses, its scheme
    is HTTPS whenever [requireHttps] is set, and its host name is one of
    the trusted domains or ends with a dot followed by one of them. *)
Theorem isTrustedDomain_spec (P : Platform) (config : Config.t) (url : string) :
  isTrustedDomain P config url = true
  <-> exists parsed,
        URL P url = Some parsed
        /\ (Config.requireHttps (Config.security config) = true ->
            protocol parsed = "https:")
        /\ exists domain,
             In domain (Config.trustedDomains (Config.security config))
             /\ (hostname parsed = domain
                 \/ exists sub, hostname parsed = sub ++ "." ++ domain).
Proof.
  unfold isTrustedDomain. destruct (URL P url) as [u|].
  - split.
    + intro H. exists u. split; [reflexivity|].
      destruct (Config.requireHttps (Config.security config)
                && negb (String.eqb (protocol u) "https:")) eqn:E; [discriminate|].
      split.
      * intro R. rewrite R in E. cbn [andb] in E. apply negb_false_iff in E.
        now apply String.eqb_eq.
      * apply existsb_exists in H. destruct H as (d & Hd & M). exists d. split; [exact Hd|].
        apply orb_true_iff in M. destruct M as [M|M].
        -- left. now apply String.eqb_eq.
        -- right. now apply endsWith_spec.
    + intros (parsed & E & S & d & Hd & M). injection E as <-.
      assert (G : Config.requireHttps (Config.security config)
                  && negb (String.eqb (protocol u) "https:") = false).
      { destruct (Config.requireHttps (Config.security config)); [|reflexivity].
        rewrite (S eq_refl). reflexivity. }
      rewrite G. apply existsb_exists. exists d. split; [exact Hd|].
      apply orb_true_iff. destruct M as [M|M].
      * left. now apply String.eqb_eq.
      * right. now apply endsWith_spec.
  - split; [discriminate|]. intros (parsed & E & _). discriminate.
Qed.

(* ================================================================== *)
(** * Further properties of fetchRemoteRegistry *)

Lemma sleeps_emit (e : Event) (w : World) :
  sleeps (events (emit e w))
  = (sleeps (events w) ++ match e with Sleep ms => [ms] | _ => [] end)%list.
Proof.
  unfold sleeps, emit. cbn [events]. rewrite flat_map_app. cbn [flat_map].
  now rewrite app_nil_r.
Qed.

Lemma sleeps_reportProgress options stage percent w :
  sleeps (events (reportProgress options stage percent w)) = sleeps (events w).
Proof.
  unfold reportProgress. destruct (SyncOptions.progressCallback options); [|reflexivity].
  rewrite sleeps_emit. apply app_nil_r.
Qed.

Lemma reportProgress_frame options stage percent w :
  registry (reportProgress options stage percent w) = registry w
  /\ registryMetadata (reportProgress options stage percent w) = registryMetadata w.
Proof. unfold reportProgress. now destruct (SyncOptions.progressCallback options). Qed.

Section FetchFacts.
Variables (P : Platform) (config : Config.t) (url : string) (options : SyncOptions.t).

Local Abbreviation retries := (Config.retryAttempts (Config.policies config)).

(** The loop never touches the registry or its metadata. *)
Lemma fetch_loop_frame remaining : forall attempt lastError w,
  let r := fetch_loop P config url options remaining attempt lastError w in
  registry (snd r) = registry w /\ registryMetadata (snd r) = registryMetadata w.
Proof.
  induction remaining as [|remaining IH]; intros attempt lastError w; cbn [fetch_loop];
    [now split|].
  destruct (reportProgress_frame options "fetching" (fetch_percent attempt retries) w)
    as [R1 R2].
  destruct (attempt_outcome P config url attempt) as [data|e]; cbn [snd].
  - unfold emit. cbn [registry registryMetadata]. now split.
  - match goal with
    | |- context [fetch_loop P config url options remaining (S attempt) (Some e) ?w3] =>
        destruct (IH (S attempt) (Some e) w3) as [I1 I2]; cbn zeta;
        rewrite I1, I2
    end.
    destruct (attempt <? retries)%nat; unfold emit; cbn [registry registryMetadata];
      now split.
Qed.

(** [n] failed attempts, none of them the last one, then an attempt that
    delivers the document. *)
Lemma fetch_loop_succeeds_after n data : forall remaining attempt lastError w,
  (n < remaining)%nat ->
  (attempt + n <= retries)%nat ->
  (forall j, (attempt <= j < attempt + n)%nat ->
             exists e, attempt_outcome P config url j = inr e) ->
  attempt_outcome P config url (attempt + n) = inl data ->
  let r := fetch_loop P config url options remaining attempt lastError w in
  fst r = inl data
  /\ fetch_calls (events (snd r)) = (fetch_calls (events w) ++ seq attempt (S n))%list
  /\ sleeps (events (snd r)) = (sleeps (events w) ++ map backoff_delay (seq attempt n))%list.
Proof.
  induction n as [|n IH]; intros remaining attempt lastError w Hr Hb Hfail Hok;
    (destruct remaining as [|remaining]; [lia|]); cbn [fetch_loop].
  - rewrite Nat.add_0_r in Hok. rewrite Hok. cbn [fst snd seq map].
    rewrite fetch_calls_emit, fetch_calls_reportProgress, sleeps_emit,
      sleeps_reportProgress, app_nil_r. repeat split.
  - destruct (Hfail attempt ltac:(lia)) as [e He]. rewrite He.
    assert (L : (attempt <? retries)%nat = true) by (apply Nat.ltb_lt; lia).
    rewrite L.
    match goal with
    | |- context [fetch_loop P config url options remaining (S attempt) (Some e) ?w3] =>
        destruct (IH remaining (S attempt) (Some e) w3) as (I1 & I2 & I3);
          [lia|lia|intros j Hj; apply Hfail; lia
          |replace (S attempt + n)%nat with (attempt + S n)%nat by lia; exact Hok|]
    end.
    cbn zeta in *. rewrite I1, I2, I3.
    rewrite !fetch_calls_emit, fetch_calls_reportProgress, !sleeps_emit,
      sleeps_reportProgress.
    cbn [seq map]. rewrite !app_nil_r, <- !app_assoc. repeat split.
Qed.

End FetchFacts.

(** X10. A fetch of a trusted URL whose first [k - 1] attempts fail and
    whose attempt [k] (within the configured number) delivers a document
    returns that document: it makes exactly the attempts 1 to [k], waits
    the backoff delay after each failed one, and leaves the registry and
    its metadata alone. *)
Theorem fetch_returns_first_success
  (P : Platform) (config : Config.t) (url : string) (options : SyncOptions.t)
  (w : World) (k : nat) (data : RemoteData) :
  isTrustedDomain P config url = true ->
  (1 <= k <= Config.retryAttempts (Config.policies config))%nat ->
  (forall j, (1 <= j < k)%nat -> exists e, attempt_outcome P config url j = inr e) ->
  attempt_outcome P config url k = inl data ->
  let run := fetchRemoteRegistry P config url options w in
  fst run = Return data
  /\ fetch_calls (events (snd run)) = (fetch_calls (events w) ++ seq 1 k)%list
  /\ sleeps (events (snd run))
     = (sleeps (events w) ++ map backoff_delay (seq 1 (k - 1)))%list
  /\ registry (snd run) = registry w
  /\ registryMetadata (snd run) = registryMetadata w.
Proof.
  intros T Hk Hfail Hok run. destruct k as [|k]; [lia|].
  assert (Hfail' : forall j, (1 <= j < 1 + k)%nat ->
                     exists e, attempt_outcome P config url j = inr e)
    by (intros j Hj; apply Hfail; lia).
  destruct (fetch_loop_succeeds_after P config url options k data
              (Config.retryAttempts (Config.policies config)) 1 None w
              ltac:(lia) ltac:(lia) Hfail' Hok)
    as (S1 & S2 & S3).
  destruct (fetch_loop_frame P config url options
              (Config.retryAttempts (Config.policies config)) 1 None w) as [F1 F2].
  subst run. unfold fetchRemoteRegistry. rewrite T. cbn [negb].
  destruct (fetch_loop P config url options
              (Config.retryAttempts (Config.policies config)) 1 None w) as [o w'].
  cbn [fst snd] in *. subst o. cbn [fst snd].
  replace (S k - 1)%nat with k by lia. repeat split; assumption.
Qed.

Lemma fetch_returns_first_success_witness :
  let P := Sample.platform (Sample.html_then_json Sample.two_prompts) None in
  let run :=
    fetchRemoteRegistry P DEFAULT_CONFIG Sample.registry_url SyncOptions.default
      (Sample.world Sample.local_doc) in
  fst run = Return Sample.two_prompts
  /\ fetch_calls (events (snd run)) = ([] ++ seq 1 2)%list
  /\ sleeps (events (snd run)) = ([] ++ map backoff_delay (seq 1 (2 - 1)))%list
  /\ registry (snd run) = Sample.local_doc
  /\ registryMetadata (snd run) = Sample.metadata.
Proof.
  apply (fetch_returns_first_success
           (Sample.platform (Sample.html_then_json Sample.two_prompts) None)
           DEFAULT_CONFIG Sample.registry_url SyncOptions.default
           (Sample.world Sample.local_doc) 2 Sample.two_prompts).
  - reflexivity.
  - cbn. lia.
  - intros j Hj. assert (j = 1%nat) by lia. subst j. eexists. reflexivity.
  - reflexivity.
Defined.

(** X11. Whatever the network does, one call of [fetchRemoteRegistry]
    makes the attempts 1, 2, ... in order and never more than the
    configured number; it never makes one for an untrusted URL; it never
    changes the registry or its metadata; and with zero attempts configured
    a trusted URL ends in the [TypeError] of reading [lastError.message]. *)
Theorem fetch_attempts_are_bounded
  (P : Platform) (config : Config.t) (url : string) (options : SyncOptions.t) (w : World) :
  let run := fetchRemoteRegistry P config url options w in
  (exists m,
     (m <= Config.retryAttempts (Config.policies config))%nat
     /\ (isTrustedDomain P config url = false -> m = 0%nat)
     /\ fetch_calls (events (snd run)) = (fetch_calls (events w) ++ seq 1 m)%list)
  /\ registry (snd run) = registry w
  /\ registryMetadata (snd run) = registryMetadata w
  /\ (isTrustedDomain P config url = true ->
      Config.retryAttempts (Config.policies config) = 0%nat ->
      run = (Throw (JsError "TypeError"
                      "Cannot read properties of undefined (reading 'message')"), w)).
Proof.
  cbn zeta. unfold fetchRemoteRegistry.
  destruct (isTrustedDomain P config url) eqn:T; cbn [negb].
  - destruct (fetch_loop_calls P config url options
                (Config.retryAttempts (Config.policies config)) 1 None w)
      as (m & M1 & _ & M3).
    destruct (fetch_loop_frame P config url options
                (Config.retryAttempts (Config.policies config)) 1 None w) as [F1 F2].
    split; [|split; [|split]].
    + exists m. split; [exact M1|]. split; [discriminate|].
      destruct (fetch_loop P config url options
                  (Config.retryAttempts (Config.policies config)) 1 None w)
        as [[data|[[c msg|n msg]|]] w']; exact M3.
    + destruct (fetch_loop P config url options
                  (Config.retryAttempts (Config.policies config)) 1 None w)
        as [[data|[[c msg|n msg]|]] w']; exact F1.
    + destruct (fetch_loop P config url options
                  (Config.retryAttempts (Config.policies config)) 1 None w)
        as [[data|[[c msg|n msg]|]] w']; exact F2.
    + intros _ Z. rewrite Z. reflexivity.
  - split; [|split; [|split]]; try (destruct (URL P url); reflexivity); [|discriminate].
    exists 0%nat. split; [lia|]. split; [reflexivity|].
    cbn [seq]. rewrite app_nil_r. destruct (URL P url); reflexivity.
Qed.

(** X12. When every configured attempt fails, the caller observes the
    error of the last attempt: a [SyncError] as it is, any other error as a
    [NETWORK_ERROR] carrying its message ("Network request failed" when the
    message is empty). All the attempts were made. *)
Theorem fetch_exhausted_throws_last_error
  (P : Platform) (config : Config.t) (url : string) (options : SyncOptions.t)
  (w : World) (last : Exn) :
  isTrustedDomain P config url = true ->
  (1 <= Config.retryAttempts (Config.policies config))%nat ->
  (forall j, (1 <= j <= Config.retryAttempts (Config.policies config))%nat ->
             exists e, attempt_outcome P config url j = inr e) ->
  attempt_outcome P config url (Config.retryAttempts (Config.policies config)) = inr last ->
  let run := fetchRemoteRegistry P config url options w in
  fst run
  = Throw (match last with
           | SyncError code message => SyncError code message
           | JsError _ message =>
               SyncError NETWORK_ERROR (or_string (Some message) "Network request failed")
           end)
  /\ fetch_calls (events (snd run))
     = (fetch_calls (events w)
        ++ seq 1 (Config.retryAttempts (Config.policies config)))%list.
Proof.
  intros T Hn Hfail Hlast run.
  destruct (fetch_loop_failed_prefix P config url options
              (Config.retryAttempts (Config.policies config))
              (Config.retryAttempts (Config.policies config)) 1 None w (le_n _))
    as (w1 & E1 & C1).
  { intros j Hj. apply Hfail. lia. }
  subst run. unfold fetchRemoteRegistry. rewrite T. cbn [negb]. rewrite E1, Nat.sub_diag.
  destruct (Config.retryAttempts (Config.policies config)) as [|m]; [lia|].
  cbn [Nat.add] in *. rewrite Hlast. cbn [fetch_loop].
  destruct last; cbn [fst snd]; split; auto.
Qed.

Lemma fetch_exhausted_throws_last_error_witness :
  let P := Sample.platform (fun _ _ => FetchRejected "TypeError" "fetch failed") None in
  let run :=
    fetchRemoteRegistry P DEFAULT_CONFIG Sample.registry_url SyncOptions.default
      (Sample.world []) in
  fst run = Throw (SyncError NETWORK_ERROR "fetch failed")
  /\ fetch_calls (events (snd run)) = ([] ++ seq 1 3)%list.
Proof.
  apply (fetch_exhausted_throws_last_error
           (Sample.platform (fun _ _ => FetchRejected "TypeError" "fetch failed") None)
           DEFAULT_CONFIG Sample.registry_url SyncOptions.default (Sample.world [])
           (JsError "TypeError" "fetch failed")).
  - reflexivity.
  - cbn. lia.
  - intros j _. eexists. reflexivity.
  - reflexivity.
Defined.

(** The backoff delay doubles from one second and is capped at
    thirty: for every attempt from 1 on it lies between 1000 and 30000
    milliseconds, it is [1000 * 2^(attempt-1)] up to the fifth attempt and
    30000 from the sixth on, and it never decreases with the attempt. *)
Theorem backoff_delay_bounds :
  (forall attempt, (1 <= attempt)%nat -> 1000 <= backoff_delay attempt <= 30000)
  /\ (forall attempt, (1 <= attempt <= 5)%nat ->
        backoff_delay attempt = 1000 * 2 ^ (Z.of_nat attempt - 1))
  /\ (forall attempt, (6 <= attempt)%nat -> backoff_delay attempt = 30000)
  /\ (forall a b, (1 <= a <= b)%nat -> backoff_delay a <= backoff_delay b).
Proof.
  assert (Pow : forall a b, (1 <= a <= b)%nat ->
                  1 <= 2 ^ (Z.of_nat a - 1) <= 2 ^ (Z.of_nat b - 1)).
  { intros a b H. split.
    - assert (0 < 2 ^ (Z.of_nat a - 1)) by (apply Z.pow_pos_nonneg; lia). lia.
    - apply Z.pow_le_mono_r; lia. }
  unfold backoff_delay. split; [|split; [|split]].
  - intros attempt H. destruct (Pow attempt attempt ltac:(lia)). lia.
  - intros attempt H.
    assert (E : (attempt = 1 \/ attempt = 2 \/ attempt = 3 \/ attempt = 4 \/ attempt = 5)%nat)
      by lia.
    destruct E as [->|[->|[->|[->| ->]]]]; reflexivity.
  - intros attempt H. destruct (Pow 6%nat attempt ltac:(lia)) as [_ H6].
    change (2 ^ (Z.of_nat 6 - 1)) with 32 in H6. lia.
  - intros a b H. destruct (Pow a b H). lia.
Qed.

(** An untrusted URL never reaches the network and leaves the world
    as it was; when it parses, what is thrown is the [CERTIFICATE_ERROR]
    naming its host. *)
Theorem untrusted_url_makes_no_request
  (P : Platform) (config : Config.t) (url : string) (options : SyncOptions.t) (w : World) :
  isTrustedDomain P config url = false ->
  snd (fetchRemoteRegistry P config url options w) = w
  /\ (forall u, URL P url = Some u ->
        fst (fetchRemoteRegistry P config url options w)
        = Throw (SyncError CERTIFICATE_ERROR ("Untrusted domain: " ++ hostname u))).
Proof.
  intro H. destruct (untrusted_url_rejected P config url options w H) as (A & B & _).
  now split.
Qed.

Lemma untrusted_url_makes_no_request_witness :
  let P := Sample.platform (Sample.always_json Sample.two_prompts) None in
  let url := "http://raw.githubusercontent.com/registry.json" in
  snd (fetchRemoteRegistry P DEFAULT_CONFIG url SyncOptions.default (Sample.world []))
  = Sample.world []
  /\ (forall u, URL P url = Some u ->
        fst (fetchRemoteRegistry P DEFAULT_CONFIG url SyncOptions.default (Sample.world []))
        = Throw (SyncError CERTIFICATE_ERROR ("Untrusted domain: " ++ hostname u))).
Proof.
  exact (untrusted_url_makes_no_request
           (Sample.platform (Sample.always_json Sample.two_prompts) None) DEFAULT_CONFIG
           "http://raw.githubusercontent.com/registry.json" SyncOptions.default
           (Sample.world []) eq_refl).
Defined.

(* ================================================================== *)
(** * Further properties of sync *)

Module SyncFacts.

Lemma merge_into_fields remote remoteMetadata options result w :
  let r := merge_into remote remoteMetadata options result w in
  let st :=
    mergeRegistries remote remoteMetadata (sync_strategy options)
      (registry w) (registryMetadata w) in
  events (snd r) = events w
  /\ registry (snd r) = reg_of st
  /\ registryMetadata (snd r) = meta_of st
  /\ SyncResult.errors (fst r) = SyncResult.errors result
  /\ SyncResult.success (fst r) = SyncResult.success result
  /\ SyncResult.localVersion (fst r) = SyncResult.localVersion result
  /\ SyncResult.remoteVersion (fst r) = SyncResult.remoteVersion result
  /\ SyncResult.newPrompts (fst r) = MergeResult.newPrompts (result_of st)
  /\ SyncResult.updatedPrompts (fst r) = MergeResult.updatedPrompts (result_of st)
  /\ SyncResult.warnings (fst r) = MergeResult.warnings (result_of st).
Proof.
  unfold merge_into.
  destruct (mergeRegistries remote remoteMetadata (sync_strategy options)
              (registry w) (registryMetadata w)) as [[reg meta] mr].
  cbn. repeat split.
Qed.

(** The events a progress report adds. *)
Lemma reportProgress_events options stage percent w :
  exists reports,
    events (reportProgress options stage percent w) = (events w ++ reports)%list
    /\ Forall (fun e => exists s p, e = Progress s p) reports.
Proof.
  unfold reportProgress. destruct (SyncOptions.progressCallback options).
  - exists [Progress stage percent]. split; [reflexivity|]. constructor; eauto.
  - exists []. split; [now rewrite app_nil_r|constructor].
Qed.

Lemma lastSync_frame_merge remote remoteMetadata strategy reg meta :
  let meta' := meta_of (mergeRegistries remote remoteMetadata strategy reg meta) in
  lastSync meta' = lastSync meta /\ syncUrl meta' = syncUrl meta.
Proof.
  destruct (mergeRegistries_metadata remote remoteMetadata strategy reg meta)
    as (_ & A & _ & B & _). now split.
Qed.

Section Sync.
Variables (P : Platform) (config : Config.t) (url : string) (options : SyncOptions.t).

(** What the network branch leaves untouched, and when it writes. *)
Lemma sync_network_facts result w :
  let r := sync_network P config url options result w in
  SyncResult.errors (snd (fst r)) = SyncResult.errors result
  /\ SyncResult.success (snd (fst r)) = SyncResult.success result
  /\ SyncResult.localVersion (snd (fst r)) = SyncResult.localVersion result
  /\ lastSync (registryMetadata (snd r)) = lastSync (registryMetadata w)
  /\ syncUrl (registryMetadata (snd r)) = syncUrl (registryMetadata w)
  /\ (In RegistryWrite (events (snd r)) ->
      In RegistryWrite (events w)
      \/ (0 < SyncResult.newPrompts (snd (fst r))
              + SyncResult.updatedPrompts (snd (fst r)))%nat).
Proof.
  unfold sync_network.
  destruct (reportProgress_frame options "fetching" 25 w) as [R1 R2].
  pose proof (fetch_attempts_frame := fetch_loop_frame).
  assert (F : let run := fetchRemoteRegistry P config url options
                           (reportProgress options "fetching" 25 w) in
              registryMetadata (snd run) = registryMetadata w
              /\ (In RegistryWrite (events (snd run)) -> In RegistryWrite (events w))).
  { cbn zeta. split.
    - unfold fetchRemoteRegistry. destruct (negb (isTrustedDomain P config url)).
      + destruct (URL P url); exact R2.
      + destruct (fetch_loop_frame P config url options
                    (Config.retryAttempts (Config.policies config)) 1 None
                    (reportProgress options "fetching" 25 w)) as [_ F2].
        destruct (fetch_loop P config url options
                    (Config.retryAttempts (Config.policies config)) 1 None
                    (reportProgress options "fetching" 25 w))
          as [[data|[[c msg|n msg]|]] w']; cbn [snd] in *; congruence.
    - intro H. apply SaveFacts.fetchRemoteRegistry_other in H.
      now apply SaveFacts.reportProgress_other in H. }
  cbn zeta in F.
  destruct (fetchRemoteRegistry P config url options
              (reportProgress options "fetching" 25 w)) as [[data|e] w2];
    cbn [fst snd] in *; destruct F as [F1 F2].
  2:{ rewrite F1. repeat split. intro H. left. auto. }
  destruct (reportProgress_frame options "validating" 50 w2) as [_ V2].
  destruct (validateRemoteSchema data) as [remote|e]; cbn [fst snd].
  2:{ rewrite V2, F1. repeat split. intro H. left.
      apply SaveFacts.reportProgress_other in H. auto. }
  set (w6 := reportProgress options "merging" 75
               (saveToCache url
                  (reportProgress options "comparing" 60
                     (reportProgress options "validating" 50 w2)))).
  assert (M6 : registryMetadata w6 = registryMetadata w).
  { subst w6. rewrite (proj2 (reportProgress_frame _ _ _ _)). unfold saveToCache, emit.
    cbn [registryMetadata]. rewrite (proj2 (reportProgress_frame _ _ _ _)). congruence. }
  assert (N6 : In RegistryWrite (events w6) -> In RegistryWrite (events w)).
  { intro H. subst w6. apply SaveFacts.reportProgress_other in H.
    unfold saveToCache in H. apply SaveFacts.emit_other in H; [|discriminate].
    do 2 apply SaveFacts.reportProgress_other in H. auto. }
  pose proof (merge_into_fields remote
                {| metaSchemaVersion := Some (or_string (remoteSchemaVersion remote) "2.0") |}
                options
                (set_remoteVersion (or_string (remoteSchemaVersion remote) "2.0") result)
                w6) as M.
  cbn zeta in M.
  destruct (lastSync_frame_merge remote
              {| metaSchemaVersion := Some (or_string (remoteSchemaVersion remote) "2.0") |}
              (sync_strategy options) (registry w6) (registryMetadata w6)) as [LS SU].
  destruct (merge_into remote
              {| metaSchemaVersion := Some (or_string (remoteSchemaVersion remote) "2.0") |}
              options
              (set_remoteVersion (or_string (remoteSchemaVersion remote) "2.0") result)
              w6) as [result2 w7].
  cbn [fst snd] in M. destruct M as (E7 & _ & M7 & A & B & C & _).
  cbn [set_remoteVersion SyncResult.errors SyncResult.success SyncResult.localVersion] in A, B, C.
  rewrite <- M7, M6 in LS, SU.
  destruct (reportProgress_frame options "updating" 90 w7) as [_ U2].
  destruct ((0 <? SyncResult.newPrompts result2)
            || (0 <? SyncResult.updatedPrompts result2))%nat eqn:Cnt.
  - assert (Pos : (0 < SyncResult.newPrompts result2
                       + SyncResult.updatedPrompts result2)%nat).
    { apply orb_true_iff in Cnt. destruct Cnt as [H|H]; apply Nat.ltb_lt in H; lia. }
    unfold saveLocalRegistry.
    destruct (writeRegistryFile P); cbn [fst snd registryMetadata set_lastModified
                                           lastSync syncUrl emit];
      rewrite ?U2; repeat split; auto; try congruence.
  - cbn [fst snd]. rewrite U2. repeat split; auto; try congruence.
    intro H. left. apply SaveFacts.reportProgress_other in H. rewrite E7 in H. auto.
Qed.

Lemma sync_cached_facts result w :
  let t := sync_cached P url options result w in
  SyncResult.errors (fst (fst t)) = SyncResult.errors result
  /\ SyncResult.success (fst (fst t)) = SyncResult.success result
  /\ SyncResult.localVersion (fst (fst t)) = SyncResult.localVersion result
  /\ lastSync (registryMetadata (snd (fst t))) = lastSync (registryMetadata w)
  /\ syncUrl (registryMetadata (snd (fst t))) = syncUrl (registryMetadata w)
  /\ (In RegistryWrite (events (snd (fst t))) -> In RegistryWrite (events w)).
Proof.
  unfold sync_cached.
  destruct (negb (SyncOptions.force options)); [|cbn; repeat split; auto].
  destruct (loadFromCache P 0 url) as [cached|]; [|cbn; repeat split; auto].
  pose proof (merge_into_fields cached {| metaSchemaVersion := Some "2.0" |} options result
                (reportProgress options "fetching" 100 w)) as M. cbn zeta in M.
  destruct (lastSync_frame_merge cached {| metaSchemaVersion := Some "2.0" |}
              (sync_strategy options)
              (registry (reportProgress options "fetching" 100 w))
              (registryMetadata (reportProgress options "fetching" 100 w))) as [LS SU].
  destruct (merge_into cached {| metaSchemaVersion := Some "2.0" |} options result
              (reportProgress options "fetching" 100 w)) as [r0 w0].
  cbn [fst snd] in *. destruct M as (E & _ & M & A & B & C & _).
  pose proof (proj2 (reportProgress_frame options "fetching" 100 w)) as RP.
  rewrite <- M, RP in LS, SU.
  repeat split; auto.
  intro H. rewrite E in H. now apply SaveFacts.reportProgress_other in H.
Qed.

(** The [try] block: what it throws leaves the result as it was; what it
    completes has [success] set and the metadata stamped. *)
Lemma sync_try_facts result w :
  let r := sync_try P config url options result w in
  SyncResult.errors (snd (fst r)) = SyncResult.errors result
  /\ SyncResult.localVersion (snd (fst r)) = SyncResult.localVersion result
  /\ syncUrl (registryMetadata (snd r)) = syncUrl (registryMetadata w)
  /\ (In RegistryWrite (events (snd r)) ->
      In RegistryWrite (events w)
      \/ (0 < SyncResult.newPrompts (snd (fst r))
              + SyncResult.updatedPrompts (snd (fst r)))%nat)
  /\ match fst (fst r) with
     | inl _ =>
         SyncResult.success (snd (fst r)) = SyncResult.success result
         /\ lastSync (registryMetadata (snd r)) = lastSync (registryMetadata w)
     | inr _ =>
         SyncResult.success (snd (fst r)) = true
         /\ lastSync (registryMetadata (snd r)) = Some (now P)
     end.
Proof.
  unfold sync_try.
  destruct (reportProgress_frame options "initializing" 0 w) as [_ I2].
  pose proof (sync_cached_facts result (reportProgress options "initializing" 0 w)) as C.
  cbn zeta in C.
  destruct (sync_cached P url options result (reportProgress options "initializing" 0 w))
    as [[result1 w2] reads].
  cbn [fst snd] in C. destruct C as (C1 & C2 & C3 & C4 & C5 & C6). rewrite I2 in C4, C5.
  pose proof (sync_network_facts result1 w2) as N. cbn zeta in N.
  set (t := match loadFromCache P reads url with
            | Some _ =>
                if SyncOptions.force options
                then sync_network P config url options result1 w2
                else (inr tt, result1, w2)
            | None => sync_network P config url options result1 w2
            end).
  assert (T : SyncResult.errors (snd (fst t)) = SyncResult.errors result
              /\ SyncResult.success (snd (fst t)) = SyncResult.success result
              /\ SyncResult.localVersion (snd (fst t)) = SyncResult.localVersion result
              /\ lastSync (registryMetadata (snd t)) = lastSync (registryMetadata w)
              /\ syncUrl (registryMetadata (snd t)) = syncUrl (registryMetadata w)
              /\ (In RegistryWrite (events (snd t)) ->
                  In RegistryWrite (events w)
                  \/ (0 < SyncResult.newPrompts (snd (fst t))
                          + SyncResult.updatedPrompts (snd (fst t)))%nat)).
  { assert (Net : SyncResult.errors (snd (fst (sync_network P config url options result1 w2)))
                  = SyncResult.errors result
                  /\ SyncResult.success (snd (fst (sync_network P config url options result1 w2)))
                     = SyncResult.success result
                  /\ SyncResult.localVersion
                       (snd (fst (sync_network P config url options result1 w2)))
                     = SyncResult.localVersion result
                  /\ lastSync (registryMetadata (snd (sync_network P config url options result1 w2)))
                     = lastSync (registryMetadata w)
                  /\ syncUrl (registryMetadata (snd (sync_network P config url options result1 w2)))
                     = syncUrl (registryMetadata w)
                  /\ (In RegistryWrite (events (snd (sync_network P config url options result1 w2))) ->
                      In RegistryWrite (events w)
                      \/ (0 < SyncResult.newPrompts
                                (snd (fst (sync_network P config url options result1 w2)))
                              + SyncResult.updatedPrompts
                                  (snd (fst (sync_network P config url options result1 w2))))%nat)).
    { destruct N as (N1 & N2 & N3 & N4 & N5 & N6).
      repeat split; try congruence.
      intro H. destruct (N6 H) as [H'|H']; [left|right; exact H'].
      apply (SaveFacts.reportProgress_other options "initializing" 0 w). auto. }
    subst t. destruct (loadFromCache P reads url); [destruct (SyncOptions.force options)|];
      try exact Net.
    cbn [fst snd]. repeat split; try congruence.
    intro H. left. apply (SaveFacts.reportProgress_other options "initializing" 0 w). auto. }
  clearbody t. destruct t as [[[e|u] result2] w3]; cbn [fst snd sync_finalize] in *.
  - destruct T as (T1 & T2 & T3 & T4 & T5 & T6). repeat split; auto.
  - destruct T as (T1 & T2 & T3 & T4 & T5 & T6).
    cbn [SyncResult.errors SyncResult.localVersion SyncResult.success
           SyncResult.newPrompts SyncResult.updatedPrompts
           registryMetadata syncUrl lastSync events].
    rewrite (proj2 (reportProgress_frame _ _ _ _)).
    repeat split; auto.
    intro H. apply SaveFacts.reportProgress_other in H. auto.
Qed.

End Sync.
End SyncFacts.

(** X13. The error policy of [sync]: it throws only under the policy
    [throw], and what it throws is always a [SyncError]; under [warn] and
    [silent] it always returns a result. A returned result either has
    [success] set and no error, or has [success] unset and exactly one
    error, a [SyncError]. Its [localVersion] is the one recorded before the
    call. *)
Theorem sync_error_policy
  (P : Platform) (config : Config.t) (options : SyncOptions.t) (w : World) :
  let run := sync P config options w in
  (forall e, fst run = Throw e ->
     sync_policy options = PolicyThrow /\ exists code message, e = SyncError code message)
  /\ (sync_policy options <> PolicyThrow -> exists result, fst run = Return result)
  /\ (forall result, fst run = Return result ->
        SyncResult.localVersion result = localVersion (registryMetadata w)
        /\ ((SyncResult.success result = true /\ SyncResult.errors result = [])
            \/ (sync_policy options <> PolicyThrow
                /\ SyncResult.success result = false
                /\ exists code message,
                     SyncResult.errors result = [SyncError code message]))).
Proof.
  cbn zeta. unfold sync.
  match goal with
  | |- context [sync_try P config ?u options ?r ?w0] =>
      pose proof (SyncFacts.sync_try_facts P config u options r w0) as T;
      destruct (sync_try P config u options r w0) as [[[e|u'] result'] w']
  end; cbn [fst snd] in T; destruct T as (E & L & _ & _ & S);
    cbn [SyncResult.errors SyncResult.localVersion SyncResult.success] in E, L, S.
  - assert (Sy : exists code message,
              match e with
              | SyncError _ _ => e
              | JsError _ m => SyncError UNKNOWN (or_string (Some m) "Unknown error occurred")
              end = SyncError code message)
      by (destruct e; eauto).
    destruct Sy as (code & message & Sy). rewrite Sy.
    assert (Failed : forall result,
              result
              = {| SyncResult.success := SyncResult.success result';
                   SyncResult.localVersion := SyncResult.localVersion result';
                   SyncResult.remoteVersion := SyncResult.remoteVersion result';
                   SyncResult.newPrompts := SyncResult.newPrompts result';
                   SyncResult.updatedPrompts := SyncResult.updatedPrompts result';
                   SyncResult.errors :=
                     (SyncResult.errors result' ++ [SyncError code message])%list;
                   SyncResult.warnings := SyncResult.warnings result';
                   SyncResult.lastSync := SyncResult.lastSync result' |} ->
              SyncResult.localVersion result = localVersion (registryMetadata w)
              /\ SyncResult.success result = false
              /\ SyncResult.errors result = [SyncError code message]).
    { intros result ->. cbn [SyncResult.localVersion SyncResult.success SyncResult.errors].
      destruct S as [S _]. rewrite E, S. auto. }
    destruct (sync_policy options) eqn:Pol; cbn [fst]; (split; [|split]).
    + intros e' H. injection H as <-. eauto.
    + intro N. congruence.
    + intros result H. discriminate.
    + intros e' H. discriminate.
    + intros _. eauto.
    + intros result H. injection H as H. symmetry in H.
      destruct (Failed result H) as (F1 & F2 & F3).
      split; [exact F1|]. right. split; [discriminate|]. eauto.
    + intros e' H. discriminate.
    + intros _. eauto.
    + intros result H. injection H as H. symmetry in H.
      destruct (Failed result H) as (F1 & F2 & F3).
      split; [exact F1|]. right. split; [discriminate|]. eauto.
  - cbn [fst]. destruct S as [S _]. split; [|split].
    + intros e H. discriminate.
    + intros _. eauto.
    + intros result H. injection H as <-. split; [exact L|]. left. auto.
Qed.

Lemma adds_only_refl allowed w : adds_only allowed w w.
Proof. intros ev H. now left. Qed.

Lemma adds_only_trans allowed w1 w2 w3 :
  adds_only allowed w1 w2 -> adds_only allowed w2 w3 -> adds_only allowed w1 w3.
Proof.
  intros A B ev H. destruct (B ev H) as [H2|H2]; [|now right]. exact (A ev H2).
Qed.

Lemma adds_only_events allowed w w' w'' :
  events w'' = events w' -> adds_only allowed w w' -> adds_only allowed w w''.
Proof. intros E A ev H. rewrite E in H. exact (A ev H). Qed.

Lemma adds_only_emit (allowed : Event -> Prop) e w0 w :
  allowed e -> adds_only allowed w0 w -> adds_only allowed w0 (emit e w).
Proof.
  intros Al A ev H. unfold emit in H. cbn [events] in H. apply in_app_or in H.
  destruct H as [H|[<-|[]]]; [exact (A ev H)|now right].
Qed.

Lemma adds_only_reportProgress (allowed : Event -> Prop) options stage percent w0 w :
  (forall s p, allowed (Progress s p)) ->
  adds_only allowed w0 w -> adds_only allowed w0 (reportProgress options stage percent w).
Proof.
  intros Al A. unfold reportProgress.
  destruct (SyncOptions.progressCallback options); [|exact A].
  apply adds_only_emit; auto.
Qed.

(** X14. A cache hit: when [force] is not set and both cache reads
    deliver a document, the first of them with no prompt id and no version
    name that names a member of [Object.prototype], [sync] merges that
    document, makes no network
    request, writes neither the cache nor the registry file (it adds no
    event but progress reports, even when the merge brought new prompts),
    and returns a successful result with the counters of that merge and no
    remote version. *)
Theorem sync_cache_hit
  (P : Platform) (config : Config.t) (options : SyncOptions.t) (w : World)
  (cached cached' : RemoteRegistry) :
  SyncOptions.force options = false ->
  loadFromCache P 0 (sync_url P config options) = Some cached ->
  loadFromCache P 1 (sync_url P config options) = Some cached' ->
  plain_document cached = true ->
  let run := sync P config options w in
  let st :=
    mergeRegistries cached {| metaSchemaVersion := Some "2.0" |} (sync_strategy options)
      (registry w) (with_syncUrl (sync_url P config options) (registryMetadata w)) in
  (exists result,
     fst run = Return result
     /\ SyncResult.success result = true
     /\ SyncResult.errors result = []
     /\ SyncResult.remoteVersion result = None
     /\ SyncResult.newPrompts result = MergeResult.newPrompts (result_of st)
     /\ SyncResult.updatedPrompts result = MergeResult.updatedPrompts (result_of st)
     /\ SyncResult.warnings result = MergeResult.warnings (result_of st))
  /\ registry (snd run) = reg_of st
  /\ adds_only is_progress w (snd run)
  /\ fetch_calls (events (snd run)) = fetch_calls (events w).
Proof.
  intros F C0 C1 _ run st. subst run. unfold sync, sync_try, sync_cached.
  rewrite F. cbn [negb]. rewrite C0.
  match goal with
  | |- context [merge_into cached ?rm options ?r ?w1] =>
      pose proof (SyncFacts.merge_into_fields cached rm options r w1) as M;
      destruct (merge_into cached rm options r w1) as [r0 w0]
  end.
  cbn zeta in M. cbn [fst snd] in M.
  rewrite !(proj1 (reportProgress_frame _ _ _ _)),
    !(proj2 (reportProgress_frame _ _ _ _)) in M.
  cbn [registry registryMetadata] in M. fold (with_syncUrl (sync_url P config options)
                                                (registryMetadata w)) in M.
  fold st in M. destruct M as (E & R & _ & A & B & _ & D & N & U & Wn).
  cbn [SyncResult.errors SyncResult.success SyncResult.remoteVersion] in A, B, D.
  rewrite C1. cbn [sync_finalize fst snd].
  split; [|split; [|split]].
  - eexists. split; [reflexivity|].
    cbn [SyncResult.success SyncResult.errors SyncResult.remoteVersion
           SyncResult.newPrompts SyncResult.updatedPrompts SyncResult.warnings].
    repeat split; assumption.
  - cbn [registry]. rewrite (proj1 (reportProgress_frame _ _ _ _)). exact R.
  - assert (Al : forall s p, is_progress (Progress s p)) by (intros s p; red; eauto).
    eapply adds_only_events; [reflexivity|]. cbn [events].
    intros ev H.
    assert (A0 : adds_only is_progress w w0).
    { eapply adds_only_events; [exact E|].
      do 2 (apply adds_only_reportProgress; [exact Al|]).
      intros ev' H'. now left. }
    exact (adds_only_reportProgress is_progress options "finalizing" 100 w w0 Al A0 ev H).
  - cbn [events]. rewrite fetch_calls_reportProgress, E.
    now rewrite !fetch_calls_reportProgress.
Qed.

Lemma sync_cache_hit_witness :
  let P :=
    {| URL := Sample.parse_url; production := false;
       fetch := Sample.always_html;
       loadFromCache := fun _ _ => Some Sample.remote_doc;
       writeRegistryFile := None; now := 1700000000000 |} in
  let run := sync P DEFAULT_CONFIG SyncOptions.default (Sample.world Sample.local_doc) in
  let st :=
    mergeRegistries Sample.remote_doc {| metaSchemaVersion := Some "2.0" |} PreferLocal
      Sample.local_doc
      (with_syncUrl (Config.development (Config.urls DEFAULT_CONFIG)) Sample.metadata) in
  (exists result,
     fst run = Return result
     /\ SyncResult.success result = true
     /\ SyncResult.errors result = []
     /\ SyncResult.remoteVersion result = None
     /\ SyncResult.newPrompts result = MergeResult.newPrompts (result_of st)
     /\ SyncResult.updatedPrompts result = MergeResult.updatedPrompts (result_of st)
     /\ SyncResult.warnings result = MergeResult.warnings (result_of st))
  /\ registry (snd run) = reg_of st
  /\ adds_only is_progress (Sample.world Sample.local_doc) (snd run)
  /\ fetch_calls (events (snd run)) = fetch_calls (events (Sample.world Sample.local_doc)).
Proof.
  exact (sync_cache_hit
           {| URL := Sample.parse_url; production := false;
              fetch := Sample.always_html;
              loadFromCache := fun _ _ => Some Sample.remote_doc;
              writeRegistryFile := None; now := 1700000000000 |}
           DEFAULT_CONFIG SyncOptions.default (Sample.world Sample.local_doc)
           Sample.remote_doc Sample.remote_doc eq_refl eq_refl eq_refl eq_refl).
Defined.

(** X15. A fetched document that fails validation changes nothing: when
    the network branch runs ([force], or no cached document), the first
    attempt delivers a document and [validateRemoteSchema] throws on it,
    the registry is as before, neither the cache nor the registry file is
    written, and the error of the validation, as [sync] reports errors (a
    [SyncError] as it is, the [TypeError] of a [null] entry as a
    [SyncError] of code [UNKNOWN] with its message), is what [sync] throws
    (policy [throw]) or records as the only error of an unsuccessful result
    with zero counters. *)
Theorem sync_rejected_document_changes_nothing
  (P : Platform) (config : Config.t) (options : SyncOptions.t) (w : World)
  (data : RemoteData) (e : Exn) :
  let url := sync_url P config options in
  SyncOptions.force options = true
  \/ (loadFromCache P 0 url = None /\ loadFromCache P 1 url = None) ->
  isTrustedDomain P config url = true ->
  (1 <= Config.retryAttempts (Config.policies config))%nat ->
  attempt_outcome P config url 1 = inl data ->
  validateRemoteSchema data = Throw e ->
  let run := sync P config options w in
  let reported :=
    match e with
    | SyncError _ _ => e
    | JsError _ m => SyncError UNKNOWN (or_string (Some m) "Unknown error occurred")
    end in
  registry (snd run) = registry w
  /\ adds_only
       (fun ev => is_progress ev \/ ev = HttpFetch url 1 \/ exists t, ev = ConsoleWarn t)
       w (snd run)
  /\ match sync_policy options with
     | PolicyThrow => fst run = Throw reported
     | _ =>
         exists result,
           fst run = Return result
           /\ SyncResult.success result = false
           /\ SyncResult.errors result = [reported]
           /\ SyncResult.newPrompts result = 0%nat
           /\ SyncResult.updatedPrompts result = 0%nat
     end.
Proof.
  intros url Hc T Hn Ok Bad run reported.
  set (allowed := fun ev => is_progress ev \/ ev = HttpFetch url 1
                            \/ exists t, ev = ConsoleWarn t).
  assert (Al : forall s p, allowed (Progress s p)) by (intros s p; left; red; eauto).
  (* the network branch up to the failed validation *)
  assert (Net : forall result w0,
            exists w3,
              sync_network P config url options result w0 = (inl e, result, w3)
              /\ registry w3 = registry w0
              /\ adds_only allowed w0 w3).
  { intros result w0. unfold sync_network, fetchRemoteRegistry. rewrite T. cbn [negb].
    destruct (Config.retryAttempts (Config.policies config)) as [|k] eqn:Ek; [lia|].
    cbn [fetch_loop]. rewrite Ok, Bad. eexists. split; [reflexivity|]. split.
    - rewrite (proj1 (reportProgress_frame _ _ _ _)). unfold emit. cbn [registry].
      now rewrite !(proj1 (reportProgress_frame _ _ _ _)).
    - apply adds_only_reportProgress; [exact Al|].
      apply adds_only_emit; [right; left; reflexivity|].
      do 2 (apply adds_only_reportProgress; [exact Al|]).
      apply adds_only_refl. }
  subst run. unfold sync. fold url.
  set (w0 := {| registry := registry w;
                registryMetadata := _;
                events := events w |}).
  set (result0 := {| SyncResult.success := false; SyncResult.localVersion := _;
                     SyncResult.remoteVersion := None; SyncResult.newPrompts := 0;
                     SyncResult.updatedPrompts := 0; SyncResult.errors := [];
                     SyncResult.warnings := []; SyncResult.lastSync := None |}).
  assert (Try : exists w3,
            sync_try P config url options result0 w0 = (inl e, result0, w3)
            /\ registry w3 = registry w
            /\ adds_only allowed w w3).
  { unfold sync_try, sync_cached.
    destruct (Net result0 (reportProgress options "initializing" 0 w0)) as (w3 & N1 & N2 & N3).
    assert (A0 : adds_only allowed w (reportProgress options "initializing" 0 w0)).
    { apply adds_only_reportProgress; [exact Al|]. intros ev H. now left. }
    exists w3. destruct Hc as [F|[C0 C1]].
    - rewrite F. cbn [negb].
      destruct (loadFromCache P 0 url); rewrite N1; cbn [sync_finalize];
        (split; [reflexivity|]); (split; [|eapply adds_only_trans; eassumption]);
        rewrite N2; now rewrite (proj1 (reportProgress_frame _ _ _ _)).
    - destruct (SyncOptions.force options); cbn [negb]; rewrite ?C0, ?C1, N1;
        cbn [sync_finalize];
        (split; [reflexivity|]); (split; [|eapply adds_only_trans; eassumption]);
        rewrite N2; now rewrite (proj1 (reportProgress_frame _ _ _ _)). }
  destruct Try as (w3 & Tr & R3 & A3). rewrite Tr. fold reported.
  destruct (sync_policy options); cbn [fst snd].
  - repeat split; assumption.
  - split; [exact R3|]. split; [exact A3|].
    eexists. split; [reflexivity|]. subst result0. cbn. repeat split.
  - split; [exact R3|]. split.
    + apply adds_only_emit; [right; right; eauto|exact A3].
    + eexists. split; [reflexivity|]. subst result0. cbn. repeat split.
Qed.

Lemma sync_rejected_document_changes_nothing_witness :
  let P :=
    Sample.platform
      (Sample.always_json
         (DataObject (Some [("essay", Sample.remote_entry "Write" "writing");
                            ("p", EntryNull)]) None))
      None in
  let options :=
    {| SyncOptions.url := None; SyncOptions.force := false; SyncOptions.timeout := None;
       SyncOptions.progressCallback := true; SyncOptions.errorPolicy := Some PolicyWarn;
       SyncOptions.mergeStrategy := None; SyncOptions.silent := false;
       SyncOptions.background := false |} in
  let w := Sample.world Sample.local_doc in
  let reported :=
    SyncError UNKNOWN "Cannot read properties of null (reading 'latest')" in
  let run := sync P DEFAULT_CONFIG options w in
  registry (snd run) = registry w
  /\ adds_only
       (fun ev => is_progress ev \/ ev = HttpFetch (sync_url P DEFAULT_CONFIG options) 1
                  \/ exists t, ev = ConsoleWarn t)
       w (snd run)
  /\ exists result,
       fst run = Return result
       /\ SyncResult.success result = false
       /\ SyncResult.errors result = [reported]
       /\ SyncResult.newPrompts result = 0%nat
       /\ SyncResult.updatedPrompts result = 0%nat.
Proof.
  refine (sync_rejected_document_changes_nothing
            (Sample.platform
               (Sample.always_json
                  (DataObject (Some [("essay", Sample.remote_entry "Write" "writing");
                                     ("p", EntryNull)]) None))
               None)
            DEFAULT_CONFIG
            {| SyncOptions.url := None; SyncOptions.force := false;
               SyncOptions.timeout := None; SyncOptions.progressCallback := true;
               SyncOptions.errorPolicy := Some PolicyWarn;
               SyncOptions.mergeStrategy := None; SyncOptions.silent := false;
               SyncOptions.background := false |}
            (Sample.world Sample.local_doc)
            (DataObject (Some [("essay", Sample.remote_entry "Write" "writing");
                               ("p", EntryNull)]) None)
            (JsError "TypeError" "Cannot read properties of null (reading 'latest')")
            (or_intror (conj eq_refl eq_refl)) eq_refl _ eq_refl eq_refl).
  cbn. lia.
Defined.

(** X16. [sync] writes the registry file only when the merge of the
    fetched document added or updated a prompt: a result returned by a run
    that wrote has a positive counter. *)
Theorem sync_writes_only_after_a_change
  (P : Platform) (config : Config.t) (options : SyncOptions.t) (w : World) :
  ~ In RegistryWrite (events w) ->
  In RegistryWrite (events (snd (sync P config options w))) ->
  forall result,
    fst (sync P config options w) = Return result ->
    (0 < SyncResult.newPrompts result + SyncResult.updatedPrompts result)%nat.
Proof.
  intro N. unfold sync.
  match goal with
  | |- context [sync_try P config ?u options ?r ?w0] =>
      pose proof (SyncFacts.sync_try_facts P config u options r w0) as T;
      destruct (sync_try P config u options r w0) as [[[e|u'] result'] w']
  end; cbn [fst snd events] in T; destruct T as (_ & _ & _ & Wr & _).
  - destruct (sync_policy options); cbn [fst snd]; intros H result R;
      try discriminate; injection R as <-;
      cbn [SyncResult.newPrompts SyncResult.updatedPrompts].
    + destruct (Wr H); [contradiction|assumption].
    + apply SaveFacts.emit_other in H; [|discriminate].
      destruct (Wr H); [contradiction|assumption].
  - cbn [fst snd]. intros H result R. injection R as <-.
    destruct (Wr H); [contradiction|assumption].
Qed.

Lemma sync_writes_only_after_a_change_witness :
  let P := Sample.platform (Sample.always_json Sample.two_prompts) None in
  exists result,
    fst (sync P DEFAULT_CONFIG SyncOptions.default (Sample.world [])) = Return result
    /\ In RegistryWrite
         (events (snd (sync P DEFAULT_CONFIG SyncOptions.default (Sample.world []))))
    /\ (0 < SyncResult.newPrompts result + SyncResult.updatedPrompts result)%nat.
Proof.
  cbn zeta. eexists. split; [vm_compute; reflexivity|].
  assert (W : In RegistryWrite
                (events (snd (sync (Sample.platform (Sample.always_json Sample.two_prompts) None)
                                DEFAULT_CONFIG SyncOptions.default (Sample.world [])))))
    by (vm_compute; repeat (first [left; reflexivity | right])).
  split; [exact W|].
  refine (sync_writes_only_after_a_change
            (Sample.platform (Sample.always_json Sample.two_prompts) None)
            DEFAULT_CONFIG SyncOptions.default (Sample.world []) _ W _ _).
  - cbn. tauto.
  - vm_compute. reflexivity.
Defined.

(** X17. [sync] and staleness: [syncUrl] always records the URL the sync
    worked with; a sync that returns a successful result has stamped
    [lastSync] with the time of the sync, so that afterwards the registry
    is stale exactly when more than [maxAge] has passed since then; a sync
    that throws or returns an unsuccessful result leaves [lastSync] as it
    was. *)
Theorem sync_stamps_lastSync
  (P : Platform) (config : Config.t) (options : SyncOptions.t) (w : World) :
  let run := sync P config options w in
  let meta' := registryMetadata (snd run) in
  syncUrl meta' = Some (sync_url P config options)
  /\ (forall result,
        fst run = Return result -> SyncResult.success result = true ->
        lastSync meta' = Some (now P)
        /\ forall P' maxAge,
             isRegistryStale P' meta' maxAge = (now P' - now P >? maxAge))
  /\ (forall e, fst run = Throw e -> lastSync meta' = lastSync (registryMetadata w))
  /\ (forall result,
        fst run = Return result -> SyncResult.success result = false ->
        lastSync meta' = lastSync (registryMetadata w)).
Proof.
  cbn zeta. unfold sync.
  match goal with
  | |- context [sync_try P config ?u options ?r ?w0] =>
      pose proof (SyncFacts.sync_try_facts P config u options r w0) as T;
      destruct (sync_try P config u options r w0) as [[[e|u'] result'] w']
  end; cbn [fst snd registryMetadata syncUrl lastSync SyncResult.success] in T;
    destruct T as (_ & _ & U & _ & S & L).
  - destruct (sync_policy options); cbn [fst snd emit registryMetadata];
      (split; [exact U|]); (split; [|split]);
      try (intros r H; discriminate H);
      try (intros r H; injection H as <-; cbn [SyncResult.success]; congruence);
      intros; exact L.
  - cbn [fst snd]. split; [exact U|]. split; [|split].
    + intros result H _. split; [exact L|]. intros P' maxAge.
      unfold isRegistryStale. now rewrite L.
    + intros e H. discriminate H.
    + intros result H. injection H as <-. congruence.
Qed.

(* ================================================================== *)
(** * Further properties of get *)

Lemma name_run_stops (name rest : string) :
  Str.contains_char "}" name = false ->
  Re.name_run (name ++ String "}" rest) = (name, String "}" rest).
Proof.
  unfold Str.contains_char.
  induction name as [|c r IH]; cbn [Re.name_run String.append list_ascii_of_string existsb].
  - reflexivity.
  - intro H. apply orb_false_iff in H. destruct H as [H1 H2].
    rewrite Ascii.eqb_sym, H1. now rewrite (IH H2).
Qed.

Lemma placeholder_at_here (name b : string) :
  name <> "" -> Str.contains_char "}" name = false ->
  Re.placeholder_at ("{{" ++ name ++ "}}" ++ b) = Some name.
Proof.
  intros N C. cbn [String.append Re.placeholder_at].
  change (Re.name_run (name ++ String "}" (String "}" b))) with
    (Re.name_run (name ++ String "}" (String "}" b))).
  rewrite (name_run_stops name (String "}" b) C).
  apply String.eqb_neq in N. rewrite N. cbn. destruct b; reflexivity.
Qed.

Lemma placeholders_complete (a name b : string) :
  name <> "" -> Str.contains_char "}" name = false ->
  Re.placeholders (a ++ "{{" ++ name ++ "}}" ++ b) <> [].
Proof.
  intros N C. unfold Re.placeholders.
  induction a as [|c a IH].
  - pose proof (placeholder_at_here name b N C) as H.
    cbn [String.append] in *. cbn [Re.placeholders_from]. rewrite H. discriminate.
  - change ((String c a) ++ "{{" ++ name ++ "}}" ++ b)
      with (String c (a ++ "{{" ++ name ++ "}}" ++ b)).
    cbn [Re.placeholders_from].
    destruct (Re.placeholder_at (String c (a ++ "{{" ++ name ++ "}}" ++ b)));
      [discriminate|exact IH].
Qed.

Lemma get_found_clean baseId requested base variables r :
  get_found baseId requested base variables = Some (Return r) ->
  Re.placeholders (GetResult.prompt r) = [].
Proof.
  unfold get_found.
  destruct (Obj.get _ (versions base)) as [pd|]; [|discriminate].
  destruct (prompt pd) as [text|]; [|discriminate].
  destruct (interpolate variables text) as [out|]; [|discriminate].
  destruct (Re.placeholders out) eqn:E; [|discriminate].
  intro H. injection H as <-. exact E.
Qed.

(** X18. A prompt that [get] returns, at once or after its sync, holds no
    placeholder any more: no text [{{name}}] with a non-empty name free of
    closing braces is left in it. *)
Theorem get_returns_no_placeholder
  (P : Platform) (config : Config.t) (id : string) (variables : Obj.t JsValue)
  (options : GetOptions.t) (w : World) (r : GetResult.t) (a name b : string) :
  fst (get P config id variables options w) = Some (GetReturned r)
  \/ fst (get P config id variables options w) = Some (GetPromised (Return r)) ->
  name <> "" ->
  Str.contains_char "}" name = false ->
  GetResult.prompt r <> a ++ "{{" ++ name ++ "}}" ++ b.
Proof.
  intros H N C E.
  apply (placeholders_complete a name b N C). rewrite <- E. clear E.
  unfold get in H. destruct (split_id id) as [baseId requested] eqn:Sp.
  destruct (Obj.get baseId (registry w)) as [base|] eqn:G.
  - destruct (get_found baseId requested base variables) as [[r'|e]|] eqn:F;
      cbn [fst] in H; destruct H as [H|H]; try discriminate.
    injection H as <-. exact (get_found_clean _ _ _ _ _ F).
  - destruct (GetOptions.syncOnMissing options).
    + unfold syncAndRetryGet in H.
      destruct (sync P config _ w) as [[res|e] w'].
      * unfold get_local in H. rewrite Sp in H.
        destruct (Obj.get baseId (registry w')) as [base|].
        -- destruct (get_found baseId requested base variables) as [[r'|e]|] eqn:F;
             cbn [fst] in H; destruct H as [H|H]; try discriminate.
           injection H as <-. exact (get_found_clean _ _ _ _ _ F).
        -- cbn [fst] in H. destruct H as [H|H]; discriminate.
      * cbn [fst] in H. destruct H as [H|H]; discriminate.
    + cbn [fst] in H. destruct H as [H|H]; discriminate.
Qed.

Lemma get_returns_no_placeholder_witness :
  let a := "Hello " in
  let b := ", welcome" in
  "Hello Ada" <> a ++ "{{" ++ "name" ++ "}}" ++ b.
Proof.
  intros a b.
  refine (get_returns_no_placeholder
            (Sample.platform (Sample.always_json Sample.two_prompts) None) DEFAULT_CONFIG
            "p" [("name", VString "Ada")] GetOptions.default
            (Sample.world Sample.local_doc)
            {| GetResult.id := "p@1.0.0"; GetResult.prompt := "Hello Ada";
               GetResult.description := Some "A sample prompt";
               GetResult.category := Some "greeting";
               GetResult.tags := Some ["sample"];
               GetResult.version := Some "1.0.0" |}
            a "name" b (or_introl eq_refl) _ eq_refl).
  discriminate.
Defined.

Lemma prefix_empty (s : string) : String.prefix "" s = true.
Proof. destruct s; reflexivity. Qed.

Lemma includes_char (c : ascii) (s : string) :
  Str.includes (String c "") s = Str.contains_char c s.
Proof.
  unfold Str.contains_char.
  induction s as [|x s IH]; cbn [Str.includes String.prefix list_ascii_of_string existsb].
  - reflexivity.
  - rewrite IH, prefix_empty. unfold Ascii.eqb at 1.
    destruct (Ascii.ascii_dec c x) as [->|N].
    + now rewrite Ascii.eqb_refl.
    + apply Ascii.eqb_neq in N. now rewrite N.
Qed.

Lemma contains_char_app (c : ascii) (a b : string) :
  Str.contains_char c (a ++ b) = Str.contains_char c a || Str.contains_char c b.
Proof.
  unfold Str.contains_char.
  induction a as [|x a IH]; cbn [String.append list_ascii_of_string existsb]; [reflexivity|].
  now rewrite IH, orb_assoc.
Qed.

Lemma split_id_plain (id : string) :
  Str.contains_char "@" id = false -> split_id id = (id, "").
Proof.
  intro H. unfold split_id. change "@"%string with (String "@" "").
  now rewrite includes_char, H.
Qed.

Lemma split_id_versioned (id ver : string) :
  Str.contains_char "@" id = false ->
  Str.contains_char "@" ver = false ->
  split_id (id ++ "@" ++ ver) = (id, ver).
Proof.
  intros H1 H2. unfold split_id. change "@"%string with (String "@" "").
  rewrite includes_char, contains_char_app, H1.
  cbn [String.append orb]. 
  replace (Str.contains_char "@" (String "@" ver)) with true
    by (unfold Str.contains_char; cbn; reflexivity).
  rewrite split_app_sep, (split_no_sep _ _ H1), (split_no_sep _ _ H2). reflexivity.
Qed.

(** X19. Asking for the latest version by name is asking for the prompt:
    for a prompt the registry holds, [get] of [id@latest] and [get] of
    [id] have the same outcome (the ids and version names are free of
    [@]). *)
Theorem get_latest_by_name
  (P : Platform) (config : Config.t) (id : string) (base : PromptEntry)
  (variables : Obj.t JsValue) (options : GetOptions.t) (w : World) :
  Obj.get id (registry w) = Some base ->
  Str.contains_char "@" id = false ->
  Str.contains_char "@" (latest base) = false ->
  get P config (id ++ "@" ++ latest base) variables options w
  = get P config id variables options w.
Proof.
  intros G H1 H2. unfold get.
  rewrite (split_id_versioned id (latest base) H1 H2), (split_id_plain id H1), G.
  unfold get_found.
  destruct (truthy_string (latest base)) eqn:T; cbn [truthy_string String.eqb negb];
    reflexivity.
Qed.

Lemma get_latest_by_name_witness :
  let P := Sample.platform Sample.always_html None in
  let w := Sample.world Sample.local_doc in
  get P DEFAULT_CONFIG "p@1.0.0" [("name", VString "Ada")] GetOptions.default w
  = get P DEFAULT_CONFIG "p" [("name", VString "Ada")] GetOptions.default w.
Proof.
  exact (get_latest_by_name (Sample.platform Sample.always_html None) DEFAULT_CONFIG
           "p" Sample.local_entry [("name", VString "Ada")] GetOptions.default
           (Sample.world Sample.local_doc) eq_refl eq_refl eq_refl).
Defined.

(* ------------------------------------------------------------------ *)
(** ** The substitution of get *)

Lemma includes_cons (p : string) (c : ascii) (s : string) :
  Str.includes p (String c s) = false ->
  String.prefix p (String c s) = false /\ Str.includes p s = false.
Proof.
  cbn [Str.includes]. intro H. apply orb_false_iff in H. destruct H as [H1 H2].
  split; [exact H1|]. exact H2.
Qed.

Lemma replace_from_absent (pattern replacement : string) (s before : string) :
  Str.includes pattern s = false ->
  Re.replace_from pattern replacement before s 0 = s.
Proof.
  revert before. induction s as [|c s IH]; intros before H; [reflexivity|].
  destruct (includes_cons _ _ _ H) as [H1 H2].
  cbn [Re.replace_from]. rewrite H1. now rewrite (IH _ H2).
Qed.

(** X20. A variable the template does not mention changes nothing: the
    substitution loop of [get] passes over a variable whose placeholder
    [{{key}}] does not occur in the text. *)
Theorem get_ignores_unused_variable
  (key : string) (value : JsValue) (rest : Obj.t JsValue) (text pattern : string) :
  Re.placeholder_pattern key = Some pattern ->
  Str.includes pattern text = false ->
  interpolate ((key, value) :: rest) text = interpolate rest text.
Proof.
  intros K H. cbn [interpolate]. rewrite K. unfold Re.replace_all.
  now rewrite (replace_from_absent _ _ _ _ H).
Qed.

Lemma get_ignores_unused_variable_witness :
  interpolate [("unused", VString "x"); ("name", VString "Ada")] "Hello {{name}}"
  = interpolate [("name", VString "Ada")] "Hello {{name}}".
Proof.
  exact (get_ignores_unused_variable "unused" (VString "x") [("name", VString "Ada")]
           "Hello {{name}}" "{{unused}}" eq_refl eq_refl).
Defined.

Section PlainReplacement.

Variables pattern replacement : string.
Hypothesis plain : Str.contains_char "$" replacement = false.

Lemma replace_from_before (s : string) :
  forall before before' skip,
    Re.replace_from pattern replacement before s skip
    = Re.replace_from pattern replacement before' s skip.
Proof.
  induction s as [|c s IH]; intros before before' skip; [reflexivity|].
  cbn [Re.replace_from]. destruct skip as [|k]; [|apply IH].
  destruct (String.prefix pattern (String c s)).
  - rewrite !(expand_replacement_plain _ _ _ _ plain). f_equal. apply IH.
  - f_equal. apply IH.
Qed.

Lemma replace_from_skip (x b : string) :
  forall before,
    Re.replace_from pattern replacement before (x ++ b) (String.length x)
    = Re.replace_from pattern replacement before b 0.
Proof.
  induction x as [|c x IH]; intros before; [reflexivity|].
  cbn [String.append String.length Re.replace_from].
  rewrite IH. apply replace_from_before.
Qed.

Lemma prefix_app (p b : string) : String.prefix p (p ++ b) = true.
Proof.
  induction p as [|c p IH]; [apply prefix_empty|].
  cbn [String.append String.prefix].
  destruct (Ascii.ascii_dec c c) as [_|N]; [exact IH|now elim N].
Qed.

Lemma replace_from_match (b before : string) :
  pattern <> "" ->
  Re.replace_from pattern replacement before (pattern ++ b) 0
  = replacement ++ Re.replace_from pattern replacement before b 0.
Proof.
  intro N. pose proof (prefix_app pattern b) as Pre.
  destruct pattern as [|c p'] eqn:E; [now elim N|].
  cbn [String.append] in *. cbn [Re.replace_from]. rewrite Pre.
  rewrite (expand_replacement_plain _ _ _ _ plain). f_equal.
  cbn [String.length].
  replace (S (String.length p') - 1)%nat with (String.length p') by lia.
  rewrite <- E. rewrite replace_from_skip. apply replace_from_before.
Qed.

Lemma replace_from_passes (c : ascii) (a rest before : string) :
  String.prefix (String c "") pattern = true ->
  Str.contains_char c a = false ->
  Re.replace_from pattern replacement before (a ++ rest) 0
  = a ++ Re.replace_from pattern replacement before rest 0.
Proof.
  intros First. revert before. unfold Str.contains_char.
  induction a as [|x a IH]; intros before H; [reflexivity|].
  cbn [list_ascii_of_string existsb] in H. apply orb_false_iff in H. destruct H as [H1 H2].
  cbn [String.append Re.replace_from].
  assert (Pre : String.prefix pattern (String x (a ++ rest)) = false).
  { destruct pattern as [|y p']; [discriminate|].
    cbn [String.prefix] in *. destruct (Ascii.ascii_dec c y) as [<-|]; [|discriminate].
    destruct (Ascii.ascii_dec c x) as [<-|]; [|reflexivity].
    now rewrite Ascii.eqb_refl in H1. }
  rewrite Pre. f_equal. rewrite (IH _ H2). f_equal. apply replace_from_before.
Qed.

End PlainReplacement.

Lemma placeholder_pattern_shape (key pattern : string) :
  Re.placeholder_pattern key = Some pattern -> pattern = "{{" ++ key ++ "}}".
Proof.
  unfold Re.placeholder_pattern.
  destruct (existsb _ _); [discriminate|]. now intros [= <-].
Qed.

(** X21. What the substitution of [get] does at a placeholder: in a text
    [a{{key}}b] whose part [a] holds no opening brace, a value without a
    dollar sign takes the place of the placeholder, [a] is kept, and the
    substitution goes on in [b]. *)
Theorem get_substitutes_value
  (key : string) (value : JsValue) (pattern a b : string) :
  Re.placeholder_pattern key = Some pattern ->
  Str.contains_char "$" (replacement_of value) = false ->
  Str.contains_char "{" a = false ->
  Re.replace_all pattern (replacement_of value) (a ++ pattern ++ b)
  = a ++ replacement_of value ++ Re.replace_all pattern (replacement_of value) b.
Proof.
  intros K Plain A. pose proof (placeholder_pattern_shape _ _ K) as Shape.
  unfold Re.replace_all.
  rewrite (replace_from_passes pattern (replacement_of value) Plain "{" a (pattern ++ b) "");
    [|subst pattern; reflexivity|exact A].
  f_equal. apply replace_from_match; [exact Plain|].
  subst pattern. discriminate.
Qed.

Lemma get_substitutes_value_witness :
  Re.replace_all "{{name}}" "Ada" ("Hello " ++ "{{name}}" ++ ", welcome {{name}}")
  = "Hello " ++ "Ada" ++ Re.replace_all "{{name}}" "Ada" ", welcome {{name}}".
Proof.
  exact (get_substitutes_value "name" (VString "Ada") "{{name}}" "Hello "
           ", welcome {{name}}" eq_refl eq_refl eq_refl).
Defined.

(* ================================================================== *)
(** * Further properties of search *)

Lemma all_prompts_total (P : Platform) (config : Config.t) (meta : RegistryMetadata)
  (reg : Registry) :
  registry_okb reg = true ->
  exists hits,
    all_prompts P config meta reg = Return hits
    /\ map SearchHit.id hits = Obj.keys reg.
Proof.
  induction reg as [|[baseId base] rest IH]; cbn [registry_okb forallb all_prompts].
  - intros _. exists []. split; reflexivity.
  - intro H. apply andb_true_iff in H. destruct H as [H1 H2].
    cbn [snd] in H1. unfold entry_okb, Obj.has in H1.
    destruct (Obj.get (latest base) (versions base)) as [d|]; [|discriminate].
    destruct (IH H2) as (hits & E & K). rewrite E.
    eexists. split; [reflexivity|]. cbn [map SearchHit.id Obj.keys fst]. f_equal. exact K.
Qed.

Lemma all_prompts_In (P : Platform) (config : Config.t) (meta : RegistryMetadata)
  (reg : Registry) :
  forall hits, all_prompts P config meta reg = Return hits ->
  forall p, In p hits ->
    exists base data,
      In (SearchHit.id p, base) reg
      /\ Obj.get (latest base) (versions base) = Some data
      /\ SearchHit.description p = description data
      /\ SearchHit.category p = category data
      /\ SearchHit.tags p = tags data
      /\ SearchHit.version p = version data
      /\ SearchHit.source p = "local"
      /\ SearchHit.lastSync p = lastSync meta.
Proof.
  induction reg as [|[baseId base] rest IH]; cbn [all_prompts]; intros hits H p Hin.
  - injection H as <-. destruct Hin.
  - destruct (Obj.get (latest base) (versions base)) as [d|] eqn:G; [|discriminate].
    destruct (all_prompts P config meta rest) as [hs|e]; [|discriminate].
    injection H as <-. destruct Hin as [<-|Hin].
    + exists base, d. cbn. repeat split; auto.
    + destruct (IH hs eq_refl p Hin) as (b & data & I & R).
      exists b, data. split; [right; exact I|exact R].
Qed.

Lemma filter_hits_all (f : SearchHit.t -> Completion bool) (l : list SearchHit.t) :
  (forall p, f p = Return true) -> filter_hits f l = Return l.
Proof.
  intro H. induction l as [|x l IH]; cbn [filter_hits]; [reflexivity|].
  now rewrite H, IH.
Qed.

Lemma search_filtered_In (P : Platform) (config : Config.t) (query : Query)
  (options : SearchOptions.t) (w : World) (hits : list SearchHit.t) :
  search_filtered P config query options w = Return hits ->
  exists allPrompts,
    all_prompts P config (registryMetadata w) (registry w) = Return allPrompts
    /\ forall p, In p hits -> In p allPrompts.
Proof.
  unfold search_filtered.
  destruct (all_prompts P config (registryMetadata w) (registry w)) as [allPrompts|e];
    [|discriminate].
  intro H. exists allPrompts. split; [reflexivity|].
  destruct query as [s|q].
  - intros p Hin. exact (proj1 (proj1 (filter_hits_In _ _ _ H p) Hin)).
  - destruct (negb (SearchOptions.wantsSync options)).
    + intros p Hin. exact (proj1 (proj1 (filter_hits_In _ _ _ H p) Hin)).
    + injection H as <-. auto.
Qed.

(** X22. The empty search string lists the registry: when every entry's
    [latest] names one of its versions, and the registry holds a prompt or
    [syncOnEmpty] is off, [search('')] returns at once, changes nothing, and
    its hits carry the ids of the registry in the registry's order. *)
Theorem search_empty_string_lists_registry
  (P : Platform) (config : Config.t) (options : SearchOptions.t) (w : World) :
  registry_okb (registry w) = true ->
  registry w <> [] \/ SearchOptions.wantsSync options = false ->
  exists hits,
    search P config (QueryString "") options w = (SearchReturned hits, w)
    /\ map SearchHit.id hits = Obj.keys (registry w).
Proof.
  intros Ok H.
  destruct (all_prompts_total P config (registryMetadata w) (registry w) Ok)
    as (hits & E & K).
  exists hits. split; [|exact K].
  unfold search, search_filtered. rewrite E. cbn [Str.toLowerCase].
  rewrite filter_hits_all.
  - destruct hits as [|h hs]; [|reflexivity].
    cbn [search_options]. destruct H as [H|H]; [|now rewrite H].
    destruct (registry w); [now elim H|discriminate K].
  - intro p. unfold matches_text.
    assert (I : forall x, Str.includes "" x = true) by (intros x; destruct x; reflexivity).
    now rewrite I.
Qed.

Lemma search_empty_string_lists_registry_witness :
  exists hits,
    search (Sample.platform Sample.always_html None) DEFAULT_CONFIG (QueryString "")
      Sample.sync_on_empty (Sample.world Sample.local_doc)
    = (SearchReturned hits, Sample.world Sample.local_doc)
    /\ map SearchHit.id hits = Obj.keys (registry (Sample.world Sample.local_doc)).
Proof.
  refine (search_empty_string_lists_registry (Sample.platform Sample.always_html None)
            DEFAULT_CONFIG Sample.sync_on_empty (Sample.world Sample.local_doc) _ _).
  - reflexivity.
  - left. discriminate.
Defined.

Lemma lower_ascii_idem (c : ascii) : Str.lower_ascii (Str.lower_ascii c) = Str.lower_ascii c.
Proof.
  destruct c as [[] [] [] [] [] [] [] []]; vm_compute; reflexivity.
Qed.

Lemma toLowerCase_idem (s : string) : Str.toLowerCase (Str.toLowerCase s) = Str.toLowerCase s.
Proof.
  induction s as [|c s IH]; cbn [Str.toLowerCase]; [reflexivity|].
  now rewrite lower_ascii_idem, IH.
Qed.

(** X23. The case of a search string does not matter: [search] gives the
    query and its lower-case form the same outcome, also when it syncs
    and retries. *)
Theorem search_string_ignores_case
  (P : Platform) (config : Config.t) (s : string) (options : SearchOptions.t) (w : World) :
  search P config (QueryString (Str.toLowerCase s)) options w
  = search P config (QueryString s) options w.
Proof.
  assert (F : forall o w0,
            search_filtered P config (QueryString (Str.toLowerCase s)) o w0
            = search_filtered P config (QueryString s) o w0).
  { intros o w0. unfold search_filtered. now rewrite toLowerCase_idem. }
  unfold search, syncAndRetrySearch. cbn [search_options]. rewrite F.
  destruct (search_filtered P config (QueryString s) options w) as [[|h hs]|e];
    try reflexivity.
  destruct (SearchOptions.wantsSync options); [|reflexivity].
  destruct (sync P config _ w) as [[r|e] w']; [|reflexivity].
  now rewrite F.
Qed.

(** X24. What a hit is: every hit of [search], returned at once or after
    its sync, carries the id of an entry of the registry as it is when the
    search ends, and the description, category, tags and version of that
    entry's latest version; its source is "local". *)
Theorem search_hits_describe_latest_versions
  (P : Platform) (config : Config.t) (query : Query) (options : SearchOptions.t)
  (w : World) (hits : list SearchHit.t) (p : SearchHit.t) :
  fst (search P config query options w) = SearchReturned hits
  \/ fst (search P config query options w) = SearchPromised hits ->
  In p hits ->
  exists base data,
    In (SearchHit.id p, base) (registry (snd (search P config query options w)))
    /\ Obj.get (latest base) (versions base) = Some data
    /\ SearchHit.description p = description data
    /\ SearchHit.category p = category data
    /\ SearchHit.tags p = tags data
    /\ SearchHit.version p = version data
    /\ SearchHit.source p = "local".
Proof.
  intros H Hin.
  assert (Sound : forall o w0 hs,
            search_filtered P config query o w0 = Return hs -> In p hs ->
            exists base data,
              In (SearchHit.id p, base) (registry w0)
              /\ Obj.get (latest base) (versions base) = Some data
              /\ SearchHit.description p = description data
              /\ SearchHit.category p = category data
              /\ SearchHit.tags p = tags data
              /\ SearchHit.version p = version data
              /\ SearchHit.source p = "local").
  { intros o w0 hs F I. destruct (search_filtered_In _ _ _ _ _ _ F) as (allPrompts & A & Sub).
    destruct (all_prompts_In _ _ _ _ _ A p (Sub p I))
      as (base & data & H1 & H2 & H3 & H4 & H5 & H6 & H7 & _).
    exists base, data. repeat split; assumption. }
  unfold search in *.
  destruct (search_filtered P config query options w) as [filtered|e] eqn:F.
  - destruct filtered as [|h hs].
    + destruct (SearchOptions.wantsSync (search_options query options)).
      * unfold syncAndRetrySearch in *.
        destruct (sync P config _ w) as [[r|e] w'].
        -- destruct (search_filtered P config query _ w') as [hs'|e] eqn:F'.
           ++ cbn [fst snd] in *. destruct H as [H|H]; [discriminate|].
              injection H as <-. exact (Sound _ _ _ F' Hin).
           ++ cbn [fst snd] in *. destruct H as [H|H]; [discriminate|].
              injection H as <-. destruct Hin.
        -- cbn [fst snd] in *. destruct H as [H|H]; [discriminate|].
           injection H as <-. destruct Hin.
      * cbn [fst snd] in *. destruct H as [H|H]; [|discriminate].
        injection H as <-. destruct Hin.
    + cbn [fst snd] in *. destruct H as [H|H]; [|discriminate].
      injection H as <-. exact (Sound _ _ _ F Hin).
  - cbn [fst] in H. destruct H as [H|H]; discriminate.
Qed.

Lemma search_hits_describe_latest_versions_witness :
  exists base data,
    In ("hello-world", base)
       (registry
          (snd (search (Sample.platform Sample.always_html None) DEFAULT_CONFIG
                  (QueryString "HELLO") SearchOptions.empty
                  (Sample.world
                     [("p", Sample.local_entry);
                      ("hello-world", Sample.entry "Hello, world" "greeting")]))))
    /\ Obj.get (latest base) (versions base) = Some data
    /\ Some "A sample prompt" = description data
    /\ Some "greeting" = category data
    /\ Some ["sample"] = tags data
    /\ Some "1.0.0" = version data
    /\ "local" = "local".
Proof.
  refine (search_hits_describe_latest_versions
            (Sample.platform Sample.always_html None) DEFAULT_CONFIG
            (QueryString "HELLO") SearchOptions.empty
            (Sample.world
               [("p", Sample.local_entry);
                ("hello-world", Sample.entry "Hello, world" "greeting")])
            [ {| SearchHit.id := "hello-world";
                 SearchHit.description := Some "A sample prompt";
                 SearchHit.category := Some "greeting";
                 SearchHit.tags := Some ["sample"];
                 SearchHit.version := Some "1.0.0";
                 SearchHit.registryFresh := false;
                 SearchHit.source := "local";
                 SearchHit.lastSync := None |} ]
            {| SearchHit.id := "hello-world";
               SearchHit.description := Some "A sample prompt";
               SearchHit.category := Some "greeting";
               SearchHit.tags := Some ["sample"];
               SearchHit.version := Some "1.0.0";
               SearchHit.registryFresh := false;
               SearchHit.source := "local";
               SearchHit.lastSync := None |} _ _).
  - left. vm_compute. reflexivity.
  - left. reflexivity.
Defined.

(* ================================================================== *)
(** * Properties of the model variants *)

Lemma truthy_variant_set (vs : Obj.t string) (model v k : string) :
  truthy_variant (Obj.set model v vs) k
  = if String.eqb k model then (if truthy_string v then Some v else None)
    else truthy_variant vs k.
Proof.
  unfold truthy_variant. rewrite ObjFacts.get_set.
  now destruct (String.eqb k model).
Qed.

(** X25. A variant created for a model is the one [getPromptVariant]
    returns for that model, provided its text is not empty and the model is
    not named ["__proto__"] (an assignment to that name creates no
    property); and it changes nothing for a model with another name that
    is no name of a member of [Object.prototype], unless the new variant
    is filed under that model's category or under "generic". *)
Theorem createPromptVariant_then_get
  (promptData : VersionRecord) (model variantPrompt : string) :
  (variantPrompt <> "" ->
   model <> "__proto__" ->
   getPromptVariant (createPromptVariant promptData model variantPrompt) model
   = Some variantPrompt)
  /\ (forall other,
        inherited_name other = false ->
        other <> model -> getModelCategory other <> model -> model <> "generic" ->
        getPromptVariant (createPromptVariant promptData model variantPrompt) other
        = getPromptVariant promptData other).
Proof.
  unfold getPromptVariant, createPromptVariant. cbn [variants set_variants prompt]. split.
  - intros N _. apply truthy_string_spec in N.
    now rewrite truthy_variant_set, String.eqb_refl, N.
  - intros other _ N1 N2 N3.
    apply String.eqb_neq in N1, N2. apply not_eq_sym, String.eqb_neq in N3.
    rewrite !truthy_variant_set, N1, N2, N3.
    unfold variants_or_empty. destruct (variants promptData); reflexivity.
Qed.

Lemma createPromptVariant_then_get_witness :
  getPromptVariant
    (createPromptVariant (Sample.record "Explain {{topic}}" "education" None)
       "claude-3-opus" "Please explain {{topic}}")
    "claude-3-opus"
  = Some "Please explain {{topic}}"
  /\ getPromptVariant
       (createPromptVariant (Sample.record "Explain {{topic}}" "education" None)
          "claude-3-opus" "Please explain {{topic}}")
       "gpt-4"
     = getPromptVariant (Sample.record "Explain {{topic}}" "education" None) "gpt-4".
Proof.
  split.
  - refine (proj1 (createPromptVariant_then_get
                     (Sample.record "Explain {{topic}}" "education" None)
                     "claude-3-opus" "Please explain {{topic}}") _ _); discriminate.
  - refine (proj2 (createPromptVariant_then_get
                     (Sample.record "Explain {{topic}}" "education" None)
                     "claude-3-opus" "Please explain {{topic}}") "gpt-4" eq_refl _ _ _);
      discriminate.
Defined.

(** X26. [listPromptVariants] after [createPromptVariant] for a model that
    is not named ["__proto__"]: the models listed are the model of the new
    variant and those listed before. *)
Theorem listPromptVariants_after_create
  (promptData : VersionRecord) (model variantPrompt k : string) :
  model <> "__proto__" ->
  In k (listPromptVariants (createPromptVariant promptData model variantPrompt))
  <-> k = model \/ In k (listPromptVariants promptData).
Proof.
  intros _.
  unfold listPromptVariants, createPromptVariant. cbn [variants set_variants].
  rewrite <- ObjFacts.has_keys, ObjFacts.has_set, orb_true_iff, String.eqb_eq.
  unfold variants_or_empty. destruct (variants promptData) as [vs|].
  - now rewrite ObjFacts.has_keys.
  - cbn. intuition discriminate.
Qed.

Lemma listPromptVariants_after_create_witness :
  In "gpt-4"
    (listPromptVariants
       (createPromptVariant
          (Sample.record "Explain {{topic}}" "education" (Some [("generic", "G")]))
          "gpt-4" "T"))
  <-> "gpt-4" = "gpt-4"
      \/ In "gpt-4"
           (listPromptVariants
              (Sample.record "Explain {{topic}}" "education" (Some [("generic", "G")]))).
Proof.
  refine (listPromptVariants_after_create
            (Sample.record "Explain {{topic}}" "education" (Some [("generic", "G")]))
            "gpt-4" "T" "gpt-4" _).
  discriminate.
Defined.

Lemma generate_variant_get (text : string) (vs : Obj.t string) (c k : string) :
  Obj.get k (generate_variant text vs c)
  = if String.eqb k c
    then match truthy_variant vs c with
         | Some _ => Obj.get k vs
         | None => Some (adaptPromptForModel text c)
         end
    else Obj.get k vs.
Proof.
  unfold generate_variant. destruct (truthy_variant vs c).
  - now destruct (String.eqb k c).
  - apply ObjFacts.get_set.
Qed.

Lemma generate_variant_truthy_other (text : string) (vs : Obj.t string) (c k : string) :
  k <> c -> truthy_variant (generate_variant text vs c) k = truthy_variant vs k.
Proof.
  intro N. unfold truthy_variant. rewrite generate_variant_get.
  apply String.eqb_neq in N. now rewrite N.
Qed.

Lemma generate_variants_get (text : string) (cs : list string) :
  NoDup cs ->
  forall vs k,
    Obj.get k (fold_left (generate_variant text) cs vs)
    = if existsb (String.eqb k) cs
      then match truthy_variant vs k with
           | Some _ => Obj.get k vs
           | None => Some (adaptPromptForModel text k)
           end
      else Obj.get k vs.
Proof.
  induction 1 as [|c cs Nin ND IH]; intros vs k; cbn [fold_left existsb]; [reflexivity|].
  rewrite IH. destruct (String.eqb k c) eqn:E; cbn [orb].
  - apply String.eqb_eq in E. subst k.
    assert (X : existsb (String.eqb c) cs = false).
    { destruct (existsb (String.eqb c) cs) eqn:X; [|reflexivity].
      apply existsb_exists in X. destruct X as (x & I & Ex).
      apply String.eqb_eq in Ex. subst x. contradiction. }
    rewrite X, generate_variant_get, String.eqb_refl. reflexivity.
  - assert (N : k <> c) by now apply String.eqb_neq.
    rewrite (generate_variant_truthy_other text vs c k N), generate_variant_get, E.
    reflexivity.
Qed.

(** X27. [generateAllVariants] fills gaps only, and with the prompt as it
    is: a variant that existed with a text is kept; a category without one
    among gpt, claude, llama and gemini receives the prompt unchanged (the
    category names are no model names, so the adaptations for Claude and
    Llama are not applied), mistral receives the prompt with its white
    space collapsed and trimmed; no other variant is touched. *)
Theorem generateAllVariants_fills_gaps (promptData : VersionRecord) (text : string) :
  prompt promptData = Some text ->
  exists vs',
    generateAllVariants promptData = Some (set_variants vs' promptData)
    /\ (forall k v,
          truthy_variant (variants_or_empty promptData) k = Some v ->
          Obj.get k vs' = Some v)
    /\ (forall c,
          In c ["gpt"; "claude"; "llama"; "gemini"] ->
          truthy_variant (variants_or_empty promptData) c = None ->
          Obj.get c vs' = Some text)
    /\ (truthy_variant (variants_or_empty promptData) "mistral" = None ->
        Obj.get "mistral" vs' = Some (trim (collapse_white text false)))
    /\ (forall k,
          ~ In k ["gpt"; "claude"; "llama"; "gemini"; "mistral"] ->
          Obj.get k vs' = Obj.get k (variants_or_empty promptData)).
Proof.
  intro T. unfold generateAllVariants. rewrite T.
  eexists. split; [reflexivity|].
  assert (ND : NoDup categories).
  { change categories with ["gpt"; "claude"; "llama"; "gemini"; "mistral"].
    repeat constructor; cbn; intuition discriminate. }
  pose proof (generate_variants_get text categories ND (variants_or_empty promptData)) as G.
  repeat split.
  - intros k v H. rewrite G, H.
    destruct (existsb (String.eqb k) categories); [|];
      unfold truthy_variant in H;
      destruct (Obj.get k (variants_or_empty promptData)) as [x|]; try discriminate;
      destruct (truthy_string x); congruence.
  - intros c I H. rewrite G, H.
    cbn in I. destruct I as [<-|[<-|[<-|[<-|[]]]]]; reflexivity.
  - intro H. rewrite G, H. reflexivity.
  - intros k N. rewrite G.
    destruct (existsb (String.eqb k) categories) eqn:X; [|reflexivity].
    apply existsb_exists in X. destruct X as (x & I & Ex).
    apply String.eqb_eq in Ex. subst x. contradiction.
Qed.

Lemma generateAllVariants_fills_gaps_witness :
  exists vs',
    generateAllVariants (Sample.record "Write  a poem " "writing" (Some [("gpt", "Poem!")]))
    = Some (set_variants vs'
              (Sample.record "Write  a poem " "writing" (Some [("gpt", "Poem!")])))
    /\ Obj.get "gpt" vs' = Some "Poem!"
    /\ Obj.get "claude" vs' = Some "Write  a poem "
    /\ Obj.get "mistral" vs' = Some "Write a poem".
Proof.
  destruct (generateAllVariants_fills_gaps
              (Sample.record "Write  a poem " "writing" (Some [("gpt", "Poem!")]))
              "Write  a poem " eq_refl) as (vs' & E & Keep & Raw & Squeezed & _).
  exists vs'. split; [exact E|]. split; [|split].
  - apply Keep. reflexivity.
  - apply Raw; [cbn; tauto|reflexivity].
  - apply Squeezed. reflexivity.
Defined.


(* ================================================================== *)
(** * compareVersions on dotted decimal versions *)

Module Binary64.
Import JsNumber.

Lemma Qred_inject_Z (v : Z) : Qred (inject_Z v) = inject_Z v.
Proof.
  unfold Qred, inject_Z.
  generalize (Z.ggcd_gcd v 1) (Z.ggcd_correct_divisors v 1).
  destruct (Z.ggcd v 1) as [g [a b]]. cbn [fst snd].
  intros G [A B]. rewrite Z.gcd_1_r in G. subst g.
  assert (a = v) by lia. assert (b = 1) by lia. subst a b. reflexivity.
Qed.

Lemma round_nearest_even_integer (q : Q) (z : Z) :
  (q == inject_Z z)%Q -> round_nearest_even q = z.
Proof.
  destruct q as [n d]. unfold Qeq, round_nearest_even. cbn [Qnum Qden inject_Z].
  intro E. rewrite Z.mul_1_r in E. subst n.
  rewrite Z.div_mul, Z.mod_mul by discriminate.
  assert (L : (2 * 0 <? Z.pos d) = true) by (apply Z.ltb_lt; lia).
  now rewrite L.
Qed.

Lemma pow2_spec (e : Z) :
  (pow2 e == if 0 <=? e then inject_Z (2 ^ e) else / inject_Z (2 ^ (- e)))%Q.
Proof.
  unfold pow2. destruct (0 <=? e) eqn:E; [reflexivity|].
  apply Z.leb_gt in E.
  assert (Pos : 0 < 2 ^ (- e)) by (apply Z.pow_pos_nonneg; lia).
  destruct (2 ^ (- e)) as [|p|p] eqn:Ep; try lia.
  reflexivity.
Qed.

(** A whole number below 2^53 is a Number value. *)
Lemma binary64_integer (v : Z) :
  0 <= v < 2 ^ 53 -> binary64 (inject_Z v) = Fin (inject_Z v).
Proof.
  intros [H0 H1]. unfold binary64.
  destruct (Qeq_bool (inject_Z v) 0) eqn:Z0.
  - apply Qeq_bool_eq in Z0. unfold Qeq in Z0. cbn in Z0.
    assert (v = 0) by lia. subst v. reflexivity.
  - assert (Pos : 0 < v).
    { destruct (Z.eq_dec v 0) as [->|N]; [discriminate Z0|lia]. }
    assert (NN : Qle_bool 0 (inject_Z v) = true).
    { apply Qle_bool_iff. unfold Qle. cbn. lia. }
    rewrite NN. cbn [Qnum Qden inject_Z]. change (Z.log2 1) with 0. rewrite Z.sub_0_r.
    pose proof (Z.log2_spec v Pos) as [L1 L2].
    pose proof (Z.log2_nonneg v) as L0.
    assert (L53 : Z.log2 v < 53) by (apply Z.log2_lt_pow2; lia).
    set (l := Z.log2 v) in *.
    assert (K : Qle_bool (pow2 l) (inject_Z v) = true).
    { apply Qle_bool_iff. rewrite pow2_spec.
      assert (E : (0 <=? l) = true) by (apply Z.leb_le; lia). rewrite E.
      rewrite <- Zle_Qle. exact L1. }
    rewrite K. rewrite Z.max_l by lia.
    assert (Scaled : (inject_Z v / pow2 (l - 52) == inject_Z (v * 2 ^ (52 - l)))%Q).
    { rewrite pow2_spec. destruct (0 <=? l - 52) eqn:E.
      - apply Z.leb_le in E. assert (l = 52) by lia.
        replace (l - 52) with 0 by lia. replace (52 - l) with 0 by lia.
        change (2 ^ 0) with 1. unfold Qdiv, Qeq. cbn. reflexivity.
      - replace (- (l - 52)) with (52 - l) by lia.
        unfold Qdiv. rewrite Qinv_involutive, inject_Z_mult. reflexivity. }
    rewrite (round_nearest_even_integer _ _ Scaled).
    assert (Back : (inject_Z (v * 2 ^ (52 - l)) * pow2 (l - 52) == inject_Z v)%Q).
    { rewrite pow2_spec. destruct (0 <=? l - 52) eqn:E.
      - apply Z.leb_le in E. assert (l = 52) by lia.
        replace (l - 52) with 0 by lia. replace (52 - l) with 0 by lia.
        change (2 ^ 0) with 1. unfold Qeq. cbn. ring.
      - replace (- (l - 52)) with (52 - l) by lia.
        rewrite inject_Z_mult, <- Qmult_assoc, Qmult_inv_r; [apply Qmult_1_r|].
        assert (0 < 2 ^ (52 - l)) by (apply Z.pow_pos_nonneg; lia).
        intro Q0. unfold Qeq in Q0. cbn [Qnum Qden inject_Z] in Q0. lia. }
    assert (Small : Qle_bool (pow2 1024) (inject_Z (v * 2 ^ (52 - l)) * pow2 (l - 52)) = false).
    { destruct (Qle_bool (pow2 1024) (inject_Z (v * 2 ^ (52 - l)) * pow2 (l - 52))) eqn:B;
        [|reflexivity].
      apply Qle_bool_iff in B. rewrite Back, pow2_spec in B.
      change (0 <=? 1024) with true in B. cbn iota in B.
      rewrite <- Zle_Qle in B.
      assert (2 ^ 53 < 2 ^ 1024) by (apply Z.pow_lt_mono_r; lia). lia. }
    rewrite Small. f_equal.
    rewrite (Qred_complete _ _ Back). apply Qred_inject_Z.
Qed.

End Binary64.

Module Decimal.
Import JsNumber.

Lemma digit_not_white (c : ascii) : is_digit c = true -> is_white c = false.
Proof.
  unfold is_digit, is_white. intro H.
  apply andb_true_iff in H. destruct H as [H1 H2].
  apply Z.leb_le in H1, H2.
  apply orb_false_iff. split.
  - apply andb_false_iff. right. apply Z.leb_gt. lia.
  - apply Z.eqb_neq. lia.
Qed.

Lemma drop_white_digit (c : ascii) (l : list ascii) :
  is_digit c = true -> drop_white (c :: l) = c :: l.
Proof. intro H. cbn [drop_white]. now rewrite (digit_not_white c H). Qed.

Lemma drop_white_digits (l : list ascii) :
  forallb is_digit l = true -> drop_white l = l.
Proof.
  destruct l as [|c l]; [reflexivity|]. cbn [forallb]. intro H.
  apply andb_true_iff in H. now apply drop_white_digit.
Qed.

Lemma forallb_rev {A} (f : A -> bool) (l : list A) :
  forallb f l = true -> forallb f (rev l) = true.
Proof.
  rewrite !forallb_forall. intros H x I. apply H. now apply in_rev.
Qed.

Lemma trim_digits (l : list ascii) : forallb is_digit l = true -> trim l = l.
Proof.
  intro H. unfold trim. rewrite (drop_white_digits l H).
  rewrite (drop_white_digits (rev l) (forallb_rev _ _ H)). apply rev_involutive.
Qed.

Lemma span_digits (l : list ascii) : forallb is_digit l = true -> span is_digit l = (l, []).
Proof.
  induction l as [|c l IH]; cbn [forallb span]; [reflexivity|].
  intro H. apply andb_true_iff in H. destruct H as [H1 H2].
  now rewrite H1, (IH H2).
Qed.

Lemma digits_value_nonneg (l : list ascii) :
  forallb is_digit l = true -> 0 <= digits_value l.
Proof.
  unfold digits_value.
  enough (G : forall l acc, 0 <= acc -> forallb is_digit l = true ->
                0 <= fold_left (fun a c => 10 * a + (code c - 48)) l acc)
    by (intro H; apply G; [lia|exact H]).
  clear l. induction l as [|c l IH]; intros acc A H; [exact A|].
  cbn [forallb fold_left] in *. apply andb_true_iff in H. destruct H as [H1 H2].
  apply IH; [|exact H2]. unfold is_digit in H1.
  apply andb_true_iff in H1. destruct H1 as [H1 _]. apply Z.leb_le in H1. lia.
Qed.

Lemma parse_digits (l : list ascii) :
  decimal_component l = true ->
  parse_unsigned_decimal l = Fin (inject_Z (digits_value l * 1)).
Proof.
  intro D. unfold parse_unsigned_decimal.
  assert (A : forallb is_digit l = true) by (destruct l; [discriminate|exact D]).
  assert (I : ascii_list_eqb l infinity_lit = false).
  { destruct l as [|c r]; [reflexivity|]. cbn [forallb] in A.
    apply andb_true_iff in A. destruct A as [A _].
    unfold ascii_list_eqb, infinity_lit. cbn [string_of_list_ascii list_ascii_of_string String.eqb].
    destruct (Ascii.eqb c "I") eqn:E; [|reflexivity].
    apply Ascii.eqb_eq in E. subst c. discriminate A. }
  rewrite I, (span_digits l A), app_nil_r.
  destruct l as [|c r]; [discriminate|]. reflexivity.
Qed.

(** The mathematical value of a string of decimal digits is its decimal
    value. *)
Lemma mathematical_value_digits (l : list ascii) :
  decimal_component l = true ->
  mathematical_value (string_of_list_ascii l) = Fin (inject_Z (digits_value l * 1)).
Proof.
  intro D. rewrite <- (parse_digits l D). unfold mathematical_value.
  assert (A : forallb is_digit l = true) by (destruct l; [discriminate|exact D]).
  rewrite list_ascii_of_string_of_list_ascii, (trim_digits l A).
  destruct l as [|c r]; [discriminate|].
  cbn [forallb] in A. apply andb_true_iff in A. destruct A as [A1 A2].
  destruct c as [[] [] [] [] [] [] [] []]; try discriminate A1; try reflexivity.
  destruct r as [|d r']; [reflexivity|].
  cbn [forallb] in A2. apply andb_true_iff in A2. destruct A2 as [A2 _].
  destruct d as [[] [] [] [] [] [] [] []]; try discriminate A2; reflexivity.
Qed.

(** [Number] reads a string of decimal digits of value below 2^53 as its
    decimal value. *)
Lemma Number_digits (l : list ascii) :
  safe_component l = true ->
  Number (string_of_list_ascii l) = Fin (inject_Z (digits_value l)).
Proof.
  intro S. apply andb_true_iff in S. destruct S as [D B]. apply Z.ltb_lt in B.
  unfold Number. rewrite (mathematical_value_digits l D). cbn [round64].
  rewrite Z.mul_1_r. apply Binary64.binary64_integer. split; [|exact B].
  apply digits_value_nonneg. destruct l; [discriminate|exact D].
Qed.

End Decimal.

Module DottedVersions.
Import JsNumber.

Local Abbreviation part := decimal_part.

Lemma digits_no_dot (l : list ascii) :
  forallb is_digit l = true ->
  Str.contains_char "." (string_of_list_ascii l) = false.
Proof.
  unfold Str.contains_char. rewrite list_ascii_of_string_of_list_ascii.
  induction l as [|c l IH]; cbn [forallb existsb]; [reflexivity|].
  intro H. apply andb_true_iff in H. destruct H as [H1 H2].
  rewrite (IH H2), orb_false_r.
  destruct (Ascii.eqb "." c) eqn:E; [|reflexivity].
  apply Ascii.eqb_eq in E. subst c. discriminate H1.
Qed.

Lemma decimal_component_digits (l : list ascii) :
  decimal_component l = true -> forallb is_digit l = true.
Proof. destruct l; [discriminate|auto]. Qed.

Lemma safe_component_decimal (l : list ascii) :
  safe_component l = true -> decimal_component l = true.
Proof. intro S. now apply andb_true_iff in S. Qed.

Lemma version_parts_component (l : list ascii) :
  safe_component l = true ->
  version_parts (string_of_list_ascii l) = [part (digits_value l)].
Proof.
  intro S. pose proof (safe_component_decimal l S) as D. unfold version_parts.
  rewrite (split_no_sep _ _ (digits_no_dot l (decimal_component_digits l D))).
  cbn [map]. now rewrite (Decimal.Number_digits l S).
Qed.

Lemma version_parts_dotted (components : list (list ascii)) :
  components <> [] ->
  forallb safe_component components = true ->
  version_parts (dotted components) = map part (map digits_value components).
Proof.
  unfold dotted.
  induction components as [|x r IH]; [intro N; now elim N|].
  intros _ H. cbn [forallb] in H. apply andb_true_iff in H. destruct H as [H1 H2].
  destruct r as [|y r'].
  - cbn [map Str.join]. now apply version_parts_component.
  - change (Str.join "." (map string_of_list_ascii (x :: y :: r')))
      with (string_of_list_ascii x ++ "." ++ Str.join "." (map string_of_list_ascii (y :: r'))).
    rewrite version_parts_app, (version_parts_component x H1), IH; [reflexivity| |exact H2].
    discriminate.
Qed.

Lemma lt_fin (p q : Z) : lt (Fin (inject_Z p)) (Fin (inject_Z q)) = (p <? q).
Proof.
  unfold lt, Qcompare, Z.ltb. cbn [Qnum Qden inject_Z].
  now rewrite !Z.mul_1_r.
Qed.

Lemma or_zero_part (z : Z) : or_zero (Some (part z)) = Fin (inject_Z z).
Proof.
  unfold or_zero, decimal_part, truthy.
  destruct (Qeq_bool (inject_Z z) 0) eqn:E; cbn [negb]; [|reflexivity].
  apply Qeq_bool_iff in E. unfold Qeq in E. cbn in E.
  assert (z = 0) by lia. subst z. reflexivity.
Qed.

Lemma lt_parts (x y : option Z) :
  let value v := match v with Some z => z | None => 0 end in
  lt (or_zero (option_map part x)) (or_zero (option_map part y)) = (value x <? value y).
Proof.
  cbn zeta.
  assert (V : forall v : option Z,
            exists z', or_zero (option_map part v) = Fin (inject_Z z')
                       /\ z' = match v with Some z => z | None => 0 end).
  { intros [z|]; cbn [option_map].
    - rewrite (or_zero_part z). eexists; split; reflexivity.
    - exists 0. split; reflexivity. }
  destruct (V x) as (x' & -> & <-). destruct (V y) as (y' & -> & <-).
  apply lt_fin.
Qed.

Lemma compare_loop_shift (a b : Num) (A B : list Num) (f : nat) :
  forall i, compare_loop (a :: A) (b :: B) (S i) f = compare_loop A B i f.
Proof.
  induction f as [|f IH]; intro i; cbn [compare_loop nth_error]; [reflexivity|].
  now rewrite IH.
Qed.

Lemma compare_loop_shift_r (b : Num) (B : list Num) (f : nat) :
  forall i, compare_loop [] (b :: B) (S i) f = compare_loop [] B i f.
Proof.
  induction f as [|f IH]; intro i; cbn [compare_loop nth_error]; [reflexivity|].
  rewrite IH. now destruct i.
Qed.

Lemma compare_loop_shift_l (a : Num) (A : list Num) (f : nat) :
  forall i, compare_loop (a :: A) [] (S i) f = compare_loop A [] i f.
Proof.
  induction f as [|f IH]; intro i; cbn [compare_loop nth_error]; [reflexivity|].
  rewrite IH. now destruct i.
Qed.

Lemma compare_loop_against_zeros_r (ys : list Z) :
  compare_loop [] (map part ys) 0 (List.length ys) = - against_zeros ys.
Proof.
  induction ys as [|y ys IH]; [reflexivity|].
  cbn [map List.length compare_loop nth_error against_zeros]. unfold gt.
  pose proof (lt_parts (Some y) None) as L1. pose proof (lt_parts None (Some y)) as L2.
  cbn [option_map] in L1, L2. cbn zeta in L1, L2. rewrite L1, L2.
  rewrite compare_loop_shift_r, IH.
  destruct (y <? 0) eqn:E1; destruct (0 <? y) eqn:E2; try reflexivity.
  apply Z.ltb_lt in E1, E2. lia.
Qed.

Lemma compare_loop_against_zeros_l (xs : list Z) :
  compare_loop (map part xs) [] 0 (List.length xs) = against_zeros xs.
Proof.
  induction xs as [|x xs IH]; [reflexivity|].
  cbn [map List.length compare_loop nth_error against_zeros]. unfold gt.
  pose proof (lt_parts (Some x) None) as L1. pose proof (lt_parts None (Some x)) as L2.
  cbn [option_map] in L1, L2. cbn zeta in L1, L2. rewrite L1, L2.
  now rewrite compare_loop_shift_l, IH.
Qed.

Lemma compare_loop_numeric (xs ys : list Z) :
  compare_loop (map part xs) (map part ys) 0 (Nat.max (List.length xs) (List.length ys))
  = numeric_order xs ys.
Proof.
  revert ys. induction xs as [|x xs IH]; intro ys.
  - cbn [List.length Nat.max map numeric_order]. apply compare_loop_against_zeros_r.
  - destruct ys as [|y ys].
    + cbn [Nat.max numeric_order]. apply compare_loop_against_zeros_l.
    + cbn [map List.length Nat.max compare_loop nth_error numeric_order]. unfold gt.
      pose proof (lt_parts (Some x) (Some y)) as L1.
      pose proof (lt_parts (Some y) (Some x)) as L2.
      cbn [option_map] in L1, L2. cbn zeta in L1, L2. rewrite L1, L2.
      now rewrite compare_loop_shift, IH.
Qed.

End DottedVersions.

(** X28. On dotted decimal versions [compareVersions] is the numeric
    order: for two version strings whose components are runs of decimal
    digits of value below 2^53 (the whole numbers that [Number] reads
    without rounding), it compares the components as numbers from the left,
    a missing component counting as zero; so 1.10 is above 1.9, and 1.0
    equals 1.0.0. *)
Theorem compareVersions_numeric (a b : list (list ascii)) :
  a <> [] -> b <> [] ->
  forallb safe_component a = true ->
  forallb safe_component b = true ->
  compareVersions (dotted a) (dotted b)
  = numeric_order (map JsNumber.digits_value a) (map JsNumber.digits_value b).
Proof.
  intros Na Nb Da Db. unfold compareVersions.
  rewrite (DottedVersions.version_parts_dotted a Na Da),
    (DottedVersions.version_parts_dotted b Nb Db).
  rewrite !length_map. rewrite <- (length_map JsNumber.digits_value a) at 1.
  rewrite <- (length_map JsNumber.digits_value b) at 1.
  apply DottedVersions.compare_loop_numeric.
Qed.

Lemma compareVersions_numeric_witness :
  let a := map list_ascii_of_string ["1"; "10"] in
  let b := map list_ascii_of_string ["1"; "9"; "0"] in
  dotted a = "1.10" /\ dotted b = "1.9.0"
  /\ numeric_order (map JsNumber.digits_value a) (map JsNumber.digits_value b) = 1
  /\ compareVersions (dotted a) (dotted b)
     = numeric_order (map JsNumber.digits_value a) (map JsNumber.digits_value b).
Proof.
  cbn zeta. split; [reflexivity|]. split; [reflexivity|]. split; [reflexivity|].
  apply (compareVersions_numeric (map list_ascii_of_string ["1"; "10"])
           (map list_ascii_of_string ["1"; "9"; "0"])); try reflexivity; discriminate.
Defined.

(** Beyond 2^53 the components are rounded before they are compared:
    9007199254740993 and 9007199254740992 are the same Number. *)
Lemma compareVersions_rounds_components :
  compareVersions "9007199254740993" "9007199254740992" = 0
  /\ compareVersions "1.9007199254740993.0" "1.9007199254740992.1" = -1
  /\ compareVersions "1e400" "2e400" = 0.
Proof. repeat split; vm_compute; reflexivity. Qed.

(* ================================================================== *)
(** * getModelCategory *)

Lemma model_categories_keys (model category : string) :
  Obj.get model MODEL_CATEGORIES = Some category ->
  In (model, category) MODEL_CATEGORIES.
Proof. apply ObjFacts.get_In. Qed.

(** X29. Names that extend a known model name keep its category: for a
    model of the table [MODEL_CATEGORIES] and any suffix (a date, a size, a
    revision), [getModelCategory] gives the category of the table. And for
    every name that is no name of a member of [Object.prototype] (for
    those the read of the table finds the inherited member), the category
    is one of gpt, claude, llama, gemini, mistral and generic. *)
Theorem getModelCategory_extends_table :
  (forall model category suffix,
     Obj.get model MODEL_CATEGORIES = Some category ->
     getModelCategory (model ++ suffix) = category)
  /\ (forall model,
        inherited_name model = false ->
        In (getModelCategory model) ["gpt"; "claude"; "llama"; "gemini"; "mistral"; "generic"]).
Proof.
  split.
  - intros model category suffix H. apply model_categories_keys in H.
    unfold getModelCategory.
    destruct (Obj.get (model ++ suffix) MODEL_CATEGORIES) as [c|] eqn:G.
    + cbn in H.
      repeat (destruct H as [H|H];
              [injection H as <- <-; cbn in G;
               repeat match type of G with
                 | (if ?b then _ else _) = _ => destruct b
                 end; congruence|]).
      destruct H.
    + clear G. cbn in H.
      repeat (destruct H as [H|H];
              [injection H as <- <-; vm_compute; destruct suffix; reflexivity|]).
      destruct H.
  - intros model _. unfold getModelCategory.
    destruct (Obj.get model MODEL_CATEGORIES) as [c|] eqn:G.
    + apply model_categories_keys in G. cbn in G.
      repeat (destruct G as [G|G]; [injection G as <- <-; cbn; tauto|]).
      destruct G.
    + destruct (find _ CATEGORY_PREFIXES) as [[c ms]|] eqn:F; [|cbn; tauto].
      apply find_some in F. destruct F as [F _]. cbn in F.
      repeat (destruct F as [F|F]; [injection F as <- <-; cbn; tauto|]).
      destruct F.
Qed.

(* ================================================================== *)
(** * adaptPromptForModel *)

Module WhiteSpace.

Lemma drop_white_starts_black (l : list ascii) : starts_black (JsNumber.drop_white l).
Proof.
  induction l as [|c r IH]; cbn [JsNumber.drop_white starts_black]; [exact I|].
  destruct (JsNumber.is_white c) eqn:E; [exact IH|exact E].
Qed.

Lemma drop_white_fixed (l : list ascii) : starts_black l -> JsNumber.drop_white l = l.
Proof. destruct l as [|c r]; cbn; [reflexivity|]. now intros ->. Qed.

Lemma drop_white_split (l : list ascii) : exists w, l = (w ++ JsNumber.drop_white l)%list.
Proof.
  induction l as [|c r [w IH]]; [now exists []|]. cbn [JsNumber.drop_white].
  destruct (JsNumber.is_white c).
  - exists (c :: w). cbn. now rewrite <- IH.
  - now exists [].
Qed.

(** Dropping the white space at the end leaves a prefix. *)
Lemma drop_end_prefix (l : list ascii) :
  exists w, l = (rev (JsNumber.drop_white (rev l)) ++ w)%list.
Proof.
  destruct (drop_white_split (rev l)) as [w E].
  exists (rev w). rewrite <- rev_app_distr, <- E. symmetry. apply rev_involutive.
Qed.

Lemma trim_starts_black (l : list ascii) : starts_black (JsNumber.trim l).
Proof.
  unfold JsNumber.trim. pose proof (drop_white_starts_black l) as B.
  destruct (drop_end_prefix (JsNumber.drop_white l)) as [w E].
  destruct (rev (JsNumber.drop_white (rev (JsNumber.drop_white l)))) as [|c r]; [exact I|].
  rewrite E in B. exact B.
Qed.

Lemma trim_idem (l : list ascii) : JsNumber.trim (JsNumber.trim l) = JsNumber.trim l.
Proof.
  unfold JsNumber.trim at 1. rewrite (drop_white_fixed _ (trim_starts_black l)).
  unfold JsNumber.trim. rewrite rev_involutive.
  now rewrite (drop_white_fixed _ (drop_white_starts_black _)).
Qed.

Lemma squeezed_prefix (x y : list ascii) :
  forall prev, squeezed prev (x ++ y) = true -> squeezed prev x = true.
Proof.
  induction x as [|c r IH]; intros prev H; [reflexivity|].
  cbn [app squeezed] in *. destruct (JsNumber.is_white c).
  - apply andb_true_iff in H. destruct H as [H1 H2]. rewrite H1. exact (IH _ H2).
  - exact (IH _ H).
Qed.

Lemma squeezed_drop_white (l : list ascii) :
  forall prev prev', squeezed prev l = true -> squeezed prev' (JsNumber.drop_white l) = true.
Proof.
  induction l as [|c r IH]; intros prev prev' H; [reflexivity|].
  cbn [JsNumber.drop_white squeezed] in *. destruct (JsNumber.is_white c) eqn:E.
  - apply andb_true_iff in H. destruct H as [_ H]. exact (IH _ _ H).
  - cbn [squeezed]. now rewrite E.
Qed.

Lemma squeezed_trim (l : list ascii) : squeezed false l = true -> squeezed false (JsNumber.trim l) = true.
Proof.
  intro H. unfold JsNumber.trim. destruct (drop_end_prefix (JsNumber.drop_white l)) as [w E].
  apply (squeezed_prefix _ w). rewrite <- E. exact (squeezed_drop_white l _ _ H).
Qed.

Lemma collapse_white_squeezed (s : string) :
  forall prev, squeezed prev (list_ascii_of_string (collapse_white s prev)) = true.
Proof.
  induction s as [|c r IH]; intro prev; [reflexivity|].
  cbn [collapse_white]. destruct (JsNumber.is_white c) eqn:E.
  - destruct prev; [apply IH|].
    cbn [list_ascii_of_string squeezed]. now rewrite IH.
  - cbn [list_ascii_of_string squeezed]. now rewrite E, IH.
Qed.

Lemma collapse_white_fixed (l : list ascii) :
  forall prev,
    squeezed prev l = true ->
    collapse_white (string_of_list_ascii l) prev = string_of_list_ascii l.
Proof.
  induction l as [|c r IH]; intros prev H; [reflexivity|].
  cbn [string_of_list_ascii collapse_white squeezed] in *.
  destruct (JsNumber.is_white c).
  - apply andb_true_iff in H. destruct H as [H1 H2].
    apply andb_true_iff in H1. destruct H1 as [H0 H1].
    apply Ascii.eqb_eq in H0. subst c. destruct prev; [discriminate|].
    now rewrite (IH _ H2).
  - now rewrite (IH _ H).
Qed.

(** [s.replace(/\s+/g, ' ').trim()] applied twice is applied once. *)
Lemma squeeze_idem (s : string) :
  trim (collapse_white (trim (collapse_white s false)) false)
  = trim (collapse_white s false).
Proof.
  unfold trim at 2.
  set (t := JsNumber.trim (list_ascii_of_string (collapse_white s false))).
  assert (Sq : squeezed false t = true)
    by (apply squeezed_trim, collapse_white_squeezed).
  rewrite (collapse_white_fixed t false Sq).
  unfold trim. rewrite list_ascii_of_string_of_list_ascii.
  subst t. now rewrite trim_idem.
Qed.

End WhiteSpace.

Lemma polite_idem (prompt : string) : polite (polite prompt) = polite prompt.
Proof.
  unfold polite.
  destruct (String.prefix "Generate" prompt || String.prefix "Create" prompt
            || String.prefix "Write" prompt) eqn:E.
  - reflexivity.
  - now rewrite E.
Qed.

(** X30. Adapting an adapted prompt changes nothing: for every model,
    [adaptPromptForModel] applied to its own result returns it as it is. *)
Theorem adaptPromptForModel_idempotent (prompt model : string) :
  adaptPromptForModel (adaptPromptForModel prompt model) model
  = adaptPromptForModel prompt model.
Proof.
  unfold adaptPromptForModel. cbn zeta.
  destruct (String.eqb (getModelCategory model) "gpt"); [reflexivity|].
  destruct (String.eqb (getModelCategory model) "claude"); [apply polite_idem|].
  destruct (String.eqb (getModelCategory model) "llama").
  - destruct (negb (Str.includes "please" (Str.toLowerCase prompt))
              && negb (Str.includes "generate" (Str.toLowerCase prompt))) eqn:E.
    + reflexivity.
    + now rewrite E.
  - destruct (String.eqb (getModelCategory model) "gemini"); [reflexivity|].
    destruct (String.eqb (getModelCategory model) "mistral"); [|reflexivity].
    apply WhiteSpace.squeeze_idem.
Qed.
